(** * Magnetic balltracking: the [MBT] tracker of balltracking/mballtrack.py

    A shallow embedding of the ball state store, the validity and decimation
    engine ([MBT.set_bad_balls]), the emergence populator
    ([MBT.populate_emergence]) and the frame loop ([MBT.track_all_frames]),
    followed by the properties of the specification that concern them.

    Conventions of the embedding.
    - float32 values are exact rationals ([Q]); a velocity component may in
      addition be [NaN].  Rounding of the float arithmetic is not modelled.
    - A [3 x N] array ([pos], [vel]) is the list of its [N] columns; a
      one-dimensional array is a list; a boolean mask is a [list bool].
    - Python's [print] appends a [message] to the [stdout] field;
      [sys.exit(1)] and the exceptions numpy raises are the two failing
      cases of [outcome].
    - The module [balltrack] ([blt]) and the libraries are not part of the
      source tree.  [blt.get_off_edges_mask] is modelled from the
      specification; [np.argsort], [peak_local_max],
      [blt.put_balls_on_surface] and [blt.integrate_motion] are the fields
      of the class [Collaborators], and what a property needs of them is a
      hypothesis of its statement.  The module [Demo] gives concrete ones,
      on which the statements are run.
    - Plotting and the saving of the result archive are left out. *)

From Stdlib Require Import ZArith QArith Qround Qabs Qminmax Lia Lqa.
From stdpp Require Import base numbers list sorting.

Local Open Scope Z_scope.

(** ** Numeric helpers (numpy scalar operations) *)

Module Np.

(** [a.astype(np.int32)] on a float: truncation toward zero. *)
Definition astype_int32 (q : Q) : Z := Z.quot (Qnum q) (Zpos (Qden q)).

(** [np.floor], [np.ceil] followed by [astype(int)]. *)
Definition floor (q : Q) : Z := Qfloor q.
Definition ceil (q : Q) : Z := Qceiling q.

(** [np.sign]: -1, 0 or 1. *)
Definition sign (q : Q) : Z := Z.sgn (Qnum q).

(** [np.clip(v, lo, hi)] is [minimum(maximum(v, lo), hi)]. *)
Definition clip (v lo hi : Z) : Z := Z.min (Z.max v lo) hi.

(** [np.uint32(v)]: the value modulo [2^32]. *)
Definition uint32 (v : Z) : Z := v mod 2 ^ 32.

(** Strict comparison of floats, as a boolean. *)
Definition ltb (a b : Q) : bool := negb (Qle_bool b a).

(** [np.any] and [mask.sum()] on a boolean array. *)
Definition any (m : list bool) : bool := existsb id m.
Definition count_true (m : list bool) : nat := length (filter (λ b, b = true) m).

(** [np.nonzero(mask)[0]] / [np.flatnonzero(mask)]: the indices of the true
    entries, ascending. *)
Fixpoint nonzero_from (i : nat) (m : list bool) : list nat :=
  match m with
  | [] => []
  | b :: m' => if b then i :: nonzero_from (S i) m' else nonzero_from (S i) m'
  end.
Definition nonzero (m : list bool) : list nat := nonzero_from 0 m.

(** [a[mask]] with a boolean mask of the same length. *)
Fixpoint compress {A} (mask : list bool) (a : list A) : list A :=
  match mask, a with
  | b :: mask', x :: a' => if b then x :: compress mask' a' else compress mask' a'
  | _, _ => []
  end.

(** [a[mask] = v] with a boolean mask. *)
Definition mask_assign {A} (mask : list bool) (v : A) (a : list A) : list A :=
  zip_with (λ (b : bool) x, if b then v else x) mask a.

(** [a[idx]] with an array of non-negative indices; [None] is IndexError. *)
Definition getitems {A} (a : list A) (idx : list nat) : option (list A) :=
  mapM (λ i, a !! i) idx.

(** [a[i]] for a Python integer, negative indices counting from the end. *)
Definition getitem_z {A} (a : list A) (i : Z) : option A :=
  if i <? 0 then
    (if 0 <=? Z.of_nat (length a) + i then a !! Z.to_nat (Z.of_nat (length a) + i) else None)
  else a !! Z.to_nat i.
Definition getitems_z {A} (a : list A) (idx : list Z) : option (list A) :=
  mapM (getitem_z a) idx.

(** [a[idx] = v] with an array of indices. *)
Definition put {A} (idx : list nat) (v : A) (a : list A) : list A :=
  foldl (λ acc i, <[i:=v]> acc) a idx.

(** [a[start:start+len(vals)] = vals]; numpy refuses ([None], ValueError)
    when the slice is cut short by the end of the array. *)
Definition slice_assign {A} (start : nat) (vals : list A) (a : list A) : option (list A) :=
  if decide (start + length vals ≤ length a)%nat
  then Some (take start a ++ vals ++ drop (start + length vals) a)
  else None.

(** [np.ravel_multi_index((i, j), (d0, d1))]; out of bounds is ValueError. *)
Definition ravel_multi_index (i j d0 d1 : Z) : option Z :=
  if (0 <=? i) && (i <? d0) && (0 <=? j) && (j <? d1) then Some (i * d1 + j) else None.

(** [np.lexsort([secondary, primary])]: an indirect stable sort, the last key
    being the primary one.  Stability means that equal keys keep the order
    of their positions, so the result is the list of positions sorted by
    (primary, secondary, position). *)
Definition lex_le (primary secondary : list Z) (i j : nat) : Prop :=
  let ci := primary !!! i in let cj := primary !!! j in
  let ai := secondary !!! i in let aj := secondary !!! j in
  ci < cj ∨ (ci = cj ∧ (ai < aj ∨ (ai = aj ∧ (i ≤ j)%nat))).

#[global] Instance lex_le_dec primary secondary i j : Decision (lex_le primary secondary i j).
Proof. unfold lex_le. apply _. Defined.

Definition lexsort (secondary primary : list Z) : list nat :=
  merge_sort (lex_le primary secondary) (seq 0 (length primary)).

(** [np.r_[np.flatnonzero(c[1:] != c[:-1]), -1]]: the positions where the
    next key differs, and the last position written as -1. *)
Definition run_ends (c : list Z) : list Z :=
  (Z.of_nat <$> nonzero (zip_with (λ a b : Z, bool_decide (a ≠ b))
                           (drop 1 c) (take (length c - 1) c)))
  ++ [-1].

(** [a.view('int32')] of a C-contiguous int64 array on a little-endian
    machine: every element becomes two, its low word then its high word,
    each read as a signed 32-bit integer. *)
Definition int32_of_word (w : Z) : Z := if w <? 2 ^ 31 then w else w - 2 ^ 32.
Definition view_int32 (a : list Z) : list Z :=
  a ≫= (λ v, [int32_of_word (v mod 2 ^ 32); int32_of_word ((v / 2 ^ 32) mod 2 ^ 32)]).

End Np.

(** ** Data *)

(** A two-dimensional float array (a frame or a surface): its shape
    [(shape0, shape1)] = (rows, columns) and its entries by (row, column). *)
Record ndarray2 := {
  shape0 : Z;
  shape1 : Z;
  entry : Z → Z → Q
}.

(** [a[r, c]] for integers [r], [c]: negative indices wrap once, anything
    else out of the shape is IndexError ([None]). *)
Definition getpixel (a : ndarray2) (r c : Z) : option Q :=
  let r' := if r <? 0 then r + shape0 a else r in
  let c' := if c <? 0 then c + shape1 a else c in
  if (0 <=? r') && (r' <? shape0 a) && (0 <=? c') && (c' <? shape1 a)
  then Some (entry a r' c') else None.

(** A velocity component. *)
Inductive fval := Fin (q : Q) | NaN.

Definition vec3 : Type := Q * Q * Q.
Definition vel3 : Type := fval * fval * fval.

Definition px (p : vec3) : Q := p.1.1.
Definition py (p : vec3) : Q := p.1.2.
Definition pz (p : vec3) : Q := p.2.

(** The flag written into the position of a bad ball. *)
Definition sentinel : vec3 := ((-1)%Q, (-1)%Q, (-1)%Q).
Definition vel_nan : vel3 := (NaN, NaN, NaN).
Definition vel_zero : vel3 := (Fin 0%Q, Fin 0%Q, Fin 0%Q).


Inductive py_exn := IndexError | ValueError.

Inductive message :=
  | MsgTrackingWith (nballs : nat)      (* 'Tracking with {nballs} initial balls' *)
  | MsgFrame (n : nat)                  (* 'Frame n={n}: {datafile}' *)
  | MsgPolarity                         (* 'All the balls crossed to opposite polarity. ...' *)
  | MsgNoise                            (* 'All the balls are sitting on noise. ...' *)
  | MsgSunk                             (* 'All the balls have sunk below maximum allowed depth. ...' *)
  | MsgTotalBalls (nballs : nat).       (* 'Total number of balls used self.nballs = {nballs}' *)

Inductive outcome (A : Type) :=
  | Done (a : A)
  | SysExit (code : Z) (out : list message)
  | Raised (e : py_exn).
Arguments Done {A} a.
Arguments SysExit {A} code out.
Arguments Raised {A} e.

#[global] Instance outcome_ret : MRet outcome := λ A a, Done a.
#[global] Instance outcome_bind : MBind outcome := λ A B f m,
  match m with
  | Done a => f a
  | SysExit code out => SysExit code out
  | Raised e => Raised e
  end.

Definition or_raise {A} (e : py_exn) (o : option A) : outcome A :=
  match o with Some a => Done a | None => Raised e end.

(** The constructor arguments of [MBT] that the tracker keeps, and the
    constants [MBT.__init__] derives from them; none changes afterwards. *)
Record Params := {
  rs : Q;
  dp : Q;
  ballspacing : Z;
  intsteps : nat;
  nt : nat;
  mag_thresh : Q;
  noise_level : Q;
  polarity : Z;
  local_min : bool;
  track_emergence : bool;
  verbose : bool;
  datafiles : nat → ndarray2;          (* load_data(datafiles, n) / data[:, :, n] *)
  prep_function : ndarray2 → ndarray2;
  nx : Z;
  ny : Z;
  nxc_ : Z;
  nyc_ : Z;
  min_ds_ : Q;
  nballs_max : nat
}.

(** The tracker object: its parameters, the state updated by every frame,
    the history arrays (one snapshot per frame) and what it has printed. *)
Record MBT := {
  par : Params;

  image : ndarray2;
  surface : ndarray2;
  pos : list vec3;
  vel : list vel3;
  balls_age : list Z;                   (* uint32 *)
  bad_balls_mask : list bool;
  new_valid_balls_mask : list bool;
  unique_valid_balls : list nat;
  nballs : nat;
  nbadballs : nat;

  ballpos : list (list vec3);           (* ballpos[..., n] *)
  balls_age_t : list (list Z);          (* balls_age_t[:, n] *)
  valid_balls_mask_t : list (list bool);(* valid_balls_mask_t[:, n] *)

  stdout : list message
}.

(** The parts of the repository and of the libraries it calls that are not
    in the source tree. *)
Class Collaborators := {
  (** [np.argsort(keys)] with the default sort kind, which is not stable. *)
  argsort : list Z → list nat;
  (** [skimage.feature.peak_local_max(image, min_distance, labels)]: the
      (row, column) coordinates of the peaks, as int64. *)
  peak_local_max : ndarray2 → Z → (Z → Z → bool) → list (Z * Z);
  (** [blt.put_balls_on_surface(surface, x, y, rs, dp)], for one ball. *)
  put_balls_on_surface : ndarray2 → Q → Q → Q → Q → Q;
  (** [blt.integrate_motion(mbt, surface)]: the new [pos] and [vel]. *)
  integrate_motion : MBT → ndarray2 → list vec3 * list vel3
}.

(** What numpy promises of [np.argsort]: a permutation of the positions
    that puts the keys in ascending order. *)
Definition argsort_sorts `{Collaborators} : Prop :=
  ∀ keys : list Z,
    argsort keys ≡ₚ seq 0 (length keys) ∧
    Sorted Z.le ((λ i, keys !!! i) <$> argsort keys).

(** A stable [argsort] moreover keeps equal keys in the order of their
    positions. *)
Definition key_lt (keys : list Z) (i j : nat) : Prop :=
  keys !!! i < keys !!! j ∨ (keys !!! i = keys !!! j ∧ (i < j)%nat).

Definition argsort_stable `{Collaborators} : Prop :=
  ∀ keys : list Z, Sorted (key_lt keys) (argsort keys).

(** Modelled from the spec: [blt.get_off_edges_mask(rs, nx, ny, x, y)] is
    missing from the source tree.  A ball is off the edges when its
    footprint, the disk of radius [rs] around [(x, y)], would index outside
    the frame bounds [0 .. nx-1] x [0 .. ny-1]. *)
Definition get_off_edges_mask (rs : Q) (nx ny : Z) (x y : Q) : bool :=
  Np.ltb (x - rs) 0 || Np.ltb (y - rs) 0 ||
  Np.ltb (inject_Z nx - 1) (x + rs) || Np.ltb (inject_Z ny - 1) (y + rs).

(** ** coarse_grid_pos *)

(** The dimensions of the coarse grid, as [MBT.__init__] computes them:
    both from [nx]. *)
Definition coarse_dims (nx ny ballspacing : Z) : Z * Z :=
  (Np.ceil (inject_Z nx / inject_Z ballspacing),
   Np.ceil (inject_Z nx / inject_Z ballspacing)).

(** [coarse_grid_pos(mbt, x, y)] for one ball: [(xcoarse, ycoarse, coarse_idx)]. *)
Definition coarse_grid_pos1 (mbt : MBT) (x y : Q) : option (Z * Z * Z) :=
  let xcoarse := Np.uint32 (Np.clip (Np.floor (x / inject_Z (ballspacing (par mbt)))) 0 (nxc_ (par mbt) - 1)) in
  let ycoarse := Np.uint32 (Np.clip (Np.floor (y / inject_Z (ballspacing (par mbt)))) 0 (nyc_ (par mbt) - 1)) in
  coarse_idx ← Np.ravel_multi_index ycoarse xcoarse (nyc_ (par mbt)) (nxc_ (par mbt));
  Some (xcoarse, ycoarse, coarse_idx).

(** [coarse_grid_pos] on arrays of coordinates. *)
Definition coarse_grid_pos (mbt : MBT) (xy : list (Q * Q)) : option (list (Z * Z * Z)) :=
  mapM (λ p, coarse_grid_pos1 mbt p.1 p.2) xy.

(** ** Updates of the tracker's fields *)

Definition print (m : message) (mbt : MBT) : MBT :=
  {| par := par mbt; image := image mbt; surface := surface mbt;
     pos := pos mbt; vel := vel mbt; balls_age := balls_age mbt;
     bad_balls_mask := bad_balls_mask mbt;
     new_valid_balls_mask := new_valid_balls_mask mbt;
     unique_valid_balls := unique_valid_balls mbt;
     nballs := nballs mbt; nbadballs := nbadballs mbt;
     ballpos := ballpos mbt; balls_age_t := balls_age_t mbt;
     valid_balls_mask_t := valid_balls_mask_t mbt;
     stdout := stdout mbt ++ [m] |}.

Definition with_frame (img surf : ndarray2) (mbt : MBT) : MBT :=
  {| par := par mbt; image := img; surface := surf;
     pos := pos mbt; vel := vel mbt; balls_age := balls_age mbt;
     bad_balls_mask := bad_balls_mask mbt;
     new_valid_balls_mask := new_valid_balls_mask mbt;
     unique_valid_balls := unique_valid_balls mbt;
     nballs := nballs mbt; nbadballs := nbadballs mbt;
     ballpos := ballpos mbt; balls_age_t := balls_age_t mbt;
     valid_balls_mask_t := valid_balls_mask_t mbt;
     stdout := stdout mbt |}.

Definition with_motion (pv : list vec3 * list vel3) (mbt : MBT) : MBT :=
  {| par := par mbt; image := image mbt; surface := surface mbt;
     pos := pv.1; vel := pv.2; balls_age := balls_age mbt;
     bad_balls_mask := bad_balls_mask mbt;
     new_valid_balls_mask := new_valid_balls_mask mbt;
     unique_valid_balls := unique_valid_balls mbt;
     nballs := nballs mbt; nbadballs := nbadballs mbt;
     ballpos := ballpos mbt; balls_age_t := balls_age_t mbt;
     valid_balls_mask_t := valid_balls_mask_t mbt;
     stdout := stdout mbt |}.

Definition with_masks (uniq : list nat) (bad valid : list bool) (mbt : MBT) : MBT :=
  {| par := par mbt; image := image mbt; surface := surface mbt;
     pos := pos mbt; vel := vel mbt; balls_age := balls_age mbt;
     bad_balls_mask := bad;
     new_valid_balls_mask := valid;
     unique_valid_balls := uniq;
     nballs := nballs mbt; nbadballs := nbadballs mbt;
     ballpos := ballpos mbt; balls_age_t := balls_age_t mbt;
     valid_balls_mask_t := valid_balls_mask_t mbt;
     stdout := stdout mbt |}.

Definition with_population (p : list vec3) (v : list vel3) (bad valid : list bool)
    (n : nat) (mbt : MBT) : MBT :=
  {| par := par mbt; image := image mbt; surface := surface mbt;
     pos := p; vel := v; balls_age := balls_age mbt;
     bad_balls_mask := bad;
     new_valid_balls_mask := valid;
     unique_valid_balls := unique_valid_balls mbt;
     nballs := n; nbadballs := nbadballs mbt;
     ballpos := ballpos mbt; balls_age_t := balls_age_t mbt;
     valid_balls_mask_t := valid_balls_mask_t mbt;
     stdout := stdout mbt |}.

Definition with_flagged (nbad : nat) (p : list vec3) (v : list vel3) (age : list Z)
    (mbt : MBT) : MBT :=
  {| par := par mbt; image := image mbt; surface := surface mbt;
     pos := p; vel := v; balls_age := age;
     bad_balls_mask := bad_balls_mask mbt;
     new_valid_balls_mask := new_valid_balls_mask mbt;
     unique_valid_balls := unique_valid_balls mbt;
     nballs := nballs mbt; nbadballs := nbad;
     ballpos := ballpos mbt; balls_age_t := balls_age_t mbt;
     valid_balls_mask_t := valid_balls_mask_t mbt;
     stdout := stdout mbt |}.

Definition with_history (bp : list (list vec3)) (bat : list (list Z))
    (vmt : list (list bool)) (mbt : MBT) : MBT :=
  {| par := par mbt; image := image mbt; surface := surface mbt;
     pos := pos mbt; vel := vel mbt; balls_age := balls_age mbt;
     bad_balls_mask := bad_balls_mask mbt;
     new_valid_balls_mask := new_valid_balls_mask mbt;
     unique_valid_balls := unique_valid_balls mbt;
     nballs := nballs mbt; nbadballs := nbadballs mbt;
     ballpos := bp; balls_age_t := bat;
     valid_balls_mask_t := vmt;
     stdout := stdout mbt |}.

(** ** MBT.set_bad_balls *)

Section Tracker.
Context `{Collaborators}.

(** [pos2 = self.pos[:, valid_balls_idx].astype(np.int32)], one column. *)
Definition astype_int32_col (p : vec3) : Z * Z * Z :=
  (Np.astype_int32 (px p), Np.astype_int32 (py p), Np.astype_int32 (pz p)).

(** The three per-ball tests of the block of checks, on a column of [pos2]. *)
Definition same_polarity (mbt : MBT) (p2 : Z * Z * Z) : option bool :=
  v ← getpixel (image mbt) p2.1.2 p2.1.1;
  Some (bool_decide (0 ≤ Np.sign v * polarity (par mbt))).

Definition above_noise (mbt : MBT) (p2 : Z * Z * Z) : option bool :=
  v ← getpixel (image mbt) p2.1.2 p2.1.1;
  Some (Np.ltb (noise_level (par mbt)) (Qabs v)).

Definition unsunk (mbt : MBT) (p2 : Z * Z * Z) : option bool :=
  s ← getpixel (surface mbt) p2.1.2 p2.1.1;
  Some (Np.ltb (s - min_ds_ (par mbt)) (inject_Z p2.2)).

(** One block [if check: mask2 = mask2 & test; if not any(mask2): print;
    sys.exit(1)]. *)
Definition check_block (mbt : MBT) (enabled : bool) (test : Z * Z * Z → option bool)
    (msg : message) (pos2 : list (Z * Z * Z)) (valid_balls_mask2 : list bool)
    : outcome (list bool) :=
  if enabled then
    test_mask ← or_raise IndexError (mapM test pos2);
    let valid_balls_mask2 := zip_with andb valid_balls_mask2 test_mask in
    if negb (Np.any valid_balls_mask2)
    then SysExit 1 (stdout (print msg mbt))
    else Done valid_balls_mask2
  else Done valid_balls_mask2.

(** Lines 379-396: the decimation on the coarse grid.  From the indices of
    the balls that passed the checks to [unique_valid_balls]. *)
Definition decimate (mbt : MBT) (valid_balls_idx : list nat) : outcome (list nat) :=
  xypos ← or_raise IndexError (Np.getitems (pos mbt) valid_balls_idx);
  balls_age ← or_raise IndexError (Np.getitems (balls_age mbt) valid_balls_idx);
  cells ← or_raise ValueError (coarse_grid_pos mbt ((λ p, (px p, py p)) <$> xypos));
  let coarse_pos := (λ c : Z * Z * Z, c.2) <$> cells in
  let sorted_balls := argsort coarse_pos in
  balls_age ← or_raise IndexError (Np.getitems balls_age sorted_balls);
  coarse_pos ← or_raise IndexError (Np.getitems coarse_pos sorted_balls);
  valid_balls_idx ← or_raise IndexError (Np.getitems valid_balls_idx sorted_balls);
  let sidx := Np.lexsort balls_age coarse_pos in
  keep ← or_raise IndexError (Np.getitems_z sidx (Np.run_ends coarse_pos));
  or_raise IndexError (Np.getitems valid_balls_idx keep).

Definition set_bad_balls (mbt : MBT) (check_polarity check_noise check_sinking : bool)
    : outcome MBT :=
  let off_edges_mask :=
    (λ p, get_off_edges_mask (rs (par mbt)) (nx (par mbt)) (ny (par mbt)) (px p) (py p))
      <$> pos mbt in
  let valid_balls_mask := negb <$> off_edges_mask in
  let valid_balls_idx := Np.nonzero valid_balls_mask in
  cols ← or_raise IndexError (Np.getitems (pos mbt) valid_balls_idx);
  let pos2 := astype_int32_col <$> cols in
  let valid_balls_mask2 := replicate (length valid_balls_idx) true in
  valid_balls_mask2 ←
    check_block mbt check_polarity (same_polarity mbt) MsgPolarity pos2 valid_balls_mask2;
  valid_balls_mask2 ←
    check_block mbt check_noise (above_noise mbt) MsgNoise pos2 valid_balls_mask2;
  valid_balls_mask2 ←
    check_block mbt check_sinking (unsunk mbt) MsgSunk pos2 valid_balls_mask2;
  let valid_balls_idx := Np.compress valid_balls_mask2 valid_balls_idx in
  unique_valid_balls ← decimate mbt valid_balls_idx;
  let bad_balls_mask := Np.put unique_valid_balls false (replicate (length (pos mbt)) true) in
  let new_valid_balls_mask := negb <$> bad_balls_mask in
  Done (with_masks unique_valid_balls bad_balls_mask new_valid_balls_mask mbt).

(** The coarse-grid index [coarse_idx] of the ball in a slot. *)
Definition cell_of (mbt : MBT) (i : nat) : option Z :=
  p ← pos mbt !! i; c ← coarse_grid_pos1 mbt (px p) (py p); Some c.2.

(** The ball in slot [i] is within the edges and passes the enabled checks
    of the block: it is one of the balls handed to the decimation. *)
Definition passed_checks (mbt : MBT) (check_polarity check_noise check_sinking : bool)
    (i : nat) : bool :=
  match pos mbt !! i with
  | None => false
  | Some p =>
      negb (get_off_edges_mask (rs (par mbt)) (nx (par mbt)) (ny (par mbt)) (px p) (py p))
      && (negb check_polarity || default false (same_polarity mbt (astype_int32_col p)))
      && (negb check_noise || default false (above_noise mbt (astype_int32_col p)))
      && (negb check_sinking || default false (unsunk mbt (astype_int32_col p)))
  end.

(** ** get_local_extrema *)

(** Elementwise operations on frames. *)
Definition map_array (f : Q → Q) (a : ndarray2) : ndarray2 :=
  {| shape0 := shape0 a; shape1 := shape1 a; entry := λ r c, f (entry a r c) |}.

Definition zip_array (f : Q → Q → Q) (a b : ndarray2) : ndarray2 :=
  {| shape0 := shape0 a; shape1 := shape1 a; entry := λ r c, f (entry a r c) (entry b r c) |}.

(** [image.max()]. *)
Definition array_max (a : ndarray2) : Q :=
  foldr (λ r acc,
           foldr (λ c acc, Qmax (entry a (Z.of_nat r) (Z.of_nat c)) acc)
                 acc (seq 0 (Z.to_nat (shape1 a))))
        (entry a 0 0) (seq 0 (Z.to_nat (shape0 a))).

(** The threshold argument: a number, or a pair of bounds. *)
Inductive threshold := Level (t : Q) | Between (t1 t2 : Q).

(** [get_local_extrema(image, polarity, min_distance, threshold, local_min)]
    with [xlims] and [ylims] left at [None]: [(xstart, ystart)], as the
    list of the pairs. *)
Definition get_local_extrema (image : ndarray2) (polarity : Z) (min_distance : Z)
    (thr : threshold) (local_min : bool) : list (Z * Z) :=
  let mask_thresh : Z → Z → bool :=
    match thr with
    | Level t =>
        if 0 <=? polarity
        then (λ r c, Qle_bool t (entry image r c))
        else (λ r c, Qle_bool (entry image r c) (- t))
    | Between t1 t2 =>
        (λ r c, Np.ltb (Qmin t1 t2) (entry image r c) && Np.ltb (entry image r c) (Qmax t1 t2))
    end in
  let peaks :=
    if local_min then
      let image2 := map_array (λ v, array_max image - v)%Q image in
      peak_local_max (map_array Qabs image2) min_distance mask_thresh
    else
      peak_local_max (map_array Qabs image) min_distance mask_thresh in
  (λ rc : Z * Z, (rc.2, rc.1)) <$> peaks.

(** ** MBT.__init__ *)

(** The constructor arguments the tracker uses.  [prep_function] is always
    given (the default [prep_data] is a float transform and is not
    modelled); [init_pos] holds the [(x, y)] columns of the array. *)
Record Args := {
  a_rs : Q;
  a_dp : Q;
  a_ballspacing : Z;
  a_intsteps : nat;
  a_nt : nat;
  a_mag_thresh : Q;
  a_noise_level : Q;
  a_polarity : Z;
  a_init_pos : option (list (Q * Q));
  a_track_emergence : bool;
  a_datafiles : nat → ndarray2;
  a_prep_function : ndarray2 → ndarray2;
  a_local_min : bool;
  a_verbose : bool
}.

Definition MBT_init (a : Args) : outcome MBT :=
  let image := a_datafiles a 0%nat in
  let surface := a_prep_function a image in
  let nx := shape1 image in
  let ny := shape0 image in
  let nc := coarse_dims nx ny (a_ballspacing a) in
  let nballs_max :=
    match a_init_pos a with
    | None => Z.to_nat (Z.quot (nx * ny) 2)
    | Some cols => length cols
    end in
  let p :=
    {| rs := a_rs a; dp := a_dp a; ballspacing := a_ballspacing a;
       intsteps := a_intsteps a; nt := a_nt a; mag_thresh := a_mag_thresh a;
       noise_level := a_noise_level a; polarity := a_polarity a;
       local_min := a_local_min a; track_emergence := a_track_emergence a;
       verbose := a_verbose a; datafiles := a_datafiles a;
       prep_function := a_prep_function a;
       nx := nx; ny := ny; nxc_ := nc.1; nyc_ := nc.2;
       min_ds_ := (4 * a_rs a)%Q; nballs_max := nballs_max |} in
  let start : list (Q * Q) :=
    match a_init_pos a with
    | None =>
        (λ xy : Z * Z, (inject_Z xy.1, inject_Z xy.2)) <$>
          get_local_extrema image (a_polarity a) (a_ballspacing a)
            (Level (a_mag_thresh a)) (a_local_min a)
    | Some cols => cols
    end in
  let start3 : list vec3 :=
    (λ xy, (xy.1, xy.2, put_balls_on_surface surface xy.1 xy.2 (a_rs a) (a_dp a))) <$> start in
  let nballs := length start in
  pos ← or_raise ValueError (Np.slice_assign 0 start3 (replicate nballs_max sentinel));
  Done {| par := p; image := image; surface := surface;
          pos := pos;
          vel := replicate nballs_max vel_zero;
          balls_age := replicate nballs_max 1;
          bad_balls_mask := replicate nballs_max false;
          new_valid_balls_mask := replicate nballs true ++ replicate (nballs_max - nballs) false;
          unique_valid_balls := seq 0 nballs;
          nballs := nballs; nbadballs := 0;
          ballpos := replicate (a_nt a) (replicate nballs_max (0%Q, 0%Q, 0%Q));
          balls_age_t := replicate (a_nt a) (replicate nballs_max 1);
          valid_balls_mask_t := replicate (a_nt a) (replicate nballs_max true);
          stdout := [] |}.

(** ** MBT.populate_emergence *)

(** [sqrt(d2) > s] for a squared distance [d2]: the square root is
    increasing, so the comparison is taken on the squares. *)
Definition sqrt_gt (d2 s : Q) : bool := Np.ltb s 0 || Np.ltb (s * s) d2.

Definition dist2 (fx fy : Z) (b : vec3) : Q :=
  ((inject_Z fx - px b) ^ 2 + (inject_Z fy - py b) ^ 2)%Q.

(** [distance_matrix.min(axis=1)] for one row, on the squared distances;
    numpy raises ValueError when there is no column to reduce. *)
Definition distance_min2 (balls : list vec3) (f : Z * Z) : option Q :=
  match balls with
  | [] => None
  | b :: balls' => Some (foldr (λ b' acc, Qmin (dist2 f.1 f.2 b') acc) (dist2 f.1 f.2 b) balls')
  end.

(** [a[start:start+len] = v] for a scalar [v]: the slice is cut at the end
    of the array. *)
Definition slice_fill {A} (start len : nat) (v : A) (a : list A) : list A :=
  take start a ++ replicate (min len (length a - start)) v ++ drop (start + len) a.

(** Lines 285-296: the columns of the new balls, from the candidates
    [flux_pos] and the mask of those far from every valid ball. *)
Definition new_balls (mbt : MBT) (flux_pos : list (Z * Z)) (populate_flux_mask : list bool)
    : list vec3 :=
  let newposx := Np.view_int32 (Np.compress populate_flux_mask (fst <$> flux_pos)) in
  let newposy := Np.view_int32 (Np.compress populate_flux_mask (snd <$> flux_pos)) in
  let within_edges_mask :=
    zip_with (λ x y, negb (get_off_edges_mask (rs (par mbt)) (nx (par mbt)) (ny (par mbt))
                             (inject_Z x) (inject_Z y)))
             newposx newposy in
  let newposx := Np.compress within_edges_mask newposx in
  let newposy := Np.compress within_edges_mask newposy in
  zip_with (λ x y, (inject_Z x, inject_Z y,
                    put_balls_on_surface (surface mbt) (inject_Z x) (inject_Z y)
                      (rs (par mbt)) (dp (par mbt))))
           newposx newposy.

(** The mask [populate_flux_mask] from the minimal distances. *)
Definition far_mask (mbt : MBT) (distance_min : list Q) : list bool :=
  (λ d2, sqrt_gt d2 (inject_Z (ballspacing (par mbt) + 1))) <$> distance_min.

Definition populate_emergence (mbt : MBT) : outcome MBT :=
  let flux_pos :=
    get_local_extrema (image mbt) (polarity (par mbt)) (ballspacing (par mbt))
      (Level (mag_thresh (par mbt))) (local_min (par mbt)) in
  let ball_pos := Np.compress (new_valid_balls_mask mbt) (pos mbt) in
  distance_min ← or_raise ValueError (mapM (distance_min2 ball_pos) flux_pos);
  let populate_flux_mask := far_mask mbt distance_min in
  if decide (0 < Np.count_true populate_flux_mask)%nat then
    let newpos := new_balls mbt flux_pos populate_flux_mask in
    let size := length newpos in
    pos' ← or_raise ValueError (Np.slice_assign (nballs mbt) newpos (pos mbt));
    let vel' := slice_fill (nballs mbt) size vel_zero (vel mbt) in
    let bad' := slice_fill (nballs mbt) size false (bad_balls_mask mbt) in
    Done (with_population pos' vel' bad' (negb <$> bad') (nballs mbt + size)%nat mbt)
  else Done mbt.

(** ** MBT.track_all_frames *)

(** Line 215: the surface of sub-step [i]. *)
Definition surface_i (mbt : MBT) (next_surface : ndarray2) (i : nat) : ndarray2 :=
  zip_array (λ s ns, (s * (inject_Z (Z.of_nat (intsteps (par mbt))) - inject_Z (Z.of_nat i))
                      + ns * inject_Z (Z.of_nat i))
                     / inject_Z (Z.of_nat (intsteps (par mbt))))%Q
            (surface mbt) next_surface.

(** The loop [for i in range(self.intsteps)] over the remaining indices. *)
Fixpoint integrate_steps (steps : list nat) (next_surface : ndarray2) (mbt : MBT) : MBT :=
  match steps with
  | [] => mbt
  | i :: steps' =>
      let s := surface_i mbt next_surface i in
      integrate_steps steps' next_surface (with_motion (integrate_motion mbt s) mbt)
  end.

(** [self.balls_age[self.new_valid_balls_mask] += 1] on uint32. *)
Definition increment_age (valid : list bool) (age : list Z) : list Z :=
  zip_with (λ (b : bool) a, if b then Np.uint32 (a + 1) else a) valid age.

(** The surface of the next frame (lines 188-195), for the tracker holding
    the surface of frame [n]. *)
Definition next_surface_of (n : nat) (mbt : MBT) : ndarray2 :=
  if Z.of_nat n <? Z.of_nat (nt (par mbt)) - 1
  then prep_function (par mbt) (datafiles (par mbt) (n + 1)%nat)
  else surface mbt.

(** Lines 178-216 of the loop body: load frame [n], populate the emerging
    features, integrate the motion over the sub-steps. *)
Definition advance_frame (n : nat) (mbt : MBT) : outcome MBT :=
  let mbt := if verbose (par mbt) then print (MsgFrame n) mbt else mbt in
  let image := datafiles (par mbt) n in
  let mbt := with_frame image (prep_function (par mbt) image) mbt in
  let next_surface := next_surface_of n mbt in
  mbt ← (if track_emergence (par mbt) && (0 <? Z.of_nat n)
         then populate_emergence mbt else Done mbt);
  Done (integrate_steps (seq 0 (intsteps (par mbt))) next_surface mbt).

(** Lines 220-228: flag the bad balls, age the valid ones, store frame [n]
    in the history. *)
Definition record_frame (n : nat) (mbt : MBT) : MBT :=
  let nbad := Np.count_true (bad_balls_mask mbt) in
  let mbt :=
    with_flagged nbad
      (Np.mask_assign (bad_balls_mask mbt) sentinel (pos mbt))
      (Np.mask_assign (bad_balls_mask mbt) vel_nan (vel mbt))
      (increment_age (new_valid_balls_mask mbt) (balls_age mbt))
      mbt in
  with_history (<[n := pos mbt]> (ballpos mbt))
               (<[n := balls_age mbt]> (balls_age_t mbt))
               (<[n := new_valid_balls_mask mbt]> (valid_balls_mask_t mbt))
               mbt.

(** The body of the loop [for n in range(0, self.nt)]. *)
Definition track_frame (n : nat) (mbt : MBT) : outcome MBT :=
  mbt ← advance_frame n mbt;
  mbt ← set_bad_balls mbt true true true;
  Done (record_frame n mbt).

Fixpoint track_frames (frames : list nat) (mbt : MBT) : outcome MBT :=
  match frames with
  | [] => Done mbt
  | n :: frames' => mbt' ← track_frame n mbt; track_frames frames' mbt'
  end.

(** The tracker after its first [k] frames. *)
Definition run_frames (k : nat) (mbt : MBT) : outcome MBT := track_frames (seq 0 k) mbt.

Definition track_all_frames (mbt : MBT) : outcome MBT :=
  let mbt := if verbose (par mbt) then print (MsgTrackingWith (nballs mbt)) mbt else mbt in
  mbt ← run_frames (nt (par mbt)) mbt;
  let mbt := if verbose (par mbt) then print (MsgTotalBalls (nballs mbt)) mbt else mbt in
  Done (with_history (take (nballs mbt) <$> ballpos mbt)
                     (take (nballs mbt) <$> balls_age_t mbt)
                     (take (nballs mbt) <$> valid_balls_mask_t mbt)
                     mbt).

End Tracker.

(** ** Predicates of the statements *)

(** Position [t] is the last one of its run of equal keys. *)
Definition is_end (c : list Z) (t : nat) : Prop :=
  S t = length c ∨ ∃ x y : Z, c !! S t = Some x ∧ c !! t = Some y ∧ x ≠ y.

(** The cell the specification gives to a ball: column [floor(x / spacing)]
    and row [floor(y / spacing)], clamped to a grid of [ceil(nx / spacing)]
    columns by [ceil(ny / spacing)] rows. *)
Definition spec_cell (nx ny ballspacing : Z) (x y : Q) : Z * Z :=
  (Np.clip (Np.floor (x / inject_Z ballspacing)) 0
           (Np.ceil (inject_Z nx / inject_Z ballspacing) - 1),
   Np.clip (Np.floor (y / inject_Z ballspacing)) 0
           (Np.ceil (inject_Z ny / inject_Z ballspacing) - 1)).

(** Rounding to the nearest integer, halves to the even one ([np.rint]):
    the specification's "rounded (x, y)". *)
Definition rint (q : Q) : Z :=
  let f := Qfloor q in
  match (q - inject_Z f ?= 1 # 2)%Q with
  | Lt => f
  | Gt => f + 1
  | Eq => if Z.even f then f else f + 1
  end.

(** The polarity check as the specification words it, reading the frame at
    the rounded pixel of the ball. *)
Definition polarity_check_at_rounded_pixel `{Collaborators} : Prop :=
  ∀ (mbt mbt' : MBT) (i : nat) (p : vec3) (v : Q),
    pos mbt !! i = Some p →
    get_off_edges_mask (rs (par mbt)) (nx (par mbt)) (ny (par mbt)) (px p) (py p) = false →
    getpixel (image mbt) (rint (py p)) (rint (px p)) = Some v →
    Np.sign v * polarity (par mbt) < 0 →
    set_bad_balls mbt true true true = Done mbt' →
    new_valid_balls_mask mbt' !! i = Some false.



(** The balls that pass the off-edge check, and "every one of them fails
    the given check". *)
Definition in_edge_balls (mbt : MBT) : list vec3 :=
  filter (λ p, get_off_edges_mask (rs (par mbt)) (nx (par mbt)) (ny (par mbt)) (px p) (py p)
               = false)
         (pos mbt).





(** The fields that the integration of the motion leaves alone. *)
Definition same_but_motion (m m' : MBT) : Prop :=
  par m' = par m ∧ image m' = image m ∧ surface m' = surface m ∧
  balls_age m' = balls_age m ∧ bad_balls_mask m' = bad_balls_mask m ∧
  new_valid_balls_mask m' = new_valid_balls_mask m ∧
  nballs m' = nballs m ∧
  ballpos m' = ballpos m ∧ balls_age_t m' = balls_age_t m ∧
  valid_balls_mask_t m' = valid_balls_mask_t m ∧ stdout m' = stdout m.

(** The tracker at the entry of the loop over the sub-steps of frame [n]:
    frame [n] is loaded and the emerging features are populated. *)
Definition loaded_frame `{Collaborators} (n : nat) (mbt : MBT) : outcome MBT :=
  let mbt := if verbose (par mbt) then print (MsgFrame n) mbt else mbt in
  let image := datafiles (par mbt) n in
  let mbt := with_frame image (prep_function (par mbt) image) mbt in
  if track_emergence (par mbt) && (0 <? Z.of_nat n)
  then populate_emergence mbt else Done mbt.

(** What is assumed of the integrator [blt.integrate_motion], which is not
    in the source tree: it keeps the shape of [pos] and [vel], and it moves
    only the balls of [new_valid_balls_mask]. *)
Definition integrator_keeps_shape `{Collaborators} : Prop :=
  ∀ (mbt : MBT) (s : ndarray2),
    length (integrate_motion mbt s).1 = length (pos mbt) ∧
    length (integrate_motion mbt s).2 = length (vel mbt).

Definition integrator_skips_invalid `{Collaborators} : Prop :=
  ∀ (mbt : MBT) (s : ndarray2) (i : nat),
    new_valid_balls_mask mbt !! i = Some false →
    (integrate_motion mbt s).1 !! i = pos mbt !! i.

(** The arrays of the tracker have the shapes [MBT.__init__] gave them. *)
Record shaped (mbt : MBT) : Prop := {
  sh_pos : length (pos mbt) = nballs_max (par mbt);
  sh_vel : length (vel mbt) = nballs_max (par mbt);
  sh_age : length (balls_age mbt) = nballs_max (par mbt);
  sh_bad : length (bad_balls_mask mbt) = nballs_max (par mbt);
  sh_valid : length (new_valid_balls_mask mbt) = nballs_max (par mbt);
  sh_nballs : (nballs mbt ≤ nballs_max (par mbt))%nat;
  sh_ballpos : length (ballpos mbt) = nt (par mbt);
  sh_age_t : length (balls_age_t mbt) = nt (par mbt);
  sh_valid_t : length (valid_balls_mask_t mbt) = nt (par mbt)
}.

(** The slots from [nballs] on are unused: flagged position, age 1, not
    valid. *)
Definition unused_slots (mbt : MBT) : Prop :=
  ∀ i, (nballs mbt ≤ i < nballs_max (par mbt))%nat →
    pos mbt !! i = Some sentinel ∧ balls_age mbt !! i = Some 1 ∧
    new_valid_balls_mask mbt !! i = Some false.

(** The candidates of the emergence: the local extrema of the frame the
    tracker holds, as [(x, y)]. *)
Definition candidates `{Collaborators} (mbt : MBT) : list (Z * Z) :=
  get_local_extrema (image mbt) (polarity (par mbt)) (ballspacing (par mbt))
    (Level (mag_thresh (par mbt))) (local_min (par mbt)).

(** The tracker at the end of a frame: the two masks are complementary and
    the balls that are not valid carry the flags. *)
Record settled (mbt : MBT) : Prop := {
  st_masks : new_valid_balls_mask mbt = negb <$> bad_balls_mask mbt;
  st_flags : ∀ i, new_valid_balls_mask mbt !! i = Some false →
      pos mbt !! i = Some sentinel ∧ vel mbt !! i = Some vel_nan
}.

(** The candidate [c = (x, y)] is farther than [s] from every ball, and its
    footprint is within the edges of the frame. *)
Definition far_from (balls : list vec3) (s : Q) (c : Z * Z) : bool :=
  forallb (λ b, sqrt_gt (dist2 c.1 c.2 b) s) balls.

Definition within_edges (mbt : MBT) (c : Z * Z) : bool :=
  negb (get_off_edges_mask (rs (par mbt)) (nx (par mbt)) (ny (par mbt))
          (inject_Z c.1) (inject_Z c.2)).

(** The candidates that are to become balls: those farther than
    [ballspacing + 1] from every valid ball and within the edges. *)
Definition emerging `{Collaborators} (mbt : MBT) : list (Z * Z) :=
  filter (λ c, far_from (Np.compress (new_valid_balls_mask mbt) (pos mbt))
                 (inject_Z (ballspacing (par mbt) + 1)) c = true
               ∧ within_edges mbt c = true)
         (candidates mbt).




(** * Label maps for the marker-based watershed

    [label_from_pos] of balltracking/mballtrack.py builds the markers of
    the watershed from the positions of the balls.  A two-dimensional
    integer array (a label map) is the list of its rows.  The coordinate
    arrays are integer arrays here: numpy refuses to index with a float
    array. *)

(** [np.int32] arithmetic: the value wraps to 32 signed bits. *)
Definition int32 (v : Z) : Z := Np.int32_of_word (v mod 2 ^ 32).

(** An index into an axis of length [d]: a negative index counts from the
    end, anything else out of the axis is IndexError ([None]). *)
Definition axis_index (d : nat) (i : Z) : option nat :=
  if (0 <=? i) && (i <? Z.of_nat d) then Some (Z.to_nat i)
  else if (- Z.of_nat d <=? i) && (i <? 0) then Some (Z.to_nat (i + Z.of_nat d))
  else None.

(** [a[r, c] = v] and [a[r, c]] on a two-dimensional array. *)
Definition set_entry (r c : nat) (v : Z) (a : list (list Z)) : list (list Z) :=
  alter (<[c := v]>) r a.

Definition lookup2 {A} (a : list (list A)) (r c : nat) : option A :=
  row ← a !! r; row !! c.

(** [a[rows, cols] = vals] with index arrays: the entries are written in
    the order of the arrays, so that of two writes to one pixel the later
    one stays. *)
Definition paint (a : list (list Z)) (T : list (nat * nat * Z)) : list (list Z) :=
  foldl (λ a (rcl : nat * nat * Z), set_entry rcl.1.1 rcl.1.2 rcl.2 a) a T.

(** [label_from_pos(x, y, dims)] (lines 633-641): the label [i + 1] at the
    pixel of every ball [i] with [x > 0].  A boolean mask of another length
    than the array it indexes, and an index out of the map, are IndexError. *)
Definition label_from_pos (x y : list Z) (dims : nat * nat) : outcome (list (list Z)) :=
  let label_map := replicate dims.1 (replicate dims.2 0) in
  let labels := (λ i : nat, int32 (Z.of_nat i + 1)) <$> seq 0 (length x) in
  let valid_mask := (λ v, 0 <? v) <$> x in
  if decide (length y = length x) then
    rows ← or_raise IndexError (mapM (axis_index dims.1) (Np.compress valid_mask y));
    cols ← or_raise IndexError (mapM (axis_index dims.2) (Np.compress valid_mask x));
    Done (paint label_map (zip (zip rows cols) (Np.compress valid_mask labels)))
  else Raised IndexError.

(** The entry written for the ball [i]: [t = (row, column, label)]. *)
Definition marker_of (x y : list Z) (dims : nat * nat) (i : nat) (t : nat * nat * Z) : Prop :=
  ∃ xi yi, x !! i = Some xi ∧ y !! i = Some yi ∧ 0 < xi ∧
           axis_index dims.1 yi = Some t.1.1 ∧ axis_index dims.2 xi = Some t.1.2 ∧
           t.2 = int32 (Z.of_nat i + 1).

(** Every ball with [x > 0] has its pixel in a label map of the shape
    [dims]. *)
Definition markers_fit (x y : list Z) (dims : nat * nat) : Prop :=
  Forall2 (λ xi yi, 0 < xi →
             xi < Z.of_nat dims.2 ∧ - Z.of_nat dims.1 ≤ yi < Z.of_nat dims.1) x y.

(** * The marker-based watershed *)

(** The segmentation functions of scikit-image, which are not part of the
    source tree. *)
Class Segmentation := {
  (** [skimage.segmentation.watershed(image, markers, mask=mask)]. *)
  watershed : ndarray2 → list (list Z) → (Z → Z → bool) → list (list Z);
  (** [skimage.segmentation.find_boundaries(labels)]. *)
  find_boundaries : list (list Z) → list (list bool)
}.

(** What is assumed of [watershed]: it reads its image and its mask at the
    pixels of the image only, and the image through its values. *)
Definition watershed_reads_pixels `{Segmentation} : Prop :=
  ∀ (a b : ndarray2) (markers : list (list Z)) (m1 m2 : Z → Z → bool),
    shape0 a = shape0 b → shape1 a = shape1 b →
    (∀ r c, 0 ≤ r < shape0 a → 0 ≤ c < shape1 a →
            (entry a r c == entry b r c)%Q ∧ m1 r c = m2 r c) →
    watershed a markers m1 = watershed b markers m2.

(** The mask of the pixels beyond the threshold, on the side of the
    polarity (lines 661-664). *)
Definition mask_ws (data : ndarray2) (threshold : Q) (polarity : Z) : Z → Z → bool :=
  if 0 <=? polarity then (λ r c, Np.ltb threshold (entry data r c))
  else (λ r c, Np.ltb (entry data r c) (- threshold)).

(** [marker_watershed(data, x, y, threshold, polarity, invert)] (lines
    644-677): [(labels, markers, borders)].  With [invert] the absolute
    values are subtracted from themselves in place ([wdata -= wdata]). *)
Definition marker_watershed `{Segmentation} (data : ndarray2) (x y : list Z) (threshold : Q)
    (polarity : Z) (invert : bool)
    : outcome (list (list Z) * list (list Z) * list (list bool)) :=
  markers ← label_from_pos x y (Z.to_nat (shape0 data), Z.to_nat (shape1 data));
  let mask := mask_ws data threshold polarity in
  let wdata := map_array Qabs data in
  let wdata := if invert then zip_array Qminus wdata wdata else wdata in
  let labels := watershed wdata markers mask in
  let borders := find_boundaries labels in
  let labels := (λ row : list Z, (λ l, int32 (l - 1)) <$> row) <$> labels in
  Done (labels, markers, borders).

(** Two arrays of the same shape, row by row (an array without a row has
    no recorded width). *)
Definition same_rows {A B} (a : list (list A)) (b : list (list B)) : Prop :=
  Forall2 (λ r1 r2, length r1 = length r2) a b.

#[global] Instance same_rows_dec {A B} (a : list (list A)) (b : list (list B)) :
  Decision (same_rows a b).
Proof. unfold same_rows. apply _. Defined.

(** [merge_watershed(labels_p, borders_p, nballs_p, labels_n, borders_n)]
    (lines 711-732): [(ws_labels, borders)].  A boolean mask of another
    shape than the array it indexes is IndexError. *)
Definition merge_watershed (labels_p : list (list Z)) (borders_p : list (list bool))
    (nballs_p : Z) (labels_n : list (list Z)) (borders_n : list (list bool))
    : outcome (list (list Z) * list (list Z)) :=
  if decide (same_rows labels_n labels_p) then
    let ws_labels :=
      zip_with (zip_with (λ ln lp : Z, if 0 <=? ln then int32 (nballs_p + ln + 1) else lp))
               labels_n labels_p in
    if decide (same_rows borders_n borders_p) then
      let borders :=
        zip_with (zip_with (λ bn bp : bool, if bn then -1 else if bp then 1 else 0))
                 borders_n borders_p in
      Done (ws_labels, borders)
    else Raised IndexError
  else Raised IndexError.

(** * get_local_extrema_ar *)

(** [get_local_extrema_ar(image, polarity, min_distance, threshold,
    threshold2, local_min)] (lines 528-574): the extrema of
    [get_local_extrema] whose intensity is below [threshold2], followed by
    the peaks of the regions beyond [threshold2]; [(x, y)] pairs.  The
    structuring element [se] is computed and not used. *)
Definition get_local_extrema_ar `{Collaborators} (image : ndarray2) (polarity min_distance : Z)
    (thr : threshold) (threshold2 : Q) (local_min : bool) : outcome (list (Z * Z)) :=
  let start := get_local_extrema image polarity min_distance thr local_min in
  data_int ← or_raise IndexError (mapM (λ xy : Z * Z, getpixel image xy.2 xy.1) start);
  let select_mask :=
    if 0 <=? polarity
    then (λ v, Qle_bool 0 v && Np.ltb v threshold2) <$> data_int
    else (λ v, Np.ltb v 0 && Np.ltb (- threshold2) v) <$> data_int in
  let mask_maxi_sunspots : Z → Z → bool :=
    if 0 <=? polarity
    then (λ r c, Qle_bool threshold2 (entry image r c))
    else (λ r c, Np.ltb (entry image r c) (- threshold2)) in
  let start1 := Np.compress select_mask start in
  let peaks2 := peak_local_max (map_array Qabs image) min_distance mask_maxi_sunspots in
  Done (start1 ++ ((λ rc : Z * Z, (rc.2, rc.1)) <$> peaks2)).


(** The intensity [v] is of the tracked polarity and below [threshold2],
    respectively at or beyond [threshold2], as the two groups are selected. *)
Definition weak_flux (polarity : Z) (threshold2 v : Q) : Prop :=
  if 0 <=? polarity then (0 <= v)%Q ∧ (v < threshold2)%Q
  else (v < 0)%Q ∧ (- threshold2 < v)%Q.


#[global] Instance weak_flux_dec polarity threshold2 v :
  Decision (weak_flux polarity threshold2 v).
Proof.
  unfold weak_flux. destruct (0 <=? polarity); apply and_dec; unfold Qle, Qlt; apply _.
Defined.

(** * load_data *)

From Stdlib Require Import Ascii.

#[global] Instance ascii_eq_dec : EqDecision ascii := ascii_dec.

(** A path is the list of its characters.  [s.rfind(c)]: the index of the
    last occurrence of [c] in [s], or -1. *)
Fixpoint rfind_from (i : Z) (c : ascii) (s : list ascii) : Z :=
  match s with
  | [] => -1
  | a :: s' =>
      let r := rfind_from (i + 1) c s' in
      if r <? 0 then (if bool_decide (a = c) then i else -1) else r
  end.
Definition rfind (c : ascii) (s : list ascii) : Z := rfind_from 0 c s.

(** [os.path.splitext(p)] (posixpath): the extension starts at the last
    dot of the last component of the path, unless that component has only
    dots before it. *)
Definition splitext (p : list ascii) : list ascii * list ascii :=
  let sepIndex := rfind "/"%char p in
  let dotIndex := rfind "."%char p in
  if (sepIndex <? dotIndex) &&
     existsb (λ k, bool_decide (p !! k ≠ Some "."%char))
             (seq (Z.to_nat (sepIndex + 1)) (Z.to_nat (dotIndex - (sepIndex + 1))))
  then (take (Z.to_nat dotIndex) p, drop (Z.to_nat dotIndex) p)
  else (p, []).

(** The readers of the files and the indexing by a region of interest,
    which are not part of the source tree; [index_error] is IndexError. *)
Class Readers := {
  io_error : Type;
  index_error : io_error;
  roi : Type;
  (** [fitstools.fitsread(datafiles, tslice=n)]. *)
  fitsread : list (list ascii) → nat → io_error + ndarray2;
  (** [image[roi]]. *)
  getitem_roi : ndarray2 → roi → io_error + ndarray2
}.

(** [if roi is not None: image = image[roi]], on the outcome of a reader. *)
Definition crop `{Readers} (r : option roi) (image : io_error + ndarray2)
    : io_error + ndarray2 :=
  match image with
  | inl e => inl e
  | inr a => match r with None => inr a | Some r => getitem_roi a r end
  end.

(** [load_npz(datafiles, n)] (lines 473-478); [np_load path] stands for
    [data = np.load(path); data[data.files[0]]]. *)
Definition load_npz `{Readers} (np_load : list ascii → io_error + ndarray2)
    (datafiles : list (list ascii)) (n : nat) : io_error + ndarray2 :=
  match datafiles !! n with
  | None => inl index_error
  | Some p => np_load p
  end.

(** [load_data(datafiles, n, astropy, roi)] (lines 446-470). *)
Definition load_data `{Readers} (np_load : list ascii → io_error + ndarray2)
    (datafiles : list (list ascii)) (n : nat) (r : option roi) : io_error + ndarray2 :=
  match datafiles !! 0%nat with
  | None => inl index_error
  | Some p0 =>
      let ext := (splitext p0).2 in
      if bool_decide (ext ∈ [["n"; "p"; "z"]; ["n"; "p"; "y"]]%char)
      then crop r (load_npz np_load datafiles n)
      else crop r (fitsread datafiles n)
  end.

(** * Concrete collaborators and scenarios *)

Module Demo.

(** A stable argsort: the positions sorted by (key, position). *)
Definition key_le (keys : list Z) (i j : nat) : Prop :=
  keys !!! i < keys !!! j ∨ (keys !!! i = keys !!! j ∧ (i ≤ j)%nat).

#[global] Instance key_le_dec keys i j : Decision (key_le keys i j).
Proof. unfold key_le. apply _. Defined.

Definition stable_argsort (keys : list Z) : list nat :=
  merge_sort (key_le keys) (seq 0 (length keys)).

(** A peak finder: the labelled pixels that no pixel of their window of
    half-width [min_distance] exceeds. *)
Definition window_peaks (a : ndarray2) (min_distance : Z) (labels : Z → Z → bool)
    : list (Z * Z) :=
  r ← seqZ 0 (shape0 a);
  c ← seqZ 0 (shape1 a);
  if labels r c &&
     forallb (λ r', forallb (λ c', Qle_bool (entry a r' c') (entry a r c))
                            (seqZ (Z.max 0 (c - min_distance))
                                  (Z.min (shape1 a) (c + min_distance + 1)
                                   - Z.max 0 (c - min_distance))))
             (seqZ (Z.max 0 (r - min_distance))
                   (Z.min (shape0 a) (r + min_distance + 1) - Z.max 0 (r - min_distance)))
  then [(r, c)] else [].

(** Balls put at the height of the surface at their pixel, and an
    integrator under which the balls stay where they are. *)
Definition surface_height (s : ndarray2) (x y rs dp : Q) : Q :=
  entry s (Np.floor y) (Np.floor x).

Definition at_rest (mbt : MBT) (s : ndarray2) : list vec3 * list vel3 :=
  (pos mbt, vel mbt).

#[global] Instance collaborators : Collaborators := {|
  argsort := stable_argsort;
  peak_local_max := window_peaks;
  put_balls_on_surface := surface_height;
  integrate_motion := at_rest
|}.

(** Frames: a background value with a few bright or dark pixels
    [(row, column, value)]. *)
Definition spots (h w : Z) (background : Q) (l : list (Z * Z * Q)) : ndarray2 :=
  {| shape0 := h; shape1 := w;
     entry := λ r c,
       match list_find (λ s : Z * Z * Q, s.1.1 = r ∧ s.1.2 = c) l with
       | Some (_, s) => s.2
       | None => background
       end |}.

Definition blank_params : Params :=
  {| rs := 2; dp := 0.3; ballspacing := 10; intsteps := 2; nt := 0;
     mag_thresh := 30; noise_level := 20; polarity := 1;
     local_min := false; track_emergence := false; verbose := false;
     datafiles := λ _, spots 0 0 0 []; prep_function := λ a, a;
     nx := 0; ny := 0; nxc_ := 0; nyc_ := 0; min_ds_ := 8; nballs_max := 0 |}.

Definition blank : MBT :=
  {| par := blank_params; image := spots 0 0 0 []; surface := spots 0 0 0 [];
     pos := []; vel := []; balls_age := []; bad_balls_mask := [];
     new_valid_balls_mask := []; unique_valid_balls := []; nballs := 0; nbadballs := 0;
     ballpos := []; balls_age_t := []; valid_balls_mask_t := []; stdout := [] |}.

(** The tracker an outcome ends in. *)
Definition result (o : outcome MBT) : MBT :=
  match o with Done mbt => mbt | _ => blank end.

(** ** A crowded cell: three seeds on a uniform 30 x 30 frame, the first
    two in the same coarse cell. *)
Definition crowded_args : Args :=
  {| a_rs := 2; a_dp := 0.3; a_ballspacing := 10; a_intsteps := 2; a_nt := 2;
     a_mag_thresh := 30; a_noise_level := 20; a_polarity := 1;
     a_init_pos := Some [(12.5, 13)%Q; (15, 17)%Q; (25, 5)%Q];
     a_track_emergence := false;
     a_datafiles := λ _, spots 30 30 50 [];
     a_prep_function := map_array (λ v, - Qabs v)%Q;
     a_local_min := false; a_verbose := true |}.

Definition crowded : MBT := result (MBT_init crowded_args).
Definition crowded1 : MBT := result (track_frame 0 crowded).

(** The same three balls with the ages 3, 5 and 1. *)
Definition aged : MBT :=
  with_flagged 0 (pos crowded) (vel crowded) [3; 5; 1] crowded.
Definition aged' : MBT := result (set_bad_balls aged true true true).

(** The same, the first two balls being both of age 4. *)
Definition tied : MBT :=
  with_flagged 0 (pos crowded) (vel crowded) [4; 4; 1] crowded.
Definition tied' : MBT := result (set_bad_balls tied true true true).

(** ** Polarity: column 6 of the frame is of negative polarity.  Ball 0 is
    at x = 5.7, ball 1 at x = 6.2. *)
Definition stripe : ndarray2 :=
  {| shape0 := 30; shape1 := 30; entry := λ r c, if c =? 6 then (-50)%Q else 50%Q |}.

Definition stripe_args : Args :=
  {| a_rs := 2; a_dp := 0.3; a_ballspacing := 10; a_intsteps := 2; a_nt := 1;
     a_mag_thresh := 30; a_noise_level := 20; a_polarity := 1;
     a_init_pos := Some [(5.7, 5)%Q; (6.2, 15)%Q];
     a_track_emergence := false;
     a_datafiles := λ _, stripe;
     a_prep_function := map_array (λ v, - Qabs v)%Q;
     a_local_min := false; a_verbose := true |}.

Definition striped : MBT := result (MBT_init stripe_args).
Definition striped' : MBT := result (set_bad_balls striped true true true).

(** ** A tall frame: 10 columns by 30 rows. *)
Definition tall_args : Args :=
  {| a_rs := 2; a_dp := 0.3; a_ballspacing := 10; a_intsteps := 2; a_nt := 1;
     a_mag_thresh := 30; a_noise_level := 20; a_polarity := 1;
     a_init_pos := Some [(5, 5)%Q; (5, 25)%Q];
     a_track_emergence := false;
     a_datafiles := λ _, spots 30 10 50 [];
     a_prep_function := map_array (λ v, - Qabs v)%Q;
     a_local_min := false; a_verbose := true |}.

Definition tall : MBT := result (MBT_init tall_args).
Definition tall1 : MBT := result (track_frame 0 tall).

(** ** Total invalidation: one ball on a uniform frame whose polarity is
    negative from frame [flip] on; nothing is printed but the error. *)
Definition flip_args (flip : nat) (verbose : bool) : Args :=
  {| a_rs := 2; a_dp := 0.3; a_ballspacing := 10; a_intsteps := 2; a_nt := 3;
     a_mag_thresh := 30; a_noise_level := 20; a_polarity := 1;
     a_init_pos := Some [(15, 15)%Q];
     a_track_emergence := false;
     a_datafiles := λ n, if decide (n < flip)%nat then spots 30 30 50 [] else spots 30 30 (-50) [];
     a_prep_function := map_array (λ v, - Qabs v)%Q;
     a_local_min := false; a_verbose := verbose |}.

Definition flipped (flip : nat) (verbose : bool) : MBT :=
  result (MBT_init (flip_args flip verbose)).


(** The crowded run after its first and second frames. *)
Definition crowded2 : MBT := result (run_frames 2 crowded).

(** ** Emergence: a 12 x 12 frame with a bright pixel at (x, y) = (2, 2),
    and from frame 1 on a second one at (8, 9). *)
Definition emerge_args : Args :=
  {| a_rs := 1; a_dp := 0.3; a_ballspacing := 4; a_intsteps := 2; a_nt := 2;
     a_mag_thresh := 30; a_noise_level := 20; a_polarity := 1;
     a_init_pos := None;
     a_track_emergence := true;
     a_datafiles := λ n, if decide (n = 0)%nat then spots 12 12 0 [(2, 2, 100%Q)]
                         else spots 12 12 0 [(2, 2, 100%Q); (9, 8, 80%Q)];
     a_prep_function := map_array (λ v, - Qabs v)%Q;
     a_local_min := false; a_verbose := false |}.

Definition emerged : MBT := result (MBT_init emerge_args).
Definition emerged1 : MBT := result (run_frames 1 emerged).
Definition emerged2 : MBT := result (track_frame 1 emerged1).

(** ** A newcomer in an occupied cell: a 30 x 30 frame with a bright pixel
    at (10, 10), and from frame 1 on a brighter one at (19, 19), farther
    than the spacing + 1 from the first but in the same coarse cell. *)
Definition newcomer_args : Args :=
  {| a_rs := 2; a_dp := 0.3; a_ballspacing := 10; a_intsteps := 2; a_nt := 2;
     a_mag_thresh := 30; a_noise_level := 20; a_polarity := 1;
     a_init_pos := None;
     a_track_emergence := true;
     a_datafiles := λ n, if decide (n = 0)%nat then spots 30 30 0 [(10, 10, 100%Q)]
                         else spots 30 30 0 [(10, 10, 100%Q); (19, 19, 200%Q)];
     a_prep_function := map_array (λ v, - Qabs v)%Q;
     a_local_min := false; a_verbose := false |}.

Definition newcomer : MBT := result (MBT_init newcomer_args).
Definition newcomer2 : MBT := result (run_frames 2 newcomer).

End Demo.

(** ** Further scenarios *)

Module Scenes.

(** The crowded tracker with every ball flagged. *)
Definition all_flagged : MBT :=
  with_motion (replicate 3 sentinel, replicate 3 vel_nan) Demo.crowded.

(** Two balls on a frame of weak positive values (10, below the noise level
    20): ball 0 sits on a strong pixel of the other polarity, ball 1 on the
    background. *)
Definition weak_args : Args :=
  {| a_rs := 2; a_dp := 0.3; a_ballspacing := 10; a_intsteps := 2; a_nt := 1;
     a_mag_thresh := 30; a_noise_level := 20; a_polarity := 1;
     a_init_pos := Some [(5, 5)%Q; (15, 15)%Q];
     a_track_emergence := false;
     a_datafiles := λ _, Demo.spots 30 30 10 [(5, 5, (-50)%Q)];
     a_prep_function := map_array (λ v, - Qabs v)%Q;
     a_local_min := false; a_verbose := false |}.

Definition weak : MBT := Demo.result (MBT_init weak_args).

Definition crowded_frame0 : MBT := Demo.result (run_frames 1 Demo.crowded).

(** The tracker of the emergence scenario with no ball left valid. *)
Definition none_valid : MBT :=
  with_masks [] (replicate 72 true) (replicate 72 false) Demo.emerged.

(** Four balls for a label map of 3 rows by 4 columns: ball 0 at
    (x, y) = (2, 1), ball 1 on the first column, ball 2 flagged, ball 3 on
    the pixel of ball 0. *)
Definition marker_x : list Z := [2; 0; -1; 2].
Definition marker_y : list Z := [1; 1; -1; 1].
Definition marker_map : list (list Z) := [[0; 0; 0; 0]; [0; 0; 4; 0]; [0; 0; 0; 0]].

(** A stand-in for the watershed: a marker stays where the pixel is in
    the mask and the image is not negative there. *)
Definition flat_watershed (img : ndarray2) (markers : list (list Z)) (mask : Z → Z → bool)
    : list (list Z) :=
  imap (λ (r : nat) (row : list Z),
          imap (λ (c : nat) (l : Z),
                  if (Z.of_nat r <? shape0 img) && (Z.of_nat c <? shape1 img)
                     && mask (Z.of_nat r) (Z.of_nat c)
                     && Qle_bool 0 (entry img (Z.of_nat r) (Z.of_nat c))
                  then l else 0) row) markers.

Definition no_boundaries (labels : list (list Z)) : list (list bool) :=
  (λ row : list Z, (λ _, false) <$> row) <$> labels.

#[global] Instance segmentation : Segmentation := {|
  watershed := flat_watershed;
  find_boundaries := no_boundaries
|}.

(** Label maps of the two polarities on a 2 x 3 frame, for two positive
    balls. *)
Definition labels_p : list (list Z) := [[0; -1; -1]; [1; 1; -1]].
Definition labels_n : list (list Z) := [[-1; -1; 0]; [-1; 1; 0]].
Definition borders_p : list (list bool) := [[true; false; false]; [true; true; false]].
Definition borders_n : list (list bool) := [[false; false; true]; [false; true; true]].

End Scenes.

(** * Properties *)

(** ** The numpy helpers *)

(** ** Lemmas on the numpy helpers *)

Lemma elem_of_nonzero_from (m : list bool) (i j : nat) :
  j ∈ Np.nonzero_from i m ↔ ∃ k : nat, j = (i + k)%nat ∧ m !! k = Some true.
Proof.
  revert i. induction m as [|b m IH]; intros i; simpl.
  - split; [intros Hj; inversion Hj | intros (k & _ & Hk); discriminate].
  - destruct b.
    + rewrite elem_of_cons, IH. split.
      * intros [-> | (k & -> & Hk)]; [exists 0%nat | exists (S k)]; split; auto; lia.
      * intros (k & -> & Hk). destruct k as [|k]; [left; lia | right; exists k; split; auto; lia].
    + rewrite IH. split.
      * intros (k & -> & Hk). exists (S k). split; auto; lia.
      * intros (k & -> & Hk). destruct k as [|k]; [discriminate|]. exists k; split; auto; lia.
Qed.

Lemma elem_of_nonzero (m : list bool) (j : nat) :
  j ∈ Np.nonzero m ↔ m !! j = Some true.
Proof.
  unfold Np.nonzero. rewrite elem_of_nonzero_from. split.
  - intros (k & -> & Hk). exact Hk.
  - intros Hj. exists j. split; [lia | exact Hj].
Qed.

Lemma nonzero_from_sorted (m : list bool) (i : nat) :
  StronglySorted lt (Np.nonzero_from i m) ∧ Forall (λ j, i ≤ j)%nat (Np.nonzero_from i m).
Proof.
  revert i. induction m as [|b m IH]; intros i; simpl.
  - split; constructor.
  - destruct (IH (S i)) as [Hs Hf]. destruct b.
    + split.
      * constructor; [exact Hs|]. eapply Forall_impl; [exact Hf|]. simpl. intros; lia.
      * constructor; [lia|]. eapply Forall_impl; [exact Hf|]. simpl. intros; lia.
    + split; [exact Hs|]. eapply Forall_impl; [exact Hf|]. simpl. intros; lia.
Qed.

Lemma nonzero_sorted (m : list bool) : StronglySorted lt (Np.nonzero m).
Proof. apply nonzero_from_sorted. Qed.

Lemma compress_sublist {A} (mask : list bool) (a : list A) :
  sublist (Np.compress mask a) a.
Proof.
  revert a. induction mask as [|b mask IH]; intros [|x a]; simpl;
    try apply sublist_nil_l.
  destruct b; [apply sublist_skip | apply sublist_cons]; apply IH.
Qed.

Lemma elem_of_compress {A} (mask : list bool) (a : list A) (x : A) :
  x ∈ Np.compress mask a ↔ ∃ k : nat, mask !! k = Some true ∧ a !! k = Some x.
Proof.
  revert a. induction mask as [|b mask IH]; intros [|y a]; simpl.
  - split; [intros Hx; inversion Hx | intros (k & Hk & _); discriminate].
  - split; [intros Hx; inversion Hx | intros (k & Hk & _); discriminate].
  - split; [intros Hx; inversion Hx | intros (k & _ & Hk); discriminate].
  - destruct b.
    + rewrite elem_of_cons, IH. split.
      * intros [-> | (k & Hk1 & Hk2)]; [exists 0%nat | exists (S k)]; auto.
      * intros ([|k] & Hk1 & Hk2); simpl in *; [left; congruence | right; eauto].
    + rewrite IH. split.
      * intros (k & Hk1 & Hk2). exists (S k); auto.
      * intros ([|k] & Hk1 & Hk2); simpl in *; [discriminate | eauto].
Qed.

Lemma StronglySorted_sublist {A} (R : relation A) (l k : list A) :
  sublist l k → StronglySorted R k → StronglySorted R l.
Proof.
  intros Hsub Hk. revert l Hsub. induction Hk as [|x k Hk IH Hx]; intros l Hsub.
  - apply sublist_nil_r in Hsub. subst. constructor.
  - inversion Hsub as [| y l1 l2 Hs | y l1 l2 Hs]; subst.
    + constructor; [apply IH; exact Hs|].
      rewrite Forall_forall in Hx |- *. intros z Hz. apply Hx.
      eapply elem_of_sublist; [exact Hz | exact Hs].
    + apply IH; exact Hs.
Qed.

Lemma StronglySorted_lookup {A} (R : relation A) (l : list A) (i j : nat) (x y : A) :
  StronglySorted R l → (i < j)%nat → l !! i = Some x → l !! j = Some y → R x y.
Proof.
  intros Hl. revert i j. induction Hl as [|z l Hl IH Hz]; intros i j Hij Hi Hj.
  - discriminate.
  - destruct i as [|i], j as [|j]; simpl in *; try lia.
    + injection Hi as ->. rewrite Forall_forall in Hz. apply Hz.
      eapply list_elem_of_lookup_2; exact Hj.
    + eapply (IH i j); [lia | exact Hi | exact Hj].
Qed.

Lemma lookup_put {A} (idx : list nat) (v : A) (a : list A) (i : nat) :
  Np.put idx v a !! i =
    if decide (i ∈ idx ∧ (i < length a)%nat) then Some v else a !! i.
Proof.
  unfold Np.put. revert a. induction idx as [|j idx IH]; intros a; simpl.
  - destruct (decide (i ∈ [] ∧ (i < length a)%nat)) as [[Hd _]|_]; [inversion Hd | reflexivity].
  - rewrite IH, length_insert.
    destruct (decide (i ∈ idx ∧ (i < length a)%nat)) as [[Hin Hlt]|Hn].
    + rewrite decide_True; [reflexivity|]. split; [right; exact Hin | exact Hlt].
    + destruct (decide (i = j)) as [->|Hne].
      * destruct (decide (j < length a)%nat) as [Hlt|Hge].
        -- rewrite list_lookup_insert_eq by exact Hlt.
           rewrite decide_True; [reflexivity|]. split; [left | exact Hlt].
        -- rewrite list_insert_ge by lia.
           rewrite decide_False; [reflexivity|]. intros [_ Hlt]. lia.
      * rewrite list_lookup_insert_ne by congruence.
        rewrite decide_False; [reflexivity|]. intros [Hin Hlt]. apply Hn.
        split; [|exact Hlt]. apply elem_of_cons in Hin as [?|?]; [congruence | assumption].
Qed.

Lemma length_put {A} (idx : list nat) (v : A) (a : list A) :
  length (Np.put idx v a) = length a.
Proof.
  unfold Np.put. revert a. induction idx as [|j idx IH]; intros a; simpl; [reflexivity|].
  rewrite IH. apply length_insert.
Qed.

Lemma getitems_Some {A} (a : list A) (idx : list nat) (r : list A) :
  Np.getitems a idx = Some r ↔ Forall2 (λ i x, a !! i = Some x) idx r.
Proof. unfold Np.getitems. apply mapM_Some. Qed.

Lemma bind_Done {A B} (m : outcome A) (f : A → outcome B) (b : B) :
  m ≫= f = Done b ↔ ∃ a, m = Done a ∧ f a = Done b.
Proof.
  destruct m as [a|c o|e]; simpl; split.
  - intros Hf. exists a. split; [reflexivity | exact Hf].
  - intros (a' & [= ->] & Hf). exact Hf.
  - discriminate.
  - intros (a' & Ha & _). discriminate.
  - discriminate.
  - intros (a' & Ha & _). discriminate.
Qed.

Lemma or_raise_Done {A} (e : py_exn) (o : option A) (a : A) :
  or_raise e o = Done a ↔ o = Some a.
Proof. destruct o; simpl; split; congruence. Qed.

(** lex_le is a total preorder on positions *)
#[global] Instance lex_le_total (c a : list Z) : Total (Np.lex_le c a).
Proof. intros i j. unfold Np.lex_le. simpl. lia. Qed.

#[global] Instance lex_le_trans (c a : list Z) : Transitive (Np.lex_le c a).
Proof. intros i j k. unfold Np.lex_le. simpl. lia. Qed.

Lemma lexsort_perm (a c : list Z) : Np.lexsort a c ≡ₚ seq 0 (length c).
Proof. apply merge_sort_Permutation. Qed.

Lemma lexsort_sorted (a c : list Z) : StronglySorted (Np.lex_le c a) (Np.lexsort a c).
Proof. apply StronglySorted_merge_sort; apply _. Qed.

Lemma fmap_lookup_total_seq (l : list Z) : (λ i, l !!! i) <$> seq 0 (length l) = l.
Proof.
  apply list_eq. intros i. rewrite list_lookup_fmap.
  destruct (decide (i < length l)%nat) as [Hlt|Hge].
  - rewrite lookup_seq_lt by exact Hlt. simpl.
    destruct (lookup_lt_is_Some_2 l i Hlt) as [x Hx].
    rewrite Hx. f_equal. apply list_lookup_total_correct. exact Hx.
  - rewrite lookup_seq_ge by lia. rewrite lookup_ge_None_2 by lia. reflexivity.
Qed.

Lemma Forall2_lookup_fmap_total (l : list Z) (idx : list nat) (r : list Z) :
  Forall2 (λ j c, l !! j = Some c) idx r → r = (λ i, l !!! i) <$> idx.
Proof.
  induction 1 as [|j c idx r Hj _ IH]; [reflexivity|].
  rewrite fmap_cons. f_equal; [|exact IH].
  symmetry. apply list_lookup_total_correct. exact Hj.
Qed.

(** Keys read through a lexsort are the sorted keys themselves. *)
Lemma lexsort_keys (a c : list Z) :
  Sorted Z.le c → (λ i, c !!! i) <$> Np.lexsort a c = c.
Proof.
  intros Hc. apply (Sorted_unique Z.le).
  - apply Sorted_fmap with (R1 := Np.lex_le c a).
    + intros i j. unfold Np.lex_le. simpl. lia.
    + apply StronglySorted_Sorted, lexsort_sorted.
  - exact Hc.
  - rewrite (lexsort_perm a c). rewrite fmap_lookup_total_seq. reflexivity.
Qed.

Lemma getitem_z_nat {A} (a : list A) (t : nat) : Np.getitem_z a (Z.of_nat t) = a !! t.
Proof.
  unfold Np.getitem_z. destruct (Z.of_nat t <? 0) eqn:E; [apply Z.ltb_lt in E; lia|].
  rewrite Nat2Z.id. reflexivity.
Qed.

Lemma getitem_z_last {A} (a : list A) :
  Np.getitem_z a (-1) = if decide (0 < length a)%nat then a !! (length a - 1)%nat else None.
Proof.
  unfold Np.getitem_z. simpl. destruct (decide (0 < length a)%nat) as [Hlt|Hge].
  - destruct (0 <=? Z.of_nat (length a) + -1) eqn:E; [|apply Z.leb_gt in E; lia].
    f_equal. lia.
  - destruct (0 <=? Z.of_nat (length a) + -1) eqn:E; [apply Z.leb_le in E; lia | reflexivity].
Qed.

Lemma run_ends_char {A} (c : list Z) (a : list A) (s : A) :
  length a = length c →
  (∃ e, e ∈ Np.run_ends c ∧ Np.getitem_z a e = Some s) ↔ (∃ t, a !! t = Some s ∧ is_end c t).
Proof.
  intros Hlen. unfold Np.run_ends, is_end. split.
  - intros (e & He & Hs). apply elem_of_app in He as [He|He].
    + apply list_elem_of_fmap in He as (t & -> & Ht).
      apply elem_of_nonzero in Ht. apply lookup_zip_with_Some in Ht as (x & y & Hb & Hx & Hy).
      rewrite lookup_drop in Hx. apply lookup_take_Some in Hy as [Hy Hlt].
      rewrite getitem_z_nat in Hs. exists t. split; [exact Hs|]. right.
      exists x, y. split; [exact Hx|]. split; [exact Hy|].
      symmetry in Hb. apply bool_decide_eq_true in Hb. exact Hb.
    + apply list_elem_of_singleton in He as ->. rewrite getitem_z_last in Hs.
      destruct (decide (0 < length a)%nat) as [Hpos|]; [|discriminate].
      exists (length a - 1)%nat. split; [exact Hs|]. left. lia.
  - intros (t & Hs & [Hlast | (x & y & Hx & Hy & Hne)]).
    + exists (-1). split; [apply elem_of_app; right; apply list_elem_of_singleton; reflexivity|].
      rewrite getitem_z_last. apply lookup_lt_Some in Hs as Hlt.
      rewrite decide_True by lia. replace (length a - 1)%nat with t by lia. exact Hs.
    + exists (Z.of_nat t). split; [|rewrite getitem_z_nat; exact Hs].
      apply elem_of_app; left. apply list_elem_of_fmap. exists t. split; [reflexivity|].
      apply elem_of_nonzero. apply lookup_zip_with_Some. exists x, y.
      split; [symmetry; apply bool_decide_eq_true; exact Hne|].
      split; [rewrite lookup_drop; exact Hx|].
      apply lookup_take_Some. split; [exact Hy|]. apply lookup_lt_Some in Hx. lia.
Qed.

Lemma mapM_elem_of {A B} (f : A → option B) (l : list A) (k : list B) (y : B) :
  mapM f l = Some k → (y ∈ k ↔ ∃ x, x ∈ l ∧ f x = Some y).
Proof.
  intros Hm. apply mapM_Some in Hm. split.
  - intros Hy. apply list_elem_of_lookup in Hy as [n Hn].
    destruct (Forall2_lookup_r _ _ _ _ _ Hm Hn) as (x & Hx & Hf).
    exists x. split; [eapply list_elem_of_lookup_2; exact Hx | exact Hf].
  - intros (x & Hx & Hf). apply list_elem_of_lookup in Hx as [n Hn].
    destruct (Forall2_lookup_l _ _ _ _ _ Hm Hn) as (y' & Hy' & Hf').
    rewrite Hf in Hf'. injection Hf' as <-. eapply list_elem_of_lookup_2; exact Hy'.
Qed.

Lemma last_of_run (c : list Z) (v : Z) (d t0 : nat) :
  (length c - t0 ≤ d)%nat → c !! t0 = Some v →
  ∃ t, (t0 ≤ t)%nat ∧ c !! t = Some v ∧ is_end c t.
Proof.
  revert t0. induction d as [|d IH]; intros t0 Hd Ht0.
  - apply lookup_lt_Some in Ht0. lia.
  - destruct (c !! S t0) as [x|] eqn:Hx.
    + destruct (decide (x = v)) as [->|Hne].
      * destruct (IH (S t0)) as (t & Hle & Ht & Hend); [lia | exact Hx |].
        exists t. split; [lia|]. split; assumption.
      * exists t0. split; [lia|]. split; [exact Ht0|]. right. exists x, v. auto.
    + exists t0. split; [lia|]. split; [exact Ht0|]. left.
      apply lookup_ge_None in Hx. apply lookup_lt_Some in Ht0. lia.
Qed.

Section Keep.
Variables (c a : list Z) (keep : list nat).
Hypothesis Hsorted : Sorted Z.le c.
Hypothesis Hkeep : Np.getitems_z (Np.lexsort a c) (Np.run_ends c) = Some keep.

Lemma length_lexsort_keep : length (Np.lexsort a c) = length c.
Proof. rewrite (lexsort_perm a c). apply length_seq. Qed.

Lemma keep_char (s : nat) :
  s ∈ keep ↔ ∃ t, Np.lexsort a c !! t = Some s ∧ is_end c t.
Proof.
  rewrite (mapM_elem_of _ _ _ s Hkeep). apply run_ends_char. exact length_lexsort_keep.
Qed.

Lemma lexsort_key_at (t s : nat) :
  Np.lexsort a c !! t = Some s → c !! t = Some (c !!! s).
Proof.
  intros Ht. rewrite <- (lexsort_keys a c Hsorted) at 1.
  rewrite list_lookup_fmap, Ht. reflexivity.
Qed.

Lemma keep_unique (s1 s2 : nat) :
  s1 ∈ keep → s2 ∈ keep → c !!! s1 = c !!! s2 → s1 = s2.
Proof.
  assert (Hss : StronglySorted Z.le c) by (apply Sorted_StronglySorted; [apply _ | exact Hsorted]).
  assert (Haux : ∀ t1 t2 s1 s2, (t1 < t2)%nat →
            Np.lexsort a c !! t1 = Some s1 → Np.lexsort a c !! t2 = Some s2 →
            is_end c t1 → c !!! s1 = c !!! s2 → False).
  { intros t1 t2 u1 u2 Hlt H1 H2 Hend Heq.
    apply lexsort_key_at in H1, H2. rewrite Heq in H1.
    destruct Hend as [Hlast | (x & y & Hx & Hy & Hne)].
    - apply lookup_lt_Some in H2. lia.
    - rewrite H1 in Hy. injection Hy as <-.
      assert (c !!! u2 ≤ x) by (eapply (StronglySorted_lookup Z.le c t1 (S t1)); eauto).
      assert (x ≤ c !!! u2).
      { destruct (decide (S t1 = t2)) as [<-|Hn]; [rewrite Hx in H2; injection H2; lia|].
        eapply (StronglySorted_lookup Z.le c (S t1) t2); eauto. lia. }
      lia. }
  intros (t1 & H1 & E1)%keep_char (t2 & H2 & E2)%keep_char Heq.
  destruct (Nat.lt_trichotomy t1 t2) as [Hlt | [-> | Hgt]].
  - exfalso. eapply (Haux t1 t2); eauto.
  - congruence.
  - exfalso. eapply (Haux t2 t1); eauto.
Qed.

Lemma keep_exists (s0 : nat) :
  (s0 < length c)%nat →
  ∃ s, s ∈ keep ∧ c !!! s = c !!! s0 ∧ a !!! s0 ≤ a !!! s ∧
       (a !!! s0 = a !!! s → (s0 ≤ s)%nat).
Proof.
  intros Hs0.
  assert (s0 ∈ Np.lexsort a c) as Hin.
  { rewrite (lexsort_perm a c). apply elem_of_seq. lia. }
  apply list_elem_of_lookup in Hin as [t0 Ht0].
  pose proof (lexsort_key_at _ _ Ht0) as Hc0.
  destruct (last_of_run c (c !!! s0) (length c) t0) as (t & Hle & Ht & Hend); [lia | exact Hc0 |].
  destruct (lookup_lt_is_Some_2 (Np.lexsort a c) t) as [s Hs].
  { rewrite length_lexsort_keep. eapply lookup_lt_Some; exact Ht. }
  exists s. split; [apply keep_char; eauto|].
  pose proof (lexsort_key_at _ _ Hs) as Hcs. rewrite Ht in Hcs. injection Hcs as Hcs.
  split; [congruence|].
  destruct (decide (t0 = t)) as [->|Hne].
  - rewrite Ht0 in Hs. injection Hs as ->. split; [lia | intros; lia].
  - assert (Np.lex_le c a s0 s) as Hlex.
    { eapply (StronglySorted_lookup _ (Np.lexsort a c) t0 t);
        [apply lexsort_sorted | lia | exact Ht0 | exact Hs]. }
    unfold Np.lex_le in Hlex. simpl in Hlex. split; [lia | intros; lia].
Qed.
End Keep.

(** ** The decimation *)

#[global] Instance key_lt_trans keys : Transitive (key_lt keys).
Proof. intros i j k. unfold key_lt. lia. Qed.

Section Decimate.
Context `{Collaborators}.

Lemma decimate_spec (mbt : MBT) (ids U : list nat) :
  argsort_sorts → StronglySorted lt ids → decimate mbt ids = Done U →
  (∀ k, k ∈ U → k ∈ ids) ∧
  (∀ k1 k2, k1 ∈ U → k2 ∈ U → cell_of mbt k1 = cell_of mbt k2 → k1 = k2) ∧
  (∀ i, i ∈ ids → ∃ k c ai ak,
      k ∈ U ∧ cell_of mbt i = Some c ∧ cell_of mbt k = Some c ∧
      balls_age mbt !! i = Some ai ∧ balls_age mbt !! k = Some ak ∧ ai ≤ ak ∧
      (argsort_stable → ai = ak → (i ≤ k)%nat)).
Proof.
  intros Hargsort Hids Hdec. unfold decimate in Hdec.
  apply bind_Done in Hdec as (xypos & Hxy%or_raise_Done & Hdec).
  apply bind_Done in Hdec as (ages & Hag%or_raise_Done & Hdec).
  apply bind_Done in Hdec as (cells & Hce%or_raise_Done & Hdec).
  cbv zeta in Hdec.
  set (cp0 := (λ c : Z * Z * Z, c.2) <$> cells) in *.
  set (π := argsort cp0) in *.
  apply bind_Done in Hdec as (ages1 & Hag1%or_raise_Done & Hdec).
  apply bind_Done in Hdec as (cp1 & Hcp1%or_raise_Done & Hdec).
  apply bind_Done in Hdec as (ids1 & Hid1%or_raise_Done & Hdec).
  apply bind_Done in Hdec as (keep & Hkeep%or_raise_Done & HU%or_raise_Done).
  apply getitems_Some in Hxy, Hag, Hag1, Hcp1, Hid1.
  unfold coarse_grid_pos in Hce. apply mapM_Some in Hce.
  destruct (Hargsort cp0) as [Hperm Hsort]. fold π in Hperm, Hsort.
  assert (Hcp1eq : cp1 = (λ i, cp0 !!! i) <$> π) by (apply Forall2_lookup_fmap_total; exact Hcp1).
  assert (Hsrt : Sorted Z.le cp1) by (rewrite Hcp1eq; exact Hsort).
  assert (Hlen0 : length cp0 = length ids).
  { unfold cp0. rewrite length_fmap. rewrite <- (Forall2_length _ _ _ Hce), length_fmap.
    symmetry. apply (Forall2_length _ _ _ Hxy). }
  assert (Hlenπ : length π = length ids).
  { rewrite Hperm, length_seq. exact Hlen0. }
  assert (Hlen1 : length cp1 = length ids).
  { rewrite <- (Forall2_length _ _ _ Hcp1). exact Hlenπ. }
  assert (Hlenid1 : length ids1 = length ids).
  { rewrite <- (Forall2_length _ _ _ Hid1). exact Hlenπ. }
  (* what sits at position [s] after the argsort *)
  assert (P : ∀ s k, ids1 !! s = Some k →
            ∃ j, π !! s = Some j ∧ ids !! j = Some k ∧ cp0 !!! j = cp1 !!! s ∧
                 cell_of mbt k = Some (cp1 !!! s) ∧
                 balls_age mbt !! k = Some (ages1 !!! s)).
  { intros s k Hs.
    destruct (Forall2_lookup_r _ _ _ _ _ Hid1 Hs) as (j & Hj & Hjk).
    destruct (Forall2_lookup_l _ _ _ _ _ Hcp1 Hj) as (c & Hc & Hjc).
    destruct (Forall2_lookup_l _ _ _ _ _ Hag1 Hj) as (a & Ha & Hja).
    destruct (Forall2_lookup_l _ _ _ _ _ Hag Hjk) as (a' & Ha' & Hka).
    destruct (Forall2_lookup_l _ _ _ _ _ Hxy Hjk) as (p & Hp & Hkp).
    assert (Hxyj : ((λ p, (px p, py p)) <$> xypos) !! j = Some (px p, py p))
      by (rewrite list_lookup_fmap, Hp; reflexivity).
    destruct (Forall2_lookup_l _ _ _ _ _ Hce Hxyj) as (cc & Hcc & Hcell). simpl in Hcell.
    unfold cp0 in Hjc. rewrite list_lookup_fmap, Hcc in Hjc. simpl in Hjc. injection Hjc as <-.
    exists j. split; [exact Hj|]. split; [exact Hjk|].
    rewrite (list_lookup_total_correct _ _ _ Hc).
    split.
    { apply list_lookup_total_correct. unfold cp0. rewrite list_lookup_fmap, Hcc. reflexivity. }
    split.
    { unfold cell_of. rewrite Hkp. simpl. rewrite Hcell. reflexivity. }
    rewrite (list_lookup_total_correct _ _ _ Ha). congruence. }
  assert (HUchar : ∀ k, k ∈ U ↔ ∃ s, s ∈ keep ∧ ids1 !! s = Some k).
  { intros k. apply (mapM_elem_of _ _ _ k HU). }
  split; [|split].
  - intros k (s & _ & Hs)%HUchar.
    destruct (P s k Hs) as (j & _ & Hj & _). eapply list_elem_of_lookup_2; exact Hj.
  - intros k1 k2 (s1 & Hk1 & Hs1)%HUchar (s2 & Hk2 & Hs2)%HUchar Hcell.
    destruct (P s1 k1 Hs1) as (_ & _ & _ & _ & Hc1 & _).
    destruct (P s2 k2 Hs2) as (_ & _ & _ & _ & Hc2 & _).
    assert (s1 = s2) as ->.
    { eapply (keep_unique cp1 ages1 keep Hsrt Hkeep); [exact Hk1 | exact Hk2 | congruence]. }
    congruence.
  - intros i Hi. apply list_elem_of_lookup in Hi as [j0 Hj0].
    assert (j0 ∈ π) as Hin.
    { rewrite Hperm. apply elem_of_seq. apply lookup_lt_Some in Hj0. lia. }
    apply list_elem_of_lookup in Hin as [s0 Hs0].
    destruct (Forall2_lookup_l _ _ _ _ _ Hid1 Hs0) as (i' & Hi' & Hji).
    assert (i' = i) as -> by congruence.
    destruct (keep_exists cp1 ages1 keep Hsrt Hkeep s0) as (s & Hsk & Hceq & Hale & Htie).
    { rewrite Hlen1, <- Hlenid1. eapply lookup_lt_Some; exact Hi'. }
    destruct (lookup_lt_is_Some_2 ids1 s) as [k Hk].
    { rewrite Hlenid1, <- Hlen1.
      apply (keep_char cp1 ages1 keep Hkeep) in Hsk as (t & Ht & _).
      apply list_elem_of_lookup_2 in Ht. rewrite (lexsort_perm ages1 cp1) in Ht.
      apply elem_of_seq in Ht. lia. }
    destruct (P s0 i Hi') as (j0' & Hπ0 & _ & Hk0 & Hc0 & Ha0).
    destruct (P s k Hk) as (j & Hπ & Hidj & Hkj & Hc & Ha).
    assert (j0' = j0) as -> by congruence.
    exists k, (cp1 !!! s0), (ages1 !!! s0), (ages1 !!! s).
    split; [apply HUchar; eauto|].
    split; [exact Hc0|]. split; [rewrite <- Hceq; exact Hc|].
    split; [exact Ha0|]. split; [exact Ha|]. split; [exact Hale|].
    intros Hstable Heq. specialize (Htie Heq).
    destruct (decide (s0 = s)) as [->|Hne]; [assert (i = k) by congruence; lia|].
    assert (key_lt cp0 j0 j) as Hlt.
    { eapply (StronglySorted_lookup _ π s0 s); [|lia | exact Hπ0 | exact Hπ].
      apply Sorted_StronglySorted; [apply _ | apply Hstable]. }
    unfold key_lt in Hlt.
    assert (j0 < j)%nat as Hjj by lia.
    pose proof (StronglySorted_lookup lt ids j0 j i k Hids Hjj Hj0 Hidj). lia.
Qed.

End Decimate.

(** ** set_bad_balls *)

Section SetBadBalls.
Context `{Collaborators}.

Lemma check_block_Done (mbt : MBT) (enabled : bool) (test : Z * Z * Z → option bool)
    (msg : message) (pos2 : list (Z * Z * Z)) (m m' : list bool) :
  check_block mbt enabled test msg pos2 m = Done m' →
  length m = length pos2 →
  length m' = length pos2 ∧
  ∀ k, m' !! k = Some true ↔
       (m !! k = Some true ∧
        (enabled = true → ∃ q, pos2 !! k = Some q ∧ test q = Some true)).
Proof.
  unfold check_block. destruct enabled.
  - intros Hb Hlen.
    apply bind_Done in Hb as (tm & Htm%or_raise_Done & Hb).
    destruct (negb (Np.any (zip_with andb m tm))); [discriminate|].
    injection Hb as <-. apply mapM_Some in Htm.
    pose proof (Forall2_length _ _ _ Htm) as Hlen'.
    split; [rewrite length_zip_with; lia|].
    intros k. rewrite lookup_zip_with_Some. split.
    + intros (x & y & Hxy & Hx & Hy). symmetry in Hxy.
      apply andb_true_iff in Hxy as [-> ->]. split; [exact Hx|]. intros _.
      destruct (Forall2_lookup_r _ _ _ _ _ Htm Hy) as (q & Hq & Hqt). eauto.
    + intros (Hk & Ht). destruct (Ht eq_refl) as (q & Hq & Hqt).
      destruct (Forall2_lookup_l _ _ _ _ _ Htm Hq) as (y & Hy & Hqy).
      exists true, true. split; [reflexivity|]. split; [exact Hk|]. congruence.
  - intros [= <-] Hlen. split; [exact Hlen|]. intros k. split.
    + intros Hk. split; [exact Hk | discriminate].
    + intros [Hk _]. exact Hk.
Qed.

Lemma default_false_true (o : option bool) : default false o = true ↔ o = Some true.
Proof. destruct o as [[]|]; simpl; split; congruence. Qed.

(** The balls handed to the decimation are those that pass the checks, in
    ascending slot order; the masks are set from what the decimation keeps. *)
Lemma set_bad_balls_Done (mbt mbt' : MBT) (cp cn cs : bool) :
  set_bad_balls mbt cp cn cs = Done mbt' →
  ∃ ids U,
    StronglySorted lt ids ∧
    (∀ i, i ∈ ids ↔ passed_checks mbt cp cn cs i = true) ∧
    decimate mbt ids = Done U ∧
    mbt' = with_masks U (Np.put U false (replicate (length (pos mbt)) true))
             (negb <$> Np.put U false (replicate (length (pos mbt)) true)) mbt.
Proof.
  unfold set_bad_balls. intros Hs. cbv zeta in Hs.
  set (idx0 := Np.nonzero _) in Hs.
  apply bind_Done in Hs as (cols & Hcols%or_raise_Done & Hs).
  apply bind_Done in Hs as (m1 & Hm1 & Hs).
  apply bind_Done in Hs as (m2 & Hm2 & Hs).
  apply bind_Done in Hs as (m3 & Hm3 & Hs).
  apply bind_Done in Hs as (U & HU & Hs).
  injection Hs as <-.
  apply getitems_Some in Hcols.
  pose proof (Forall2_length _ _ _ Hcols) as Hlc.
  apply check_block_Done in Hm1 as [Hl1 Hc1];
    [|rewrite length_replicate, length_fmap; exact Hlc].
  apply check_block_Done in Hm2 as [Hl2 Hc2]; [|exact Hl1].
  apply check_block_Done in Hm3 as [Hl3 Hc3]; [|exact Hl2].
  exists (Np.compress m3 idx0), U.
  split.
  { eapply StronglySorted_sublist; [apply compress_sublist | apply nonzero_sorted]. }
  split; [|split; [exact HU | reflexivity]].
  assert (Hidx0 : ∀ i, i ∈ idx0 ↔ ∃ p, pos mbt !! i = Some p ∧
             get_off_edges_mask (rs (par mbt)) (nx (par mbt)) (ny (par mbt)) (px p) (py p) = false).
  { intros i. unfold idx0. rewrite elem_of_nonzero, !list_lookup_fmap.
    destruct (pos mbt !! i) as [p|]; simpl.
    - split.
      + intros [= Hp]. exists p. split; [reflexivity|]. apply negb_true_iff. exact Hp.
      + intros (p' & [= <-] & Hp). rewrite Hp. reflexivity.
    - split; [discriminate | intros (p' & Hp & _); discriminate]. }
  assert (Hpos2 : ∀ k i p, idx0 !! k = Some i → pos mbt !! i = Some p →
             (astype_int32_col <$> cols) !! k = Some (astype_int32_col p)).
  { intros k i p Hk Hp. destruct (Forall2_lookup_l _ _ _ _ _ Hcols Hk) as (c & Hc & Hic).
    rewrite list_lookup_fmap, Hc. simpl. congruence. }
  intros i. rewrite elem_of_compress. unfold passed_checks. split.
  - intros (k & Hk3 & Hki).
    assert (i ∈ idx0) as (p & Hp & Hoff)%Hidx0 by (eapply list_elem_of_lookup_2; exact Hki).
    rewrite Hp, Hoff. simpl.
    pose proof (Hpos2 k i p Hki Hp) as Hq.
    apply Hc3 in Hk3 as [Hk2 Ht3]. apply Hc2 in Hk2 as [Hk1 Ht2]. apply Hc1 in Hk1 as [_ Ht1].
    repeat (apply andb_true_iff; split); try reflexivity.
    + destruct cp; [|reflexivity]. simpl. destruct (Ht1 eq_refl) as (q & Hq' & Ht).
      rewrite Hq in Hq'. injection Hq' as <-. rewrite Ht. reflexivity.
    + destruct cn; [|reflexivity]. simpl. destruct (Ht2 eq_refl) as (q & Hq' & Ht).
      rewrite Hq in Hq'. injection Hq' as <-. rewrite Ht. reflexivity.
    + destruct cs; [|reflexivity]. simpl. destruct (Ht3 eq_refl) as (q & Hq' & Ht).
      rewrite Hq in Hq'. injection Hq' as <-. rewrite Ht. reflexivity.
  - destruct (pos mbt !! i) as [p|] eqn:Hp; [|discriminate].
    intros Hpass. repeat (apply andb_true_iff in Hpass as [Hpass ?]).
    apply negb_true_iff in Hpass.
    assert (i ∈ idx0) as Hin by (apply Hidx0; eauto).
    apply list_elem_of_lookup in Hin as [k Hk]. exists k. split; [|exact Hk].
    pose proof (Hpos2 k i p Hk Hp) as Hq.
    apply Hc3. split; [apply Hc2; split; [apply Hc1; split|]|].
    + apply lookup_replicate_2. eapply lookup_lt_Some; exact Hk.
    + intros ->. eexists; split; [exact Hq|]. apply default_false_true. assumption.
    + intros ->. eexists; split; [exact Hq|]. apply default_false_true. assumption.
    + intros ->. eexists; split; [exact Hq|]. apply default_false_true. assumption.
Qed.

Lemma decimate_subset (mbt : MBT) (ids U : list nat) (k : nat) :
  decimate mbt ids = Done U → k ∈ U → k ∈ ids.
Proof.
  unfold decimate. intros Hdec Hk.
  apply bind_Done in Hdec as (xypos & _ & Hdec).
  apply bind_Done in Hdec as (ages & _ & Hdec).
  apply bind_Done in Hdec as (cells & _ & Hdec).
  apply bind_Done in Hdec as (ages1 & _ & Hdec).
  apply bind_Done in Hdec as (cp1 & _ & Hdec).
  apply bind_Done in Hdec as (ids1 & Hid1%or_raise_Done & Hdec).
  apply bind_Done in Hdec as (keep & _ & HU%or_raise_Done).
  apply (mapM_elem_of _ _ _ k HU) in Hk as (s & _ & Hs).
  apply list_elem_of_lookup_2 in Hs.
  apply (mapM_elem_of _ _ _ k Hid1) in Hs as (j & _ & Hj).
  eapply list_elem_of_lookup_2; exact Hj.
Qed.

(** The masks [bad_balls_mask = ones; bad_balls_mask[U] = False] and its
    negation. *)
Lemma lookup_bad_mask (U : list nat) (n i : nat) :
  Np.put U false (replicate n true) !! i =
    if decide (i < n)%nat then Some (bool_decide (i ∉ U)) else None.
Proof.
  rewrite lookup_put, length_replicate.
  destruct (decide (i < n)%nat) as [Hlt|Hge].
  - rewrite lookup_replicate_2 by exact Hlt.
    destruct (decide (i ∈ U ∧ (i < n)%nat)) as [[Hin _]|Hn].
    + rewrite bool_decide_eq_false_2; [reflexivity | tauto].
    + rewrite bool_decide_eq_true_2; [reflexivity | tauto].
  - rewrite decide_False by tauto. apply lookup_replicate_None. lia.
Qed.

Lemma lookup_valid_mask (U : list nat) (n i : nat) :
  (negb <$> Np.put U false (replicate n true)) !! i =
    if decide (i < n)%nat then Some (bool_decide (i ∈ U)) else None.
Proof.
  rewrite list_lookup_fmap, lookup_bad_mask.
  destruct (decide (i < n)%nat); [|reflexivity]. simpl. f_equal.
  destruct (decide (i ∈ U)) as [Hin|Hn].
  - rewrite bool_decide_eq_false_2 by tauto. rewrite bool_decide_eq_true_2 by exact Hin. reflexivity.
  - rewrite bool_decide_eq_true_2 by exact Hn. rewrite bool_decide_eq_false_2 by exact Hn. reflexivity.
Qed.

Lemma passed_checks_lt (mbt : MBT) (cp cn cs : bool) (i : nat) :
  passed_checks mbt cp cn cs i = true → (i < length (pos mbt))%nat.
Proof.
  unfold passed_checks. destruct (pos mbt !! i) eqn:Hp; [|discriminate].
  intros _. eapply lookup_lt_Some; exact Hp.
Qed.

(** What [set_bad_balls] leaves in the tracker. *)
Lemma set_bad_balls_frame (mbt mbt' : MBT) (cp cn cs : bool) :
  set_bad_balls mbt cp cn cs = Done mbt' →
  par mbt' = par mbt ∧ pos mbt' = pos mbt ∧ vel mbt' = vel mbt ∧
  balls_age mbt' = balls_age mbt ∧ nballs mbt' = nballs mbt ∧
  image mbt' = image mbt ∧ surface mbt' = surface mbt ∧
  ballpos mbt' = ballpos mbt ∧ balls_age_t mbt' = balls_age_t mbt ∧
  valid_balls_mask_t mbt' = valid_balls_mask_t mbt ∧ stdout mbt' = stdout mbt ∧
  length (bad_balls_mask mbt') = length (pos mbt) ∧
  length (new_valid_balls_mask mbt') = length (pos mbt) ∧
  new_valid_balls_mask mbt' = negb <$> bad_balls_mask mbt'.
Proof.
  intros (ids & U & _ & _ & _ & ->)%set_bad_balls_Done. simpl.
  rewrite length_fmap, length_put, length_replicate. repeat split; reflexivity.
Qed.

(** A slot is valid after [set_bad_balls] exactly when the decimation kept
    it; a kept ball passed the checks. *)
Lemma set_bad_balls_valid (mbt mbt' : MBT) (cp cn cs : bool) (i : nat) :
  set_bad_balls mbt cp cn cs = Done mbt' →
  new_valid_balls_mask mbt' !! i = Some true →
  i ∈ unique_valid_balls mbt' ∧ passed_checks mbt cp cn cs i = true.
Proof.
  intros (ids & U & _ & Hids & Hdec & ->)%set_bad_balls_Done. simpl.
  rewrite lookup_valid_mask. destruct (decide (i < _)%nat); [|discriminate].
  intros [= Hin]. apply bool_decide_eq_true in Hin. split; [exact Hin|].
  apply Hids. eapply decimate_subset; eauto.
Qed.

Lemma set_bad_balls_invalid (mbt mbt' : MBT) (cp cn cs : bool) (i : nat) :
  set_bad_balls mbt cp cn cs = Done mbt' →
  (i < length (pos mbt))%nat →
  passed_checks mbt cp cn cs i = false →
  new_valid_balls_mask mbt' !! i = Some false.
Proof.
  intros Hs Hlt Hpass.
  destruct (new_valid_balls_mask mbt' !! i) as [[]|] eqn:Hv.
  - apply (set_bad_balls_valid _ _ _ _ _ _ Hs) in Hv as [_ Hv]. congruence.
  - reflexivity.
  - apply lookup_ge_None in Hv.
    apply set_bad_balls_frame in Hs as (_&_&_&_&_&_&_&_&_&_&_&_&Hl&_). lia.
Qed.

End SetBadBalls.

(** ** The frame loop *)

Section Frames.
Context `{Collaborators}.

Lemma track_frame_Done (n : nat) (mbt mbt' : MBT) :
  track_frame n mbt = Done mbt' ↔
  ∃ m1 m2, advance_frame n mbt = Done m1 ∧
           set_bad_balls m1 true true true = Done m2 ∧
           mbt' = record_frame n m2.
Proof.
  unfold track_frame. rewrite bind_Done. split.
  - intros (m1 & H1 & (m2 & H2 & [= <-])%bind_Done). eauto.
  - intros (m1 & m2 & H1 & H2 & ->). exists m1. split; [exact H1|].
    apply bind_Done. eauto.
Qed.

Lemma cell_of_ext (m m' : MBT) (i : nat) :
  par m' = par m → pos m' !! i = pos m !! i → cell_of m' i = cell_of m i.
Proof.
  intros Hpar Hpos. unfold cell_of, coarse_grid_pos1. rewrite Hpar, Hpos. reflexivity.
Qed.

Lemma lookup_mask_assign {A} (mask : list bool) (v : A) (a : list A) (i : nat) (b : bool) :
  mask !! i = Some b →
  Np.mask_assign mask v a !! i = if b then (λ _, v) <$> a !! i else a !! i.
Proof.
  intros Hb. unfold Np.mask_assign. rewrite lookup_zip_with, Hb. simpl.
  destruct (a !! i), b; reflexivity.
Qed.

(** A valid ball keeps the position it had when the checks ran. *)
Lemma record_frame_valid_pos (n : nat) (m : MBT) (i : nat) :
  new_valid_balls_mask m = negb <$> bad_balls_mask m →
  new_valid_balls_mask m !! i = Some true →
  pos (record_frame n m) !! i = pos m !! i.
Proof.
  intros Hneg Hv. rewrite Hneg, list_lookup_fmap in Hv.
  destruct (bad_balls_mask m !! i) as [b|] eqn:Hb; [|discriminate].
  simpl in Hv. injection Hv as Hv. apply negb_true_iff in Hv. subst b.
  simpl. rewrite (lookup_mask_assign _ _ _ _ _ Hb). reflexivity.
Qed.

End Frames.

(** ** The checks and the exits *)

Lemma nonzero_from_lookups {A} (f : A → bool) (pre a : list A) :
  Forall2 (λ i x, (pre ++ a) !! i = Some x)
          (Np.nonzero_from (length pre) (f <$> a)) (filter (λ x, f x = true) a).
Proof.
  revert pre. induction a as [|x a IH]; intros pre; [constructor|].
  specialize (IH (pre ++ [x])). rewrite <- app_assoc, length_app in IH. simpl in IH.
  replace (length pre + 1)%nat with (S (length pre)) in IH by lia.
  rewrite fmap_cons. simpl. rewrite filter_cons. destruct (f x) eqn:Hfx.
  - rewrite decide_True by reflexivity. constructor; [|exact IH].
    rewrite lookup_app_r by lia. rewrite Nat.sub_diag. reflexivity.
  - rewrite decide_False by congruence. exact IH.
Qed.

Lemma getitems_nonzero {A} (f : A → bool) (a : list A) :
  Np.getitems a (Np.nonzero (f <$> a)) = Some (filter (λ x, f x = true) a).
Proof. apply getitems_Some. apply (nonzero_from_lookups f [] a). Qed.


Section Exits.
Context `{Collaborators}.

Lemma in_edge_balls_getitems (mbt : MBT) :
  Np.getitems (pos mbt)
    (Np.nonzero (negb <$> ((λ p, get_off_edges_mask (rs (par mbt)) (nx (par mbt))
                                   (ny (par mbt)) (px p) (py p)) <$> pos mbt)))
  = Some (in_edge_balls mbt).
Proof.
  rewrite <- list_fmap_compose. rewrite getitems_nonzero. f_equal.
  unfold in_edge_balls. apply list_filter_iff. intros p. simpl.
  rewrite negb_true_iff. reflexivity.
Qed.






End Exits.

(** ** The first part of the loop body *)

Section Advance.
Context `{Collaborators}.

Lemma same_but_motion_refl (m : MBT) : same_but_motion m m.
Proof. unfold same_but_motion. repeat split; reflexivity. Qed.

Lemma integrate_steps_frame (steps : list nat) (next : ndarray2) (m : MBT) :
  same_but_motion m (integrate_steps steps next m).
Proof.
  revert m. induction steps as [|i steps IH]; intros m; [apply same_but_motion_refl|].
  simpl. specialize (IH (with_motion (integrate_motion m (surface_i m next i)) m)).
  unfold same_but_motion in *. simpl in IH. exact IH.
Qed.


Lemma populate_emergence_frame (m m' : MBT) :
  populate_emergence m = Done m' →
  par m' = par m ∧ image m' = image m ∧ surface m' = surface m ∧
  balls_age m' = balls_age m ∧
  ballpos m' = ballpos m ∧ balls_age_t m' = balls_age_t m ∧
  valid_balls_mask_t m' = valid_balls_mask_t m ∧ stdout m' = stdout m.
Proof.
  unfold populate_emergence. intros (d & _ & Hp)%bind_Done. cbv zeta in Hp.
  destruct (decide _) in Hp.
  - apply bind_Done in Hp as (p' & _ & [= <-]). simpl. repeat split; reflexivity.
  - injection Hp as <-. repeat split; reflexivity.
Qed.

Lemma loaded_frame_frame (n : nat) (mbt m0 : MBT) :
  loaded_frame n mbt = Done m0 →
  par m0 = par mbt ∧
  image m0 = datafiles (par mbt) n ∧
  surface m0 = prep_function (par mbt) (datafiles (par mbt) n) ∧
  balls_age m0 = balls_age mbt ∧
  ballpos m0 = ballpos mbt ∧ balls_age_t m0 = balls_age_t mbt ∧
  valid_balls_mask_t m0 = valid_balls_mask_t mbt ∧
  stdout m0 = (if verbose (par mbt) then stdout mbt ++ [MsgFrame n] else stdout mbt).
Proof.
  unfold loaded_frame. cbv zeta.
  set (m1 := if verbose (par mbt) then print (MsgFrame n) mbt else mbt).
  assert (Hm1 : par m1 = par mbt ∧ balls_age m1 = balls_age mbt ∧
                ballpos m1 = ballpos mbt ∧ balls_age_t m1 = balls_age_t mbt ∧
                valid_balls_mask_t m1 = valid_balls_mask_t mbt ∧
                stdout m1 = (if verbose (par mbt) then stdout mbt ++ [MsgFrame n] else stdout mbt)).
  { unfold m1. destruct (verbose (par mbt)); simpl; repeat split; reflexivity. }
  destruct Hm1 as (Hpar & Hage & Hbp & Hbat & Hvmt & Hout).
  set (mf := with_frame _ _ m1).
  destruct (track_emergence (par mf) && (0 <? Z.of_nat n)).
  - intros Hp. apply populate_emergence_frame in Hp as (-> & -> & -> & -> & -> & -> & -> & ->).
    unfold mf. simpl. rewrite Hpar. repeat split; assumption.
  - intros [= <-]. unfold mf. simpl. rewrite Hpar. repeat split; assumption.
Qed.

Lemma advance_frame_Done (n : nat) (mbt m1 : MBT) :
  advance_frame n mbt = Done m1 ↔
  ∃ m0, loaded_frame n mbt = Done m0 ∧
        m1 = integrate_steps (seq 0 (intsteps (par m0)))
               (if Z.of_nat n <? Z.of_nat (nt (par m0)) - 1
                then prep_function (par m0) (datafiles (par m0) (n + 1)%nat)
                else surface m0) m0.
Proof.
  unfold advance_frame, loaded_frame. cbv zeta.
  set (mf := with_frame _ _ _).
  assert (Hnext : ∀ m0, (if track_emergence (par mf) && (0 <? Z.of_nat n)
                          then populate_emergence mf else Done mf) = Done m0 →
            next_surface_of n mf =
            (if Z.of_nat n <? Z.of_nat (nt (par m0)) - 1
             then prep_function (par m0) (datafiles (par m0) (n + 1)%nat)
             else surface m0)).
  { intros m0 Hm0. unfold next_surface_of.
    destruct (track_emergence (par mf) && (0 <? Z.of_nat n)).
    - apply populate_emergence_frame in Hm0 as (-> & _ & -> & _). reflexivity.
    - injection Hm0 as <-. reflexivity. }
  rewrite bind_Done. split.
  - intros (m0 & Hm0 & [= <-]). exists m0. split; [exact Hm0|].
    rewrite (Hnext m0 Hm0). reflexivity.
  - intros (m0 & Hm0 & ->). exists m0. split; [exact Hm0|].
    rewrite (Hnext m0 Hm0). reflexivity.
Qed.

Lemma advance_frame_frame (n : nat) (mbt m1 : MBT) :
  advance_frame n mbt = Done m1 →
  par m1 = par mbt ∧
  image m1 = datafiles (par mbt) n ∧
  surface m1 = prep_function (par mbt) (datafiles (par mbt) n) ∧
  balls_age m1 = balls_age mbt ∧
  ballpos m1 = ballpos mbt ∧ balls_age_t m1 = balls_age_t mbt ∧
  valid_balls_mask_t m1 = valid_balls_mask_t mbt ∧
  stdout m1 = (if verbose (par mbt) then stdout mbt ++ [MsgFrame n] else stdout mbt).
Proof.
  intros (m0 & Hm0 & ->)%advance_frame_Done.
  apply loaded_frame_frame in Hm0 as (H1 & H2 & H3 & H4 & H5 & H6 & H7 & H8).
  destruct (integrate_steps_frame (seq 0 (intsteps (par m0)))
              (if Z.of_nat n <? Z.of_nat (nt (par m0)) - 1
               then prep_function (par m0) (datafiles (par m0) (n + 1)%nat)
               else surface m0) m0)
    as (-> & -> & -> & -> & _ & _ & _ & -> & -> & -> & ->).
  repeat split; assumption.
Qed.

End Advance.

(** ** Comparisons, flags and slices *)

Lemma ltb_lt (a b : Q) : Np.ltb a b = true ↔ (a < b)%Q.
Proof.
  unfold Np.ltb. rewrite negb_true_iff. split.
  - intros Hle. apply Qnot_le_lt. intros Hba. apply Qle_bool_iff in Hba. congruence.
  - intros Hlt. destruct (Qle_bool b a) eqn:E; [|reflexivity].
    apply Qle_bool_iff in E. apply Qlt_not_le in Hlt. contradiction.
Qed.

Lemma ltb_ge (a b : Q) : Np.ltb a b = false ↔ (b <= a)%Q.
Proof.
  unfold Np.ltb. rewrite negb_false_iff. apply Qle_bool_iff.
Qed.

(** A flagged position is off the edges. *)
Lemma off_edges_flag (rs : Q) (nx ny : Z) (x y : Q) :
  (0 <= rs)%Q → (x == -1)%Q → get_off_edges_mask rs nx ny x y = true.
Proof.
  intros Hrs Hx. unfold get_off_edges_mask.
  assert (Np.ltb (x - rs) 0 = true) as ->; [|reflexivity].
  apply ltb_lt. lra.
Qed.

Lemma off_edges_sentinel (rs : Q) (nx ny : Z) :
  (0 <= rs)%Q → get_off_edges_mask rs nx ny (px sentinel) (py sentinel) = true.
Proof. intros Hrs. apply off_edges_flag; [exact Hrs | reflexivity]. Qed.


(** Slices *)
Lemma slice_assign_Some {A} (start : nat) (vals a a' : list A) :
  Np.slice_assign start vals a = Some a' →
  (start + length vals ≤ length a)%nat ∧
  length a' = length a ∧
  (∀ i, (i < start)%nat → a' !! i = a !! i) ∧
  (∀ j, (j < length vals)%nat → a' !! (start + j)%nat = vals !! j) ∧
  (∀ i, (start + length vals ≤ i)%nat → a' !! i = a !! i).
Proof.
  unfold Np.slice_assign. destruct (decide _) as [Hle|]; [|discriminate].
  intros [= <-]. split; [exact Hle|]. split; [|split; [|split]].
  - rewrite !length_app, length_take, length_drop. lia.
  - intros i Hi. rewrite lookup_app_l by (rewrite length_take; lia).
    apply lookup_take_lt. exact Hi.
  - intros j Hj. rewrite lookup_app_r by (rewrite length_take; lia).
    rewrite length_take. replace (start + j - start `min` length a)%nat with j by lia.
    apply lookup_app_l. exact Hj.
  - intros i Hi. rewrite lookup_app_r by (rewrite length_take; lia).
    rewrite length_take. rewrite lookup_app_r by lia.
    rewrite lookup_drop. f_equal. lia.
Qed.

Lemma slice_fill_lookup {A} (start len : nat) (v : A) (a : list A) :
  (start + len ≤ length a)%nat →
  length (slice_fill start len v a) = length a ∧
  (∀ i, (i < start)%nat → slice_fill start len v a !! i = a !! i) ∧
  (∀ i, (start ≤ i < start + len)%nat → slice_fill start len v a !! i = Some v) ∧
  (∀ i, (start + len ≤ i)%nat → slice_fill start len v a !! i = a !! i).
Proof.
  intros Hle. unfold slice_fill.
  replace (len `min` (length a - start))%nat with len by lia.
  split; [|split; [|split]].
  - rewrite !length_app, length_take, length_replicate, length_drop. lia.
  - intros i Hi. rewrite lookup_app_l by (rewrite length_take; lia).
    apply lookup_take_lt. exact Hi.
  - intros i Hi. rewrite lookup_app_r by (rewrite length_take; lia).
    rewrite length_take. rewrite lookup_app_l by (rewrite length_replicate; lia).
    apply lookup_replicate_2. lia.
  - intros i Hi. rewrite lookup_app_r by (rewrite length_take; lia).
    rewrite length_take. rewrite lookup_app_r by (rewrite length_replicate; lia).
    rewrite length_replicate, lookup_drop. f_equal. lia.
Qed.

(** ** Invariants of the frame loop *)

Section Invariants.
Context `{Collaborators}.

Lemma populate_emergence_Done (m m' : MBT) :
  populate_emergence m = Done m' →
  ∃ dmin,
    mapM (distance_min2 (Np.compress (new_valid_balls_mask m) (pos m))) (candidates m)
      = Some dmin ∧
    ((Np.count_true (far_mask m dmin) = 0%nat ∧ m' = m) ∨
     ((0 < Np.count_true (far_mask m dmin))%nat ∧
      ∃ pos',
        Np.slice_assign (nballs m) (new_balls m (candidates m) (far_mask m dmin)) (pos m)
          = Some pos' ∧
        let size := length (new_balls m (candidates m) (far_mask m dmin)) in
        let bad' := slice_fill (nballs m) size false (bad_balls_mask m) in
        m' = with_population pos' (slice_fill (nballs m) size vel_zero (vel m)) bad'
               (negb <$> bad') (nballs m + size)%nat m)).
Proof.
  unfold populate_emergence. fold (candidates m). cbv zeta.
  intros (dmin & Hd%or_raise_Done & Hp)%bind_Done.
  exists dmin. split; [exact Hd|].
  destruct (decide (0 < Np.count_true (far_mask m dmin))%nat) as [Hpos|Hzero].
  - right. split; [exact Hpos|].
    apply bind_Done in Hp as (pos' & Hpos'%or_raise_Done & [= <-]).
    exists pos'. split; [exact Hpos' | reflexivity].
  - left. injection Hp as <-. split; [lia | reflexivity].
Qed.

(** What the emergence does to the slots. *)
Lemma populate_emergence_slots (m m' : MBT) :
  shaped m →
  new_valid_balls_mask m = negb <$> bad_balls_mask m →
  populate_emergence m = Done m' →
  shaped m' ∧
  new_valid_balls_mask m' = negb <$> bad_balls_mask m' ∧
  (nballs m ≤ nballs m')%nat ∧
  (∀ i, (i < nballs m ∨ nballs m' ≤ i)%nat →
        pos m' !! i = pos m !! i ∧
        new_valid_balls_mask m' !! i = new_valid_balls_mask m !! i) ∧
  (∀ i, (nballs m ≤ i < nballs m')%nat →
        new_valid_balls_mask m' !! i = Some true ∧ vel m' !! i = Some vel_zero).
Proof.
  intros Hsh Hmasks Hp.
  pose proof (populate_emergence_frame _ _ Hp) as (Hpar & _ & _ & Hage & Hbp & Hbat & Hvmt & _).
  apply populate_emergence_Done in Hp as (dmin & _ & [[_ ->] | (_ & pos' & Hslice & Hm')]).
  { split; [exact Hsh|]. split; [exact Hmasks|]. split; [lia|].
    split; [intros; split; reflexivity | intros; lia]. }
  cbv zeta in Hm'. set (newpos := new_balls _ _ _) in *.
  destruct Hsh as [Hlp Hlv Hla Hlb Hlm Hnb Hh1 Hh2 Hh3].
  apply slice_assign_Some in Hslice as (Hle & Hlen' & Hlo & Hmid & Hhi).
  destruct (slice_fill_lookup (nballs m) (length newpos) vel_zero (vel m))
    as (Hvl & _ & Hvmid & _); [lia|].
  destruct (slice_fill_lookup (nballs m) (length newpos) false (bad_balls_mask m))
    as (Hbl & Hblo & Hbmid & Hbhi); [lia|].
  subst m'. simpl. split; [|split; [reflexivity|split; [lia|split]]].
  - constructor; simpl; try lia. rewrite length_fmap. lia.
  - intros i Hi. rewrite Hmasks, !list_lookup_fmap. destruct Hi as [Hi|Hi].
    + rewrite Hlo, Hblo by lia. split; reflexivity.
    + rewrite Hhi, Hbhi by lia. split; reflexivity.
  - intros i Hi. rewrite list_lookup_fmap, Hbmid, Hvmid by lia. split; reflexivity.
Qed.

Lemma integrate_steps_shape (steps : list nat) (next : ndarray2) (m : MBT) :
  integrator_keeps_shape →
  length (pos (integrate_steps steps next m)) = length (pos m) ∧
  length (vel (integrate_steps steps next m)) = length (vel m).
Proof.
  intros Hshape. revert m. induction steps as [|i steps IH]; intros m; [split; reflexivity|].
  simpl. destruct (IH (with_motion (integrate_motion m (surface_i m next i)) m)) as [-> ->].
  simpl. apply Hshape.
Qed.

Lemma integrate_steps_invalid (steps : list nat) (next : ndarray2) (m : MBT) (i : nat) :
  integrator_skips_invalid →
  new_valid_balls_mask m !! i = Some false →
  pos (integrate_steps steps next m) !! i = pos m !! i.
Proof.
  intros Hskip. revert m. induction steps as [|j steps IH]; intros m Hi; [reflexivity|].
  simpl. rewrite IH; [|exact Hi]. simpl. apply Hskip. exact Hi.
Qed.

(** The tracker after the first part of the loop body. *)
Lemma advance_frame_slots (n : nat) (m m1 : MBT) :
  integrator_keeps_shape →
  shaped m → (0 < n → new_valid_balls_mask m = negb <$> bad_balls_mask m)%nat →
  advance_frame n m = Done m1 →
  shaped m1 ∧ par m1 = par m ∧ balls_age m1 = balls_age m ∧
  (nballs m ≤ nballs m1)%nat ∧
  (∀ i, (i < nballs m ∨ nballs m1 ≤ i)%nat →
        new_valid_balls_mask m1 !! i = new_valid_balls_mask m !! i) ∧
  (integrator_skips_invalid →
   ∀ i, (i < nballs m ∨ nballs m1 ≤ i)%nat →
        new_valid_balls_mask m !! i = Some false → pos m1 !! i = pos m !! i).
Proof.
  intros Hshape Hsh Hmasks (m0 & Hm0 & ->)%advance_frame_Done.
  set (next := if _ <? _ then _ else _).
  destruct (integrate_steps_frame (seq 0 (intsteps (par m0))) next m0)
    as (Hpar & _ & _ & Hage & Hbad & Hvalid & Hnb & Hbp & Hbat & Hvmt & _).
  destruct (integrate_steps_shape (seq 0 (intsteps (par m0))) next m0 Hshape) as [Hlp Hlv].
  (* the loaded frame *)
  assert (Hloaded : shaped m0 ∧ par m0 = par m ∧ balls_age m0 = balls_age m ∧
            (nballs m ≤ nballs m0)%nat ∧
            (∀ i, (i < nballs m ∨ nballs m0 ≤ i)%nat →
                  pos m0 !! i = pos m !! i ∧
                  new_valid_balls_mask m0 !! i = new_valid_balls_mask m !! i)).
  { unfold loaded_frame in Hm0. cbv zeta in Hm0.
    set (mp := if verbose (par m) then print (MsgFrame n) m else m) in Hm0.
    set (mf := with_frame _ _ mp) in Hm0.
    assert (Hmf : shaped mf ∧ par mf = par m ∧ balls_age mf = balls_age m ∧
              nballs mf = nballs m ∧ pos mf = pos m ∧
              new_valid_balls_mask mf = new_valid_balls_mask m ∧
              bad_balls_mask mf = bad_balls_mask m).
    { unfold mf, mp. destruct Hsh. destruct (verbose (par m)); simpl;
        (split; [constructor; simpl; assumption | repeat split; reflexivity]). }
    destruct Hmf as (Hshf & Hparf & Hagef & Hnbf & Hposf & Hvf & Hbf).
    destruct (track_emergence (par mf) && (0 <? Z.of_nat n)) eqn:Hem.
    - apply andb_true_iff in Hem as [_ Hn]. apply Z.ltb_lt in Hn.
      assert (new_valid_balls_mask mf = negb <$> bad_balls_mask mf) as Hmf'
        by (rewrite Hvf, Hbf; apply Hmasks; lia).
      pose proof (populate_emergence_frame _ _ Hm0) as (Hpar0 & _ & _ & Hage0 & _).
      destruct (populate_emergence_slots _ _ Hshf Hmf' Hm0) as (Hsh0 & _ & Hnb0 & Hkeep & _).
      split; [exact Hsh0|]. split; [congruence|]. split; [congruence|].
      split; [lia|]. intros i Hi. rewrite <- Hposf, <- Hvf. apply Hkeep. lia.
    - injection Hm0 as <-. split; [exact Hshf|]. split; [exact Hparf|].
      split; [exact Hagef|]. split; [lia|]. intros i _. rewrite Hposf, Hvf. split; reflexivity. }
  destruct Hloaded as (Hsh0 & Hpar0 & Hage0 & Hnb0 & Hkeep).
  split.
  { destruct Hsh0. constructor; rewrite ?Hpar, ?Hlp, ?Hlv, ?Hage, ?Hbad, ?Hvalid, ?Hnb,
      ?Hbp, ?Hbat, ?Hvmt; assumption. }
  split; [congruence|]. split; [congruence|]. split; [lia|]. split.
  - intros i Hi. rewrite Hvalid. apply Hkeep. lia.
  - intros Hskip i Hi Hinv.
    rewrite integrate_steps_invalid; [apply Hkeep; lia | exact Hskip |].
    rewrite (proj2 (Hkeep i ltac:(lia))). exact Hinv.
Qed.

End Invariants.

Section FrameEnd.
Context `{Collaborators}.

(** The tracker at the end of frame [n], from the tracker [m1] the checks
    ran on. *)
Lemma track_frame_end (n : nat) (m m' : MBT) :
  track_frame n m = Done m' →
  ∃ m1,
    advance_frame n m = Done m1 ∧
    par m' = par m ∧ nballs m' = nballs m1 ∧
    new_valid_balls_mask m' = negb <$> bad_balls_mask m' ∧
    length (bad_balls_mask m') = length (pos m1) ∧
    length (new_valid_balls_mask m') = length (pos m1) ∧
    pos m' = Np.mask_assign (bad_balls_mask m') sentinel (pos m1) ∧
    vel m' = Np.mask_assign (bad_balls_mask m') vel_nan (vel m1) ∧
    balls_age m' = increment_age (new_valid_balls_mask m') (balls_age m) ∧
    ballpos m' = <[n := pos m']> (ballpos m) ∧
    balls_age_t m' = <[n := balls_age m']> (balls_age_t m) ∧
    valid_balls_mask_t m' = <[n := new_valid_balls_mask m']> (valid_balls_mask_t m) ∧
    (∀ i, new_valid_balls_mask m' !! i = Some true →
          passed_checks m1 true true true i = true) ∧
    (∀ i, (i < length (pos m1))%nat → passed_checks m1 true true true i = false →
          new_valid_balls_mask m' !! i = Some false).
Proof.
  intros (m1 & m2 & Hadv & Hsb & ->)%track_frame_Done.
  pose proof (advance_frame_frame _ _ _ Hadv) as (Hpar1 & _ & _ & Hage1 & Hbp1 & Hbat1 & Hvmt1 & _).
  pose proof (set_bad_balls_frame _ _ _ _ _ Hsb) as
    (Hpar & Hpos & Hvel & Hage & Hnb & _ & _ & Hbp & Hbat & Hvmt & _ & Hlb & Hlv & Hneg).
  exists m1. split; [exact Hadv|]. simpl.
  rewrite Hpar, Hpos, Hvel, Hage, Hnb, Hbp, Hbat, Hvmt, Hpar1, Hage1, Hbp1, Hbat1, Hvmt1.
  repeat (split; [first [reflexivity | assumption]|]).
  split.
  - intros i Hi. eapply set_bad_balls_valid; eauto.
  - intros i Hi Hp. eapply set_bad_balls_invalid; eauto.
Qed.

Lemma length_mask_assign {A} (mask : list bool) (v : A) (a : list A) :
  length mask = length a → length (Np.mask_assign mask v a) = length a.
Proof. intros Hl. unfold Np.mask_assign. rewrite length_zip_with. lia. Qed.

Lemma length_increment_age (valid : list bool) (age : list Z) :
  length valid = length age → length (increment_age valid age) = length age.
Proof. intros Hl. unfold increment_age. rewrite length_zip_with. lia. Qed.

Lemma lookup_increment_age (valid : list bool) (age : list Z) (i : nat) (b : bool) (a : Z) :
  valid !! i = Some b → age !! i = Some a →
  increment_age valid age !! i = Some (if b then Np.uint32 (a + 1) else a).
Proof.
  intros Hb Ha. unfold increment_age. rewrite lookup_zip_with, Hb, Ha. reflexivity.
Qed.

Lemma passed_checks_flag (m : MBT) (i : nat) (p : vec3) :
  (0 <= rs (par m))%Q → pos m !! i = Some p → (px p == -1)%Q →
  passed_checks m true true true i = false.
Proof.
  intros Hrs Hp Hx. unfold passed_checks. rewrite Hp.
  rewrite (off_edges_flag _ _ _ _ _ Hrs Hx). reflexivity.
Qed.

(** The invariants through one frame. *)
Lemma track_frame_invariant (n : nat) (m m' : MBT) :
  integrator_keeps_shape →
  shaped m → (0 < n → settled m)%nat →
  track_frame n m = Done m' →
  shaped m' ∧ settled m' ∧ par m' = par m ∧ (nballs m ≤ nballs m')%nat ∧
  (integrator_skips_invalid → (0 <= rs (par m))%Q → unused_slots m → unused_slots m') ∧
  (integrator_skips_invalid → (0 <= rs (par m))%Q → (0 < n)%nat →
   ∀ i, (i < nballs m)%nat → new_valid_balls_mask m !! i = Some false →
        new_valid_balls_mask m' !! i = Some false).
Proof.
  intros Hshape Hsh Hset Hframe.
  destruct (track_frame_end _ _ _ Hframe) as
    (m1 & Hadv & Hpar & Hnb & Hneg & Hlb & Hlv & Hpos & Hvel & Hage & Hbp & Hbat & Hvmt
     & Hval & Hinv).
  destruct (advance_frame_slots n m m1 Hshape Hsh) as
    (Hsh1 & Hpar1 & Hage1 & Hnb1 & Hkeepv & Hkeepp); [|exact Hadv|].
  { intros Hn. apply Hset. exact Hn. }
  destruct Hsh1 as [Hlp1 Hlv1 Hla1 Hlb1 Hlm1 Hnbm1 Hh1 Hh2 Hh3].
  assert (Hsh' : shaped m').
  { destruct Hsh as [Hlp0 Hlv0 Hla0 Hlb0 Hlm0 Hnbm0 Hg1 Hg2 Hg3].
    constructor; rewrite ?Hpar, ?Hnb, ?Hlb, ?Hlv, ?Hpos, ?Hvel, ?Hage, ?Hbp, ?Hbat, ?Hvmt,
      ?length_insert; rewrite <- ?Hpar1; try assumption.
    - rewrite length_mask_assign; [assumption | congruence].
    - rewrite length_mask_assign; [assumption | congruence].
    - rewrite length_increment_age; [rewrite Hpar1; assumption | congruence].
    - rewrite Hpar1; assumption.
    - rewrite Hpar1; assumption.
    - rewrite Hpar1; assumption. }
  assert (Hflag : ∀ i, new_valid_balls_mask m' !! i = Some false →
            pos m' !! i = Some sentinel ∧ vel m' !! i = Some vel_nan).
  { intros i Hi. rewrite Hneg, list_lookup_fmap in Hi.
    destruct (bad_balls_mask m' !! i) as [b|] eqn:Hb; [|discriminate].
    simpl in Hi. injection Hi as Hi. apply negb_false_iff in Hi. subst b.
    assert (i < length (pos m1))%nat as Hlt by (rewrite <- Hlb; eapply lookup_lt_Some; exact Hb).
    rewrite Hpos, Hvel, !(lookup_mask_assign _ _ _ _ _ Hb).
    destruct (lookup_lt_is_Some_2 (pos m1) i Hlt) as [p ->].
    destruct (lookup_lt_is_Some_2 (vel m1) i) as [v ->]; [lia|]. split; reflexivity. }
  split; [exact Hsh'|]. split; [constructor; assumption|]. split; [exact Hpar|].
  split; [lia|]. split.
  - intros Hskip Hrs Hun i Hi. rewrite Hpar, Hnb in Hi.
    destruct (Hun i ltac:(lia)) as (Hp & Ha & Hv).
    assert (pos m1 !! i = Some sentinel) as Hp1.
    { rewrite (Hkeepp Hskip i); [exact Hp | lia | exact Hv]. }
    assert (new_valid_balls_mask m' !! i = Some false) as Hv'.
    { apply Hinv; [eapply lookup_lt_Some; exact Hp1|].
      eapply passed_checks_flag; [rewrite Hpar1; exact Hrs | exact Hp1 | reflexivity]. }
    split; [apply Hflag; exact Hv'|]. split; [|exact Hv'].
    rewrite Hage. rewrite (lookup_increment_age _ _ _ _ _ Hv' Ha). reflexivity.
  - intros Hskip Hrs Hn i Hi Hv.
    destruct (st_flags _ (Hset Hn) i Hv) as [Hp _].
    assert (pos m1 !! i = Some sentinel) as Hp1.
    { rewrite (Hkeepp Hskip i); [exact Hp | lia | exact Hv]. }
    apply Hinv; [eapply lookup_lt_Some; exact Hp1|].
    eapply passed_checks_flag; [rewrite Hpar1; exact Hrs | exact Hp1 | reflexivity].
Qed.

End FrameEnd.

(** ** The run *)

Section Run.
Context `{Collaborators}.

Lemma init_Done (a : Args) (m0 : MBT) :
  MBT_init a = Done m0 →
  shaped m0 ∧ unused_slots m0 ∧
  balls_age m0 = replicate (nballs_max (par m0)) 1 ∧
  nt (par m0) = a_nt a ∧ rs (par m0) = a_rs a ∧
  track_emergence (par m0) = a_track_emergence a ∧ verbose (par m0) = a_verbose a ∧
  new_valid_balls_mask m0
    = replicate (nballs m0) true ++ replicate (nballs_max (par m0) - nballs m0) false ∧
  stdout m0 = [].
Proof.
  unfold MBT_init. cbv zeta. intros (p & Hp%or_raise_Done & [= <-])%bind_Done.
  apply slice_assign_Some in Hp as (Hle & Hlen & _ & _ & Hhi).
  rewrite length_fmap, length_replicate in Hle. rewrite length_replicate in Hlen.
  rewrite length_fmap in Hhi. simpl in Hle.
  simpl. split.
  { constructor; simpl; rewrite ?length_replicate, ?length_app, ?length_replicate; lia. }
  split; [|repeat split; reflexivity].
  intros i Hi. simpl in Hi |- *. split; [|split].
  - rewrite Hhi by lia. apply lookup_replicate_2. lia.
  - apply lookup_replicate_2. lia.
  - rewrite lookup_app_r by (rewrite length_replicate; lia).
    rewrite length_replicate. apply lookup_replicate_2. lia.
Qed.

Lemma track_frames_app (l1 l2 : list nat) (m : MBT) :
  track_frames (l1 ++ l2) m = track_frames l1 m ≫= track_frames l2.
Proof.
  revert m. induction l1 as [|n l1 IH]; intros m; [reflexivity|].
  simpl. destruct (track_frame n m) as [m'| |]; simpl; [apply IH | reflexivity | reflexivity].
Qed.

Lemma run_frames_S (k : nat) (m0 m' : MBT) :
  run_frames (S k) m0 = Done m' ↔
  ∃ m, run_frames k m0 = Done m ∧ track_frame k m = Done m'.
Proof.
  unfold run_frames. rewrite seq_S, track_frames_app, bind_Done. simpl.
  split; intros (m & Hm & Hf); exists m; (split; [exact Hm|]).
  - destruct (track_frame k m); simpl in Hf; congruence.
  - rewrite Hf. reflexivity.
Qed.

Lemma run_frames_le (j k : nat) (m0 m' : MBT) :
  (j ≤ k)%nat → run_frames k m0 = Done m' → ∃ m, run_frames j m0 = Done m.
Proof.
  intros Hle. revert m'. induction k as [|k IH]; intros m' Hk.
  - replace j with 0%nat by lia. eauto.
  - destruct (decide (j = S k)) as [->|Hne]; [eauto|].
    apply run_frames_S in Hk as (m & Hm & _). apply (IH ltac:(lia) m Hm).
Qed.

(** The parameters, the shape of the history and a bound on the ages:
    these hold whatever the collaborators do. *)
Lemma run_frames_history (k : nat) (m0 m : MBT) :
  run_frames k m0 = Done m →
  par m = par m0 ∧
  length (ballpos m) = length (ballpos m0) ∧
  length (balls_age_t m) = length (balls_age_t m0) ∧
  length (valid_balls_mask_t m) = length (valid_balls_mask_t m0) ∧
  (Z.of_nat k + 1 < 2 ^ 32 →
   Forall (λ a, a = 1) (balls_age m0) →
   Forall (λ a, 1 ≤ a ≤ Z.of_nat k + 1) (balls_age m)).
Proof.
  revert m. induction k as [|k IH]; intros m Hk.
  - injection Hk as <-. repeat split; try reflexivity.
    intros _ Hone. eapply Forall_impl; [exact Hone|]. simpl. intros; lia.
  - apply run_frames_S in Hk as (mk & Hmk & Hframe).
    destruct (IH mk Hmk) as (Hpar & Hl1 & Hl2 & Hl3 & Hages).
    destruct (track_frame_end _ _ _ Hframe) as
      (m1 & _ & Hpar' & _ & _ & _ & _ & _ & _ & Hage & Hbp & Hbat & Hvmt & _).
    rewrite Hpar', Hbp, Hbat, Hvmt, !length_insert.
    repeat (split; [assumption|]).
    intros Hk Hone. specialize (Hages ltac:(lia) Hone).
    rewrite Hage. unfold increment_age. apply Forall_lookup. intros i x Hx.
    apply lookup_zip_with_Some in Hx as (b & a & -> & _ & Ha).
    rewrite Forall_lookup in Hages. specialize (Hages i a Ha). simpl in Hages.
    destruct b; [|lia]. unfold Np.uint32. rewrite Z.mod_small; lia.
Qed.

(** The invariants that rest on the integrator. *)
Lemma run_frames_invariant (k : nat) (m0 m : MBT) :
  integrator_keeps_shape →
  shaped m0 →
  run_frames k m0 = Done m →
  shaped m ∧ ((0 < k)%nat → settled m) ∧ par m = par m0 ∧ (nballs m0 ≤ nballs m)%nat ∧
  (integrator_skips_invalid → (0 <= rs (par m0))%Q → unused_slots m0 → unused_slots m).
Proof.
  intros Hshape Hsh0. revert m. induction k as [|k IH]; intros m Hk.
  - injection Hk as <-. split; [exact Hsh0|]. split; [lia|]. split; [reflexivity|].
    split; [lia | auto].
  - apply run_frames_S in Hk as (mk & Hmk & Hframe).
    destruct (IH mk Hmk) as (Hshk & Hsetk & Hpark & Hnbk & Hunk).
    destruct (track_frame_invariant k mk m Hshape Hshk Hsetk Hframe)
      as (Hsh & Hset & Hpar & Hnb & Hun & _).
    split; [exact Hsh|]. split; [intros _; exact Hset|]. split; [congruence|].
    split; [lia|]. intros Hskip Hrs Hun0. apply Hun; [exact Hskip | congruence | auto].
Qed.

End Run.

Section History.
Context `{Collaborators}.

(** A frame writes only its own entry of the history. *)
Lemma run_frames_persist (j k n : nat) (m0 mj mk : MBT) :
  (n < j ≤ k)%nat →
  run_frames j m0 = Done mj → run_frames k m0 = Done mk →
  ballpos mk !! n = ballpos mj !! n ∧
  balls_age_t mk !! n = balls_age_t mj !! n ∧
  valid_balls_mask_t mk !! n = valid_balls_mask_t mj !! n.
Proof.
  intros Hjk Hj. revert mk. induction k as [|k IH]; intros mk Hk; [lia|].
  destruct (decide (j = S k)) as [->|Hne].
  { rewrite Hj in Hk. injection Hk as <-. repeat split; reflexivity. }
  apply run_frames_S in Hk as (m & Hm & Hframe).
  destruct (IH ltac:(lia) m Hm) as (<- & <- & <-).
  destruct (track_frame_end _ _ _ Hframe) as
    (m1 & _ & _ & _ & _ & _ & _ & _ & _ & _ & -> & -> & -> & _).
  rewrite !list_lookup_insert_ne by lia. repeat split; reflexivity.
Qed.


End History.

(** ** The emergence *)



Lemma count_true_zero_compress {A} (mask : list bool) (l : list A) :
  Np.count_true mask = 0%nat → Np.compress mask l = [].
Proof.
  unfold Np.count_true. revert l. induction mask as [|b mask IH]; intros [|x l] Hc;
    simpl; try reflexivity.
  rewrite filter_cons in Hc. destruct b.
  - rewrite decide_True in Hc by reflexivity. simpl in Hc. lia.
  - rewrite decide_False in Hc by congruence. apply IH. exact Hc.
Qed.

Lemma sqrt_gt_min (x y s : Q) :
  sqrt_gt (Qmin x y) s = sqrt_gt x s && sqrt_gt y s.
Proof.
  unfold sqrt_gt. destruct (Np.ltb s 0); [reflexivity|]. simpl.
  apply Bool.eq_iff_eq_true. rewrite andb_true_iff, !ltb_lt. apply Q.min_glb_lt_iff.
Qed.

Lemma distance_min2_far (balls : list vec3) (s : Q) (c : Z * Z) (d : Q) :
  distance_min2 balls c = Some d → sqrt_gt d s = far_from balls s c.
Proof.
  unfold distance_min2, far_from. destruct balls as [|b balls]; [discriminate|].
  intros [= <-]. simpl.
  induction balls as [|b' balls IH]; simpl; [rewrite andb_true_r; reflexivity|].
  rewrite sqrt_gt_min, IH.
  destruct (sqrt_gt (dist2 c.1 c.2 b) s), (sqrt_gt (dist2 c.1 c.2 b') s); reflexivity.
Qed.



Section Emergence.
Context `{Collaborators}.


Lemma far_mask_candidates (mbt : MBT) (balls : list vec3) (flux : list (Z * Z))
    (dmin : list Q) :
  mapM (distance_min2 balls) flux = Some dmin →
  far_mask mbt dmin
  = (λ c, far_from balls (inject_Z (ballspacing (par mbt) + 1)) c) <$> flux.
Proof.
  intros Hd. apply mapM_Some in Hd. unfold far_mask.
  induction Hd as [|c d flux dmin Hcd _ IH]; [reflexivity|].
  rewrite !fmap_cons, IH. f_equal. eapply distance_min2_far. exact Hcd.
Qed.


End Emergence.

(** * The claims of the specification *)

(** ** The concrete collaborators meet the assumptions *)

#[global] Instance demo_key_le_total keys : Total (Demo.key_le keys).
Proof. intros i j. unfold Demo.key_le. lia. Qed.

#[global] Instance demo_key_le_trans keys : Transitive (Demo.key_le keys).
Proof. intros i j k. unfold Demo.key_le. lia. Qed.

Lemma demo_argsort_sorts : @argsort_sorts Demo.collaborators.
Proof.
  intros keys. simpl. unfold Demo.stable_argsort. split.
  - apply merge_sort_Permutation.
  - apply Sorted_fmap with (R1 := Demo.key_le keys).
    + intros i j. unfold Demo.key_le. lia.
    + apply Sorted_merge_sort. apply _.
Qed.

Lemma StronglySorted_key_lt (keys : list Z) (l : list nat) :
  StronglySorted (Demo.key_le keys) l → NoDup l → StronglySorted (key_lt keys) l.
Proof.
  induction 1 as [|i l Hl IH Hi]; intros Hnd; [constructor|].
  apply NoDup_cons in Hnd as [Hni Hnd]. constructor; [apply IH; exact Hnd|].
  rewrite Forall_forall in Hi |- *. intros j Hj. specialize (Hi j Hj).
  assert (i ≠ j) by (intros ->; contradiction).
  unfold Demo.key_le in Hi. unfold key_lt. lia.
Qed.

Lemma demo_argsort_stable : @argsort_stable Demo.collaborators.
Proof.
  intros keys. simpl. unfold Demo.stable_argsort.
  apply StronglySorted_Sorted, StronglySorted_key_lt.
  - apply StronglySorted_merge_sort; apply _.
  - rewrite merge_sort_Permutation. apply NoDup_seq.
Qed.

Lemma demo_keeps_shape : @integrator_keeps_shape Demo.collaborators.
Proof. intros mbt s. split; reflexivity. Qed.

Lemma demo_skips_invalid : @integrator_skips_invalid Demo.collaborators.
Proof. intros mbt s i _. reflexivity. Qed.

(** ** C1 *)

(** C1.  After a processed frame no coarse-grid cell holds more than one
    valid ball: two distinct slots that are both valid in
    [new_valid_balls_mask] at the end of the frame have positions with
    different coarse-grid indices [coarse_idx]. *)
Theorem C1_one_valid_ball_per_cell `{Collaborators} (n : nat) (mbt mbt' : MBT) (i j : nat) :
  argsort_sorts →
  track_frame n mbt = Done mbt' →
  new_valid_balls_mask mbt' !! i = Some true →
  new_valid_balls_mask mbt' !! j = Some true →
  i ≠ j →
  ∃ ci cj, cell_of mbt' i = Some ci ∧ cell_of mbt' j = Some cj ∧ ci ≠ cj.
Proof.
  intros Hsort (m1 & m2 & _ & Hsb & ->)%track_frame_Done Hi Hj Hne.
  pose proof (set_bad_balls_frame _ _ _ _ _ Hsb) as
    (Hpar & Hpos & _ & _ & _ & _ & _ & _ & _ & _ & _ & _ & _ & Hneg).
  assert (Hcell : ∀ k, new_valid_balls_mask (record_frame n m2) !! k = Some true →
            cell_of (record_frame n m2) k = cell_of m1 k).
  { intros k Hk. apply cell_of_ext; [exact Hpar|].
    rewrite <- Hpos. apply record_frame_valid_pos; assumption. }
  rewrite (Hcell i Hi), (Hcell j Hj).
  change (new_valid_balls_mask (record_frame n m2)) with (new_valid_balls_mask m2) in Hi, Hj.
  pose proof (set_bad_balls_valid _ _ _ _ _ _ Hsb Hi) as [HiU _].
  pose proof (set_bad_balls_valid _ _ _ _ _ _ Hsb Hj) as [HjU _].
  apply set_bad_balls_Done in Hsb as (ids & U & Hids & _ & Hdec & ->). simpl in HiU, HjU.
  destruct (decimate_spec _ _ _ Hsort Hids Hdec) as (Hsub & Huniq & Hex).
  destruct (Hex i (Hsub i HiU)) as (_ & ci & _ & _ & _ & Hci & _).
  destruct (Hex j (Hsub j HjU)) as (_ & cj & _ & _ & _ & Hcj & _).
  exists ci, cj. split; [exact Hci|]. split; [exact Hcj|].
  intros ->. apply Hne. apply Huniq; [exact HiU | exact HjU | congruence].
Qed.

Lemma C1_one_valid_ball_per_cell_witness :
  ∃ ci cj, cell_of Demo.crowded1 1 = Some ci ∧ cell_of Demo.crowded1 2 = Some cj ∧ ci ≠ cj.
Proof.
  apply (C1_one_valid_ball_per_cell (H := Demo.collaborators) 0 Demo.crowded Demo.crowded1 1 2).
  - exact demo_argsort_sorts.
  - vm_compute. reflexivity.
  - vm_compute. reflexivity.
  - vm_compute. reflexivity.
  - lia.
Defined.

(** ** C2 *)



(** In the scenario of two seeds of one cell with the ages 3 and 5, the
    older one survives; with equal ages, the one in the higher slot. *)
Example decimation_of_aged_and_tied :
  new_valid_balls_mask Demo.aged' = [false; true; true] ∧
  new_valid_balls_mask Demo.tied' = [false; true; true].
Proof. split; vm_compute; reflexivity. Qed.

(** ** C3 *)

(** C3.  In a run of fewer than [2^32 - 1] frames, the age stored for a slot
    at frame [n] ([balls_age_t[:, n]]) is the age of the previous frame
    ([balls_age_t[:, n-1]], or the initial age 1 before frame 0) plus exactly
    1 when the slot is valid in [new_valid_balls_mask] at the end of frame
    [n], and is that age unchanged when the slot is not valid. *)
Theorem C3_age_follows_validity `{Collaborators} (a : Args) (mbt0 mbt' : MBT) (n : nat) :
  MBT_init a = Done mbt0 →
  Z.of_nat (a_nt a) < 2 ^ 32 - 1 →
  (n < a_nt a)%nat →
  run_frames (S n) mbt0 = Done mbt' →
  ∃ prev : list Z,
    match n with
    | O => prev = replicate (nballs_max (par mbt0)) 1 ∧ prev = balls_age mbt0
    | S p => balls_age_t mbt' !! p = Some prev
    end ∧
    balls_age_t mbt' !! n = Some (balls_age mbt') ∧
    valid_balls_mask_t mbt' !! n = Some (new_valid_balls_mask mbt') ∧
    ∀ (slot : nat) (age : Z), prev !! slot = Some age →
      (new_valid_balls_mask mbt' !! slot = Some true →
       balls_age mbt' !! slot = Some (age + 1)) ∧
      (new_valid_balls_mask mbt' !! slot = Some false →
       balls_age mbt' !! slot = Some age).
Proof.
  intros Hinit Hnt Hn Hrun.
  destruct (init_Done _ _ Hinit) as (Hsh0 & _ & Hage0 & Hnt0 & _).
  apply run_frames_S in Hrun as (m & Hm & Hframe).
  destruct (run_frames_history _ _ _ Hm) as (Hpar & _ & Hlat & Hlvt & Hbound).
  destruct (track_frame_end _ _ _ Hframe) as
    (m1 & _ & _ & _ & _ & _ & _ & _ & _ & Hage & _ & Hbat & Hvmt & _).
  assert (Hones : Forall (λ a, a = 1) (balls_age mbt0)).
  { rewrite Hage0. apply Forall_replicate. reflexivity. }
  specialize (Hbound ltac:(lia) Hones).
  exists (balls_age m). split; [|split; [|split]].
  - destruct n as [|p].
    + injection Hm as <-. split; [exact Hage0 | reflexivity].
    + rewrite Hbat, list_lookup_insert_ne by lia.
      apply run_frames_S in Hm as (mp & Hmp & Hframep).
      destruct (run_frames_history _ _ _ Hmp) as (_ & _ & Hlp & _).
      destruct (track_frame_end _ _ _ Hframep) as
        (m1' & _ & _ & _ & _ & _ & _ & _ & _ & _ & _ & -> & _).
      apply list_lookup_insert_eq. rewrite Hlp, (sh_age_t _ Hsh0). lia.
  - rewrite Hbat. apply list_lookup_insert_eq. rewrite Hlat, (sh_age_t _ Hsh0). lia.
  - rewrite Hvmt. apply list_lookup_insert_eq. rewrite Hlvt, (sh_valid_t _ Hsh0). lia.
  - intros slot age Hslot.
    rewrite Forall_lookup in Hbound. specialize (Hbound slot age Hslot). simpl in Hbound.
    split; intros Hv; rewrite Hage, (lookup_increment_age _ _ _ _ _ Hv Hslot);
      [|reflexivity].
    unfold Np.uint32. rewrite Z.mod_small by lia. reflexivity.
Qed.

Lemma C3_age_follows_validity_witness :
  ∃ prev : list Z,
    balls_age_t Demo.crowded2 !! 0%nat = Some prev ∧
    balls_age_t Demo.crowded2 !! 1%nat = Some (balls_age Demo.crowded2) ∧
    valid_balls_mask_t Demo.crowded2 !! 1%nat = Some (new_valid_balls_mask Demo.crowded2) ∧
    ∀ (slot : nat) (age : Z), prev !! slot = Some age →
      (new_valid_balls_mask Demo.crowded2 !! slot = Some true →
       balls_age Demo.crowded2 !! slot = Some (age + 1)) ∧
      (new_valid_balls_mask Demo.crowded2 !! slot = Some false →
       balls_age Demo.crowded2 !! slot = Some age).
Proof.
  apply (C3_age_follows_validity (H := Demo.collaborators) Demo.crowded_args
           Demo.crowded Demo.crowded2 1).
  - vm_compute. reflexivity.
  - vm_compute. reflexivity.
  - simpl. lia.
  - vm_compute. reflexivity.
Defined.

(** The ages of the crowded run: the decimated slot 0 stays at 1, the two
    valid balls are 2 after frame 0 and 3 after frame 1. *)
Example ages_of_crowded_run :
  balls_age_t Demo.crowded2 = [[1; 2; 2]; [1; 3; 3]] ∧
  valid_balls_mask_t Demo.crowded2 = [[false; true; true]; [false; true; true]].
Proof. split; vm_compute; reflexivity. Qed.

(** ** C4 *)



(** ** C5 *)



(** Scenario E: the bright pixel that appears at (8, 9) in frame 1 gets the
    slot 1; at the end of frame 1 that ball is valid and of age 2. *)
Example emergence_in_frame_one :
  emerging (H := Demo.collaborators)
    (with_frame (datafiles (par Demo.emerged1) 1)
       (prep_function (par Demo.emerged1) (datafiles (par Demo.emerged1) 1)) Demo.emerged1)
  = [(8, 9)] ∧
  nballs Demo.emerged1 = 1%nat ∧ nballs Demo.emerged2 = 2%nat ∧
  pos Demo.emerged2 !! 1%nat = Some (8, 9, -80)%Q ∧
  new_valid_balls_mask Demo.emerged2 !! 1%nat = Some true ∧
  balls_age Demo.emerged2 !! 1%nat = Some 2.
Proof. repeat split; vm_compute; reflexivity. Qed.

(** A ball that emerges in the cell of an older ball is removed by the
    decimation of its first frame: it ends that frame flagged, of age 1. *)
Example newcomer_in_an_occupied_cell :
  nballs Demo.newcomer2 = 2%nat ∧
  take 2 (new_valid_balls_mask Demo.newcomer2) = [true; false] ∧
  take 2 (balls_age Demo.newcomer2) = [3; 1] ∧
  take 2 (pos Demo.newcomer2) = [(10, 10, -100)%Q; sentinel].
Proof. repeat split; vm_compute; reflexivity. Qed.


(** ** C6 *)

(** C6, as the code has it.  A ball that passes the off-edge check and whose
    pixel, its [(x, y)] truncated toward zero by [astype(np.int32)], holds a
    frame value of the sign opposite to the tracked polarity is invalid
    after [set_bad_balls] with the polarity check enabled. *)
Theorem C6_polarity_check_at_truncated_pixel `{Collaborators} (mbt mbt' : MBT) (cn cs : bool)
    (i : nat) (p : vec3) (v : Q) :
  pos mbt !! i = Some p →
  get_off_edges_mask (rs (par mbt)) (nx (par mbt)) (ny (par mbt)) (px p) (py p) = false →
  getpixel (image mbt) (Np.astype_int32 (py p)) (Np.astype_int32 (px p)) = Some v →
  Np.sign v * polarity (par mbt) < 0 →
  set_bad_balls mbt true cn cs = Done mbt' →
  new_valid_balls_mask mbt' !! i = Some false.
Proof.
  intros Hp Hoff Hv Hsign Hsb.
  eapply set_bad_balls_invalid; [exact Hsb | eapply lookup_lt_Some; exact Hp |].
  unfold passed_checks. rewrite Hp, Hoff. unfold same_polarity. simpl.
  rewrite Hv. simpl. rewrite bool_decide_eq_false_2 by lia. reflexivity.
Qed.

Lemma C6_polarity_check_at_truncated_pixel_witness :
  new_valid_balls_mask Demo.striped' !! 1%nat = Some false.
Proof.
  apply (C6_polarity_check_at_truncated_pixel (H := Demo.collaborators)
           Demo.striped Demo.striped' true true 1 (6.2, 15, -50)%Q (-50)%Q).
  - vm_compute. reflexivity.
  - vm_compute. reflexivity.
  - vm_compute. reflexivity.
  - vm_compute. reflexivity.
  - vm_compute. reflexivity.
Defined.

(** C6, as stated, fails: the ball at x = 5.7 rounds to the pixel of column
    6, of negative polarity, but the check reads column 5 and keeps it. *)
Lemma C6_rounded_pixel_counterexample :
  ¬ @polarity_check_at_rounded_pixel Demo.collaborators.
Proof.
  intros Hclaim.
  specialize (Hclaim Demo.striped Demo.striped' 0%nat (5.7, 5, -50)%Q (-50)%Q).
  assert (new_valid_balls_mask Demo.striped' !! 0%nat = Some false) as Hfalse.
  { apply Hclaim; vm_compute; reflexivity. }
  vm_compute in Hfalse. discriminate.
Qed.

(** ** C7 *)



(** Scenario D with [verbose] set: the output ends with the line of frame 1
    and the message of the polarity check. *)
Example total_invalidation_verbose :
  track_all_frames (Demo.flipped 1 true)
  = SysExit 1 [MsgTrackingWith 1; MsgFrame 0; MsgFrame 1; MsgPolarity].
Proof. vm_compute. reflexivity. Qed.


(** ** C8 *)

(** C8 at a frame of 10 columns by 30 rows with a spacing of 10: the grid
    the tracker builds has one row ([nyc_] comes from [nx]), not the three
    that cover the frame, so the ball at (5, 25) gets the cell (0, 0) and
    not (0, 2); it shares that cell with the ball at (5, 5), which the
    decimation of the first frame then removes. *)
Theorem C8_coarse_grid_rows_follow_nx :
  nx (par Demo.tall) = 10 ∧ ny (par Demo.tall) = 30 ∧
  nxc_ (par Demo.tall) = 1 ∧ nyc_ (par Demo.tall) = 1 ∧
  Np.ceil (inject_Z 30 / inject_Z 10) = 3 ∧
  coarse_grid_pos1 Demo.tall 5 25 = Some (0, 0, 0) ∧
  spec_cell 10 30 10 5 25 = (0, 2) ∧
  pos Demo.tall = [(5, 5, -50)%Q; (5, 25, -50)%Q] ∧
  new_valid_balls_mask Demo.tall1 = [false; true].
Proof. repeat split; vm_compute; reflexivity. Qed.

(** Whatever the frame, [MBT.__init__] takes both grid dimensions from [nx]. *)
Lemma init_coarse_dims `{Collaborators} (a : Args) (mbt : MBT) :
  MBT_init a = Done mbt →
  nxc_ (par mbt) = Np.ceil (inject_Z (nx (par mbt)) / inject_Z (ballspacing (par mbt))) ∧
  nyc_ (par mbt) = Np.ceil (inject_Z (nx (par mbt)) / inject_Z (ballspacing (par mbt))).
Proof.
  unfold MBT_init. intros (p & _ & [= <-])%bind_Done. simpl. split; reflexivity.
Qed.

(** ** C9 *)




(** ** C10 *)

(** C10.  A slot below the active-ball count that is not valid at the end of
    a frame is not valid at the end of any later frame, in the tracker and
    in the history, and keeps the flagged position.  The integrator is
    assumed to keep the shape of the arrays and to move only the valid
    balls, and the radius of the balls not to be negative. *)
Theorem C10_invalid_slot_stays_invalid `{Collaborators} (a : Args) (mbt0 mn m : MBT) (n k slot : nat) :
  integrator_keeps_shape → integrator_skips_invalid → (0 <= a_rs a)%Q →
  MBT_init a = Done mbt0 →
  run_frames (S n) mbt0 = Done mn →
  (slot < nballs mn)%nat →
  new_valid_balls_mask mn !! slot = Some false →
  (S n ≤ k)%nat →
  run_frames k mbt0 = Done m →
  new_valid_balls_mask m !! slot = Some false ∧
  pos m !! slot = Some sentinel ∧
  ∀ f, (n ≤ f < k)%nat → (f < a_nt a)%nat →
       ∃ validf, valid_balls_mask_t m !! f = Some validf ∧ validf !! slot = Some false.
Proof.
  intros Hshape Hskip Hrs Hinit Hmn Hslot Hinv.
  destruct (init_Done _ _ Hinit) as (Hsh0 & _ & _ & Hnt0 & Hrs0 & _).
  revert m. induction k as [|k IH]; intros m Hk Hrun; [lia|].
  destruct (decide (S n = S k)) as [Heq|Hne].
  { injection Heq as <-. rewrite Hmn in Hrun. injection Hrun as <-.
    destruct (run_frames_invariant _ _ _ Hshape Hsh0 Hmn) as (_ & Hset & _).
    split; [exact Hinv|]. split; [apply (st_flags _ (Hset ltac:(lia)) slot Hinv)|].
    intros f Hf Hfnt. assert (f = n) as -> by lia.
    apply run_frames_S in Hmn as (mp & Hmp & Hframe).
    destruct (run_frames_history _ _ _ Hmp) as (_ & _ & _ & Hl3 & _).
    destruct (track_frame_end _ _ _ Hframe) as
      (m1 & _ & _ & _ & _ & _ & _ & _ & _ & _ & _ & _ & Hvmt & _).
    exists (new_valid_balls_mask mn). split; [|exact Hinv].
    rewrite Hvmt. apply list_lookup_insert_eq. rewrite Hl3, (sh_valid_t _ Hsh0). lia. }
  pose proof Hrun as Hrun'. apply run_frames_S in Hrun' as (mk & Hmk & Hframe).
  destruct (IH mk ltac:(lia) Hmk) as (Hinvk & _ & Hhist).
  destruct (run_frames_invariant _ _ _ Hshape Hsh0 Hmk) as (Hshk & Hsetk & Hpark & _).
  destruct (run_frames_invariant _ _ _ Hshape Hsh0 Hrun) as (_ & Hset & _).
  assert (nballs mn ≤ nballs mk)%nat as Hnb.
  { destruct (run_frames_le (S n) k mbt0 mk ltac:(lia) Hmk) as [mn' Hmn'].
    assert (mn' = mn) as -> by congruence.
    clear -Hshape Hmn Hmk Hne Hk Hsh0. revert mk Hmk.
    assert (Hgen : ∀ d mk, run_frames (S n + d) mbt0 = Done mk → (nballs mn ≤ nballs mk)%nat).
    { induction d as [|d IHd]; intros mk Hmk.
      - rewrite Nat.add_0_r, Hmn in Hmk. injection Hmk as <-. lia.
      - rewrite Nat.add_succ_r in Hmk. apply run_frames_S in Hmk as (md & Hmd & Hframe).
        destruct (run_frames_invariant _ _ _ Hshape Hsh0 Hmd) as (Hshd & Hsetd & _).
        destruct (track_frame_invariant _ _ _ Hshape Hshd Hsetd Hframe) as (_ & _ & _ & Hle & _).
        specialize (IHd md Hmd). lia. }
    intros mk Hmk. apply (Hgen (k - S n)%nat). replace (S n + (k - S n))%nat with k by lia.
    exact Hmk. }
  destruct (track_frame_invariant _ _ _ Hshape Hshk Hsetk Hframe) as (_ & _ & _ & _ & _ & Hdead).
  assert (Hinv' : new_valid_balls_mask m !! slot = Some false).
  { apply Hdead; [exact Hskip | rewrite Hpark, Hrs0; exact Hrs | lia | lia | exact Hinvk]. }
  split; [exact Hinv'|]. split; [apply (st_flags _ (Hset ltac:(lia)) slot Hinv')|].
  intros f Hf Hfnt.
  destruct (run_frames_history _ _ _ Hmk) as (_ & _ & _ & Hl3 & _).
  destruct (track_frame_end _ _ _ Hframe) as
    (m1 & _ & _ & _ & _ & _ & _ & _ & _ & _ & _ & _ & Hvmt & _).
  destruct (decide (f = k)) as [->|Hfk].
  - exists (new_valid_balls_mask m). split; [|exact Hinv'].
    rewrite Hvmt. apply list_lookup_insert_eq. rewrite Hl3, (sh_valid_t _ Hsh0). lia.
  - destruct (Hhist f ltac:(lia) Hfnt) as (validf & Hvf & Hs).
    exists validf. split; [|exact Hs].
    rewrite Hvmt, list_lookup_insert_ne by lia. exact Hvf.
Qed.

Lemma C10_invalid_slot_stays_invalid_witness :
  new_valid_balls_mask Demo.crowded2 !! 0%nat = Some false ∧
  pos Demo.crowded2 !! 0%nat = Some sentinel ∧
  ∀ f, (0 ≤ f < 2)%nat → (f < a_nt Demo.crowded_args)%nat →
       ∃ validf, valid_balls_mask_t Demo.crowded2 !! f = Some validf ∧
                 validf !! 0%nat = Some false.
Proof.
  apply (C10_invalid_slot_stays_invalid (H := Demo.collaborators) Demo.crowded_args
           Demo.crowded Demo.crowded1 Demo.crowded2 0 2 0).
  - exact demo_keeps_shape.
  - exact demo_skips_invalid.
  - vm_compute. discriminate.
  - vm_compute. reflexivity.
  - vm_compute. reflexivity.
  - vm_compute. lia.
  - vm_compute. reflexivity.
  - lia.
  - vm_compute. reflexivity.
Defined.

(** * Further properties of the code *)

(** ** MBT.set_bad_balls *)






(** The selection of the decimation always ends with the last sorted ball:
    it is never empty. *)
Lemma decimate_nonempty `{Collaborators} (mbt : MBT) (ids U : list nat) :
  decimate mbt ids = Done U → U ≠ [].
Proof.
  unfold decimate. intros Hd.
  do 6 (apply bind_Done in Hd as (? & _ & Hd)).
  apply bind_Done in Hd as (keep & Hk & Hd).
  apply or_raise_Done in Hk, Hd.
  unfold Np.getitems_z, Np.run_ends in Hk.
  apply length_mapM in Hk. rewrite length_app in Hk. simpl in Hk.
  unfold Np.getitems in Hd. apply length_mapM in Hd.
  intros ->. simpl in Hd. lia.
Qed.

(** X2.  [set_bad_balls] never returns with no valid ball: whatever the
    checks enabled, when it returns at least one slot is valid and not
    flagged bad. *)
Theorem X2_a_valid_ball_remains `{Collaborators} (mbt mbt' : MBT) (cp cn cs : bool) :
  set_bad_balls mbt cp cn cs = Done mbt' →
  ∃ i, new_valid_balls_mask mbt' !! i = Some true ∧ bad_balls_mask mbt' !! i = Some false.
Proof.
  intros Hsb.
  apply set_bad_balls_Done in Hsb as (ids & U & Hids & Hpass & Hdec & ->). simpl.
  pose proof (decimate_nonempty _ _ _ Hdec) as Hne.
  destruct U as [|k U]; [congruence|]. exists k.
  assert (k ∈ k :: U) as Hk by left.
  pose proof (decimate_subset _ _ _ _ Hdec Hk) as Hin.
  apply Hpass, passed_checks_lt in Hin.
  rewrite lookup_valid_mask, lookup_bad_mask, !decide_True by exact Hin.
  rewrite bool_decide_eq_true_2 by exact Hk.
  rewrite bool_decide_eq_false_2 by (intros Hn; apply Hn; exact Hk). split; reflexivity.
Qed.

Lemma X2_a_valid_ball_remains_witness :
  ∃ i, new_valid_balls_mask Demo.aged' !! i = Some true ∧
       bad_balls_mask Demo.aged' !! i = Some false.
Proof.
  apply (X2_a_valid_ball_remains (H := Demo.collaborators) Demo.aged Demo.aged'
           true true true).
  vm_compute. reflexivity.
Defined.

Lemma getitems_nil_inv {A} (a : list A) (idx : list nat) :
  Np.getitems a idx = Some [] → idx = [].
Proof.
  intros Hg. apply length_mapM in Hg. destruct idx; [reflexivity|discriminate].
Qed.

Lemma decimate_nil `{Collaborators} (mbt : MBT) : decimate mbt [] = Raised IndexError.
Proof.
  unfold decimate. cbn.
  destruct (argsort []) as [|i idx]; reflexivity.
Qed.

(** X3.  With no ball within the edges (no ball at all, or every ball
    flagged), [set_bad_balls] stops the process at the first enabled check,
    with the message of that check although no ball failed it; with every
    check disabled it raises IndexError, the decimation indexing the last
    element of an empty array. *)
Theorem X3_no_ball_within_the_edges `{Collaborators} (mbt : MBT) (cp cn cs : bool) :
  in_edge_balls mbt = [] →
  set_bad_balls mbt cp cn cs =
    if cp then SysExit 1 (stdout mbt ++ [MsgPolarity])
    else if cn then SysExit 1 (stdout mbt ++ [MsgNoise])
    else if cs then SysExit 1 (stdout mbt ++ [MsgSunk])
    else Raised IndexError.
Proof.
  intros Hnil. unfold set_bad_balls.
  pose proof (in_edge_balls_getitems mbt) as Hg. rewrite Hnil in Hg.
  rewrite (getitems_nil_inv _ _ Hg). cbn.
  destruct cp; [reflexivity|]. destruct cn; [reflexivity|]. destruct cs; [reflexivity|].
  change (decimate mbt [] ≫=
            (λ u, Done (with_masks u (Np.put u false (replicate (length (pos mbt)) true))
                          (negb <$> Np.put u false (replicate (length (pos mbt)) true)) mbt))
          = Raised IndexError).
  rewrite decimate_nil. reflexivity.
Qed.

Lemma X3_no_ball_within_the_edges_witness :
  set_bad_balls Scenes.all_flagged false true true =
    SysExit 1 (stdout Scenes.all_flagged ++ [MsgNoise]) ∧
  set_bad_balls Scenes.all_flagged false false false = Raised IndexError.
Proof.
  split.
  - apply (X3_no_ball_within_the_edges (H := Demo.collaborators) Scenes.all_flagged
             false true true).
    vm_compute. reflexivity.
  - apply (X3_no_ball_within_the_edges (H := Demo.collaborators) Scenes.all_flagged
             false false false).
    vm_compute. reflexivity.
Defined.

Lemma NoDup_bounded_length (l : list Z) (N : Z) :
  0 ≤ N → NoDup l → Forall (λ c, 0 ≤ c < N) l → Z.of_nat (length l) ≤ N.
Proof.
  intros HN Hnd Hall.
  assert (l ⊆+ seqZ 0 N) as Hsub.
  { apply NoDup_submseteq; [exact Hnd|]. intros c Hc.
    rewrite Forall_forall in Hall. apply elem_of_seqZ. specialize (Hall c Hc).
    simpl in Hall. lia. }
  apply submseteq_length in Hsub. rewrite length_seqZ in Hsub. lia.
Qed.

Lemma StronglySorted_lt_NoDup (l : list nat) : StronglySorted lt l → NoDup l.
Proof.
  induction 1 as [|x l _ IH Hall]; constructor; [|exact IH].
  intros Hx. rewrite Forall_forall in Hall. specialize (Hall x Hx). lia.
Qed.

Lemma length_nonzero_from (m : list bool) (i : nat) :
  length (Np.nonzero_from i m) = Np.count_true m.
Proof.
  unfold Np.count_true. revert i. induction m as [|b m IH]; intros i; [reflexivity|].
  destruct b.
  - rewrite filter_cons_True by reflexivity. simpl. f_equal. apply IH.
  - rewrite filter_cons_False by discriminate. apply IH.
Qed.

Lemma ravel_multi_index_range (i j d0 d1 idx : Z) :
  Np.ravel_multi_index i j d0 d1 = Some idx →
  0 ≤ i < d0 ∧ 0 ≤ j < d1 ∧ idx = i * d1 + j ∧ 0 ≤ idx < d0 * d1.
Proof.
  unfold Np.ravel_multi_index.
  destruct ((0 <=? i) && (i <? d0) && (0 <=? j) && (j <? d1)) eqn:Hb; [|discriminate].
  intros [= <-]. repeat (apply andb_prop in Hb as [Hb ?]).
  repeat match goal with
         | H : (_ <=? _) = true |- _ => apply Z.leb_le in H
         | H : (_ <? _) = true |- _ => apply Z.ltb_lt in H end.
  repeat split; try lia; nia.
Qed.

Lemma cell_of_range (mbt : MBT) (i : nat) (c : Z) :
  cell_of mbt i = Some c → 0 ≤ c < nyc_ (par mbt) * nxc_ (par mbt).
Proof.
  unfold cell_of. destruct (pos mbt !! i) as [p|]; [|discriminate]. simpl.
  unfold coarse_grid_pos1.
  destruct (Np.ravel_multi_index _ _ _ _) as [idx|] eqn:Hr; [|discriminate].
  simpl. intros [= <-]. apply ravel_multi_index_range in Hr. tauto.
Qed.

(** X4.  After [set_bad_balls] there are at most as many valid balls as
    the coarse grid has cells, [nyc_ * nxc_]: the decimation bounds the
    population whatever the number of balls that passed the checks.  Needs
    only that [np.argsort] sorts. *)
Theorem X4_valid_balls_bounded_by_the_cells `{Collaborators} (mbt mbt' : MBT)
    (cp cn cs : bool) :
  argsort_sorts →
  set_bad_balls mbt cp cn cs = Done mbt' →
  Z.of_nat (Np.count_true (new_valid_balls_mask mbt')) ≤ nyc_ (par mbt) * nxc_ (par mbt).
Proof.
  intros Hsort Hsb.
  assert (Hval : ∀ i, i ∈ Np.nonzero (new_valid_balls_mask mbt') →
                      i ∈ unique_valid_balls mbt').
  { intros i Hi%elem_of_nonzero. eapply set_bad_balls_valid; eassumption. }
  apply set_bad_balls_Done in Hsb as (ids & U & Hids & _ & Hdec & ->).
  simpl in Hval |- *.
  set (valid := negb <$> Np.put U false (replicate (length (pos mbt)) true)) in *.
  destruct (decimate_spec _ _ _ Hsort Hids Hdec) as (Hsub & Huniq & Hex).
  rewrite <- (length_nonzero_from valid 0). fold (Np.nonzero valid).
  rewrite <- (length_fmap (λ i, default 0 (cell_of mbt i))).
  assert (Hcell : ∀ i, i ∈ Np.nonzero valid → is_Some (cell_of mbt i)).
  { intros i Hi. destruct (Hex i (Hsub i (Hval i Hi))) as (_ & c & _ & _ & _ & Hc & _).
    eauto. }
  apply NoDup_bounded_length.
  - pose proof (decimate_nonempty _ _ _ Hdec) as Hne.
    destruct U as [|k U']; [congruence|].
    destruct (Hex k (Hsub k ltac:(left))) as (_ & c & _ & _ & _ & Hc & _).
    apply cell_of_range in Hc. lia.
  - apply NoDup_fmap_2_strong.
    + intros i j Hi Hj Heq.
      destruct (Hcell i Hi) as [ci Hci], (Hcell j Hj) as [cj Hcj].
      rewrite Hci, Hcj in Heq. simpl in Heq. subst cj.
      apply Huniq; [apply Hval, Hi | apply Hval, Hj | congruence].
    + apply StronglySorted_lt_NoDup. apply nonzero_sorted.
  - apply Forall_fmap, Forall_forall. intros i Hi. simpl.
    destruct (Hcell i Hi) as [c Hc]. rewrite Hc. simpl. eapply cell_of_range. exact Hc.
Qed.

Lemma X4_valid_balls_bounded_by_the_cells_witness :
  Z.of_nat (Np.count_true (new_valid_balls_mask Demo.aged'))
  ≤ nyc_ (par Demo.aged) * nxc_ (par Demo.aged).
Proof.
  apply (X4_valid_balls_bounded_by_the_cells (H := Demo.collaborators) Demo.aged Demo.aged'
           true true true).
  - exact demo_argsort_sorts.
  - vm_compute. reflexivity.
Defined.

Lemma mapM_default {A} (f : A → option bool) (l : list A) :
  Forall (λ q, is_Some (f q)) l → mapM f l = Some ((λ q, default false (f q)) <$> l).
Proof.
  intros Hall. apply mapM_Some. induction Hall as [|q l [b Hb] _ IH]; simpl.
  - constructor.
  - constructor; [|exact IH]. rewrite Hb. reflexivity.
Qed.

Lemma any_fmap {A} (g : A → bool) (l : list A) : Np.any (g <$> l) = existsb g l.
Proof.
  unfold Np.any. induction l as [|x l IH]; [reflexivity|].
  cbn. apply (f_equal (orb (g x))), IH.
Qed.

Lemma replicate_true_fmap {A} (l : list A) :
  replicate (length l) true = (λ _, true) <$> l.
Proof. induction l as [|x l IH]; simpl; [reflexivity|]. rewrite IH. reflexivity. Qed.

Lemma check_block_enabled `{Collaborators} (mbt : MBT) (test : Z * Z * Z → option bool)
    (msg : message) (g : Z * Z * Z → bool) (pos2 : list (Z * Z * Z)) :
  Forall (λ q, is_Some (test q)) pos2 →
  check_block mbt true test msg pos2 (g <$> pos2) =
    if existsb (λ q, g q && default false (test q)) pos2
    then Done ((λ q, g q && default false (test q)) <$> pos2)
    else SysExit 1 (stdout mbt ++ [msg]).
Proof.
  intros Hall. unfold check_block. rewrite (mapM_default _ _ Hall). cbn.
  rewrite zip_with_fmap_l, zip_with_fmap_r, zip_with_diag, any_fmap.
  destruct (existsb _ _); reflexivity.
Qed.

(** X5.  The checks narrow one mask, so the message of the exit names the
    check at which the mask became empty, not a check that every ball
    failed: when some ball within the edges is of the tracked polarity but
    none of those is above the noise level, the process exits with the
    noise message, whatever the balls of the other polarity sit on.  The
    pixels of the balls within the edges are assumed to be in the frame. *)
Theorem X5_exit_names_the_emptying_check `{Collaborators} (mbt : MBT) :
  Forall (λ p, is_Some (getpixel (image mbt) (Np.astype_int32 (py p)) (Np.astype_int32 (px p))))
         (in_edge_balls mbt) →
  Exists (λ p, same_polarity mbt (astype_int32_col p) = Some true) (in_edge_balls mbt) →
  Forall (λ p, same_polarity mbt (astype_int32_col p) = Some true →
               above_noise mbt (astype_int32_col p) = Some false) (in_edge_balls mbt) →
  set_bad_balls mbt true true true = SysExit 1 (stdout mbt ++ [MsgNoise]).
Proof.
  intros Hpix Hsome Hnone. unfold set_bad_balls.
  rewrite in_edge_balls_getitems. cbn [or_raise mbind outcome_bind].
  pose proof (in_edge_balls_getitems mbt) as Hlen. apply length_mapM in Hlen.
  rewrite Hlen, <- (length_fmap astype_int32_col (in_edge_balls mbt)).
  set (pos2 := astype_int32_col <$> in_edge_balls mbt).
  assert (Hpol : Forall (λ q, is_Some (same_polarity mbt q)) pos2).
  { unfold pos2. rewrite Forall_fmap. eapply Forall_impl; [exact Hpix|].
    intros p [v Hv]. unfold same_polarity, astype_int32_col. simpl. rewrite Hv. simpl. eauto. }
  assert (Hnoi : Forall (λ q, is_Some (above_noise mbt q)) pos2).
  { unfold pos2. rewrite Forall_fmap. eapply Forall_impl; [exact Hpix|].
    intros p [v Hv]. unfold above_noise, astype_int32_col. simpl. rewrite Hv. simpl. eauto. }
  rewrite (replicate_true_fmap pos2).
  rewrite (check_block_enabled mbt _ MsgPolarity (λ _, true) pos2 Hpol).
  assert (Hex : existsb (λ q, true && default false (same_polarity mbt q)) pos2 = true).
  { apply existsb_exists. apply Exists_exists in Hsome as (p & Hp & Htrue).
    exists (astype_int32_col p). split.
    - apply list_elem_of_In. unfold pos2. apply list_elem_of_fmap. eauto.
    - rewrite Htrue. reflexivity. }
  rewrite Hex. cbn [mbind outcome_bind].
  rewrite (check_block_enabled mbt _ MsgNoise _ pos2 Hnoi).
  assert (Hno : existsb (λ q, true && default false (same_polarity mbt q)
                              && default false (above_noise mbt q)) pos2 = false).
  { apply not_true_is_false. intros (q & Hq & Hb)%existsb_exists.
    apply list_elem_of_In in Hq. unfold pos2 in Hq.
    apply list_elem_of_fmap in Hq as (p & -> & Hp).
    rewrite Forall_forall in Hnone. specialize (Hnone p Hp).
    apply andb_prop in Hb as [Hb1 Hb2]. simpl in Hb1.
    apply default_false_true in Hb1, Hb2. rewrite (Hnone Hb1) in Hb2. discriminate. }
  rewrite Hno. reflexivity.
Qed.

Lemma X5_exit_names_the_emptying_check_witness :
  set_bad_balls Scenes.weak true true true = SysExit 1 (stdout Scenes.weak ++ [MsgNoise]).
Proof.
  assert (in_edge_balls Scenes.weak = pos Scenes.weak) as Hin by (vm_compute; reflexivity).
  apply (X5_exit_names_the_emptying_check (H := Demo.collaborators) Scenes.weak).
  - rewrite Hin. repeat constructor; vm_compute; eauto.
  - rewrite Hin. right. left. vm_compute. reflexivity.
  - rewrite Hin. repeat constructor; vm_compute; congruence.
Defined.

(** ** coarse_grid_pos *)

Lemma clip_range (v lo hi : Z) : lo ≤ hi → lo ≤ Np.clip v lo hi ≤ hi.
Proof. unfold Np.clip. lia. Qed.

Lemma clip_id (v hi : Z) : 0 ≤ v ≤ hi → Np.clip v 0 hi = v.
Proof. unfold Np.clip. lia. Qed.

Lemma uint32_small (v : Z) : 0 ≤ v < 2 ^ 32 → Np.uint32 v = v.
Proof. intros Hv. unfold Np.uint32. apply Z.mod_small. exact Hv. Qed.

(** X6.  On a coarse grid of at least one row and one column (and at most
    [2^32] of each), [coarse_grid_pos] never raises: whatever the position,
    the flag (-1, -1) included, the clipped cell is on the grid and its
    linear index is [ycoarse * nxc_ + xcoarse], below [nyc_ * nxc_]. *)
Theorem X6_coarse_cell_is_on_the_grid (mbt : MBT) (x y : Q) :
  1 ≤ nxc_ (par mbt) ≤ 2 ^ 32 → 1 ≤ nyc_ (par mbt) ≤ 2 ^ 32 →
  ∃ xc yc,
    coarse_grid_pos1 mbt x y = Some (xc, yc, yc * nxc_ (par mbt) + xc) ∧
    xc = Np.clip (Np.floor (x / inject_Z (ballspacing (par mbt)))) 0 (nxc_ (par mbt) - 1) ∧
    yc = Np.clip (Np.floor (y / inject_Z (ballspacing (par mbt)))) 0 (nyc_ (par mbt) - 1) ∧
    0 ≤ yc * nxc_ (par mbt) + xc < nyc_ (par mbt) * nxc_ (par mbt).
Proof.
  intros Hx Hy. unfold coarse_grid_pos1.
  set (xc := Np.clip (Np.floor (x / _)) 0 (nxc_ (par mbt) - 1)).
  set (yc := Np.clip (Np.floor (y / _)) 0 (nyc_ (par mbt) - 1)).
  assert (0 ≤ xc ≤ nxc_ (par mbt) - 1) as Hxc by (apply clip_range; lia).
  assert (0 ≤ yc ≤ nyc_ (par mbt) - 1) as Hyc by (apply clip_range; lia).
  rewrite !uint32_small by lia.
  exists xc, yc. unfold Np.ravel_multi_index.
  replace ((0 <=? yc) && (yc <? nyc_ (par mbt)) && (0 <=? xc) && (xc <? nxc_ (par mbt)))
    with true.
  2:{ symmetry. rewrite !andb_true_iff, !Z.leb_le, !Z.ltb_lt. lia. }
  simpl. repeat split; try reflexivity; nia.
Qed.

Lemma X6_coarse_cell_is_on_the_grid_witness :
  ∃ xc yc,
    coarse_grid_pos1 Demo.aged (-1) (-1) = Some (xc, yc, yc * nxc_ (par Demo.aged) + xc) ∧
    xc = Np.clip (Np.floor (-1 / inject_Z (ballspacing (par Demo.aged)))) 0
           (nxc_ (par Demo.aged) - 1) ∧
    yc = Np.clip (Np.floor (-1 / inject_Z (ballspacing (par Demo.aged)))) 0
           (nyc_ (par Demo.aged) - 1) ∧
    0 ≤ yc * nxc_ (par Demo.aged) + xc < nyc_ (par Demo.aged) * nxc_ (par Demo.aged).
Proof.
  apply (X6_coarse_cell_is_on_the_grid Demo.aged (-1) (-1)).
  - vm_compute. split; discriminate.
  - vm_compute. split; discriminate.
Defined.

Lemma floor_cell (x : Q) (s f : Z) :
  0 < s → Np.floor (x / inject_Z s) = f →
  (inject_Z f * inject_Z s <= x)%Q ∧ (x < (inject_Z f + 1) * inject_Z s)%Q.
Proof.
  intros Hs <-. unfold Np.floor.
  assert (0 < inject_Z s)%Q as Hs'.
  { change 0%Q with (inject_Z 0). rewrite <- Zlt_Qlt. exact Hs. }
  pose proof (Qfloor_le (x / inject_Z s)) as Hle.
  pose proof (Qlt_floor (x / inject_Z s)) as Hlt.
  rewrite inject_Z_plus in Hlt. change (inject_Z 1) with 1%Q in Hlt.
  assert (x / inject_Z s * inject_Z s == x)%Q as Heq.
  { field. intros H0. rewrite H0 in Hs'. apply (Qlt_irrefl 0). exact Hs'. }
  split.
  - rewrite <- Heq at 2. apply Qmult_le_r; assumption.
  - rewrite <- Heq at 1. apply Qmult_lt_r; assumption.
Qed.

Lemma same_floor_close (x1 x2 : Q) (s : Z) :
  0 < s → Np.floor (x1 / inject_Z s) = Np.floor (x2 / inject_Z s) →
  (Qabs (x1 - x2) < inject_Z s)%Q.
Proof.
  intros Hs Heq.
  destruct (floor_cell x1 s _ Hs eq_refl) as [Hl1 Hu1].
  destruct (floor_cell x2 s _ Hs eq_refl) as [Hl2 Hu2].
  rewrite <- Heq in Hl2, Hu2.
  set (f := inject_Z (Np.floor (x1 / inject_Z s))) in *.
  set (q := inject_Z s) in *.
  apply Qabs_case; intros _; lra.
Qed.

Lemma floor_in_grid (x : Q) (s n : Z) :
  0 < s → (0 <= x)%Q → (x < inject_Z (n * s))%Q → 0 ≤ Np.floor (x / inject_Z s) ≤ n - 1.
Proof.
  intros Hs H0 Hn.
  destruct (floor_cell x s _ Hs eq_refl) as [Hl Hu].
  set (f := Np.floor (x / inject_Z s)) in *.
  assert (0 < inject_Z s)%Q as Hs'.
  { change 0%Q with (inject_Z 0). rewrite <- Zlt_Qlt. exact Hs. }
  split.
  - assert (inject_Z 0 < inject_Z ((f + 1) * s))%Q as Hlt.
    { rewrite inject_Z_mult, inject_Z_plus. change (inject_Z 0) with 0%Q.
      change (inject_Z 1) with 1%Q. lra. }
    rewrite <- Zlt_Qlt in Hlt. nia.
  - assert (inject_Z (f * s) < inject_Z (n * s))%Q as Hlt.
    { rewrite (inject_Z_mult f). lra. }
    rewrite <- Zlt_Qlt in Hlt. nia.
Qed.

Lemma ravel_injective (i1 j1 i2 j2 d : Z) :
  0 ≤ j1 < d → 0 ≤ j2 < d → i1 * d + j1 = i2 * d + j2 → i1 = i2 ∧ j1 = j2.
Proof.
  intros H1 H2 Heq.
  assert (i1 = i2) as -> by (destruct (Z.lt_trichotomy i1 i2) as [?|[?|?]]; [nia|assumption|nia]).
  split; [reflexivity|lia].
Qed.

(** X7.  The coarse cells are local where the grid is not clipped: two
    positions with the same [coarse_idx], both inside the part of the
    plane the grid covers ([0 <= x < nxc_ * ballspacing] and
    [0 <= y < nyc_ * ballspacing]), are less than [ballspacing] apart along
    each axis.  So there the decimation only removes a ball that has a
    kept ball that close. *)
Theorem X7_coarse_cell_is_local (mbt : MBT) (x1 y1 x2 y2 : Q) (c1 c2 : Z * Z * Z) :
  0 < ballspacing (par mbt) →
  nxc_ (par mbt) ≤ 2 ^ 32 → nyc_ (par mbt) ≤ 2 ^ 32 →
  (0 <= x1)%Q → (x1 < inject_Z (nxc_ (par mbt) * ballspacing (par mbt)))%Q →
  (0 <= y1)%Q → (y1 < inject_Z (nyc_ (par mbt) * ballspacing (par mbt)))%Q →
  (0 <= x2)%Q → (x2 < inject_Z (nxc_ (par mbt) * ballspacing (par mbt)))%Q →
  (0 <= y2)%Q → (y2 < inject_Z (nyc_ (par mbt) * ballspacing (par mbt)))%Q →
  coarse_grid_pos1 mbt x1 y1 = Some c1 →
  coarse_grid_pos1 mbt x2 y2 = Some c2 →
  c1.2 = c2.2 →
  (Qabs (x1 - x2) < inject_Z (ballspacing (par mbt)))%Q ∧
  (Qabs (y1 - y2) < inject_Z (ballspacing (par mbt)))%Q.
Proof.
  intros Hs Hnx Hny Hx1 Hx1' Hy1 Hy1' Hx2 Hx2' Hy2 Hy2' H1 H2 Heq.
  pose proof (floor_in_grid _ _ _ Hs Hx1 Hx1') as Hfx1.
  pose proof (floor_in_grid _ _ _ Hs Hy1 Hy1') as Hfy1.
  pose proof (floor_in_grid _ _ _ Hs Hx2 Hx2') as Hfx2.
  pose proof (floor_in_grid _ _ _ Hs Hy2 Hy2') as Hfy2.
  unfold coarse_grid_pos1 in H1, H2.
  rewrite (clip_id _ _ Hfx1), (clip_id _ _ Hfy1) in H1.
  rewrite (clip_id _ _ Hfx2), (clip_id _ _ Hfy2) in H2.
  rewrite !uint32_small in H1 by lia. rewrite !uint32_small in H2 by lia.
  unfold Np.ravel_multi_index in H1, H2.
  destruct (_ && _) in H1; [|discriminate]. destruct (_ && _) in H2; [|discriminate].
  simpl in H1, H2. injection H1 as <-. injection H2 as <-. simpl in Heq.
  assert (Np.floor (y1 / inject_Z (ballspacing (par mbt)))
          = Np.floor (y2 / inject_Z (ballspacing (par mbt))) ∧
          Np.floor (x1 / inject_Z (ballspacing (par mbt)))
          = Np.floor (x2 / inject_Z (ballspacing (par mbt)))) as [Hy Hx].
  { eapply ravel_injective; [| |exact Heq]; lia. }
  split; apply same_floor_close; assumption.
Qed.

Lemma X7_coarse_cell_is_local_witness :
  (Qabs (12.5 - 15) < inject_Z (ballspacing (par Demo.aged)))%Q ∧
  (Qabs (13 - 17) < inject_Z (ballspacing (par Demo.aged)))%Q.
Proof.
  apply (X7_coarse_cell_is_local Demo.aged 12.5 13 15 17 (1, 1, 4) (1, 1, 4));
    try (vm_compute; reflexivity); vm_compute; discriminate.
Defined.

(** ** MBT.__init__ *)




(** ** MBT.populate_emergence *)

Lemma compress_nonempty {A} (mask : list bool) (a : list A) (i : nat) (x : A) :
  mask !! i = Some true → a !! i = Some x → Np.compress mask a ≠ [].
Proof.
  intros Hm Ha Hnil.
  assert (x ∈ Np.compress mask a) as Hin by (apply elem_of_compress; eauto).
  rewrite Hnil in Hin. inversion Hin.
Qed.

Lemma mapM_distance_min2 (balls : list vec3) (flux : list (Z * Z)) :
  balls ≠ [] → is_Some (mapM (distance_min2 balls) flux).
Proof.
  intros Hne. destruct balls as [|b balls]; [congruence|].
  induction flux as [|f flux [d Hd]]; [eexists; reflexivity|].
  eexists. apply mapM_Some. constructor; [reflexivity|]. apply mapM_Some. exact Hd.
Qed.

Lemma count_true_all_false {A} (g : A → bool) (l : list A) :
  Forall (λ x, g x = false) l → Np.count_true (g <$> l) = 0%nat.
Proof.
  unfold Np.count_true. induction 1 as [|x l Hx _ IH]; [reflexivity|].
  rewrite fmap_cons, filter_cons_False by (rewrite Hx; discriminate). exact IH.
Qed.

(** X9.  [populate_emergence] changes nothing when no candidate is farther
    than [ballspacing + 1] from every valid ball (in particular when the
    frame has no candidate), provided at least one ball is valid: the
    tracker is returned as it was, the active count included. *)
Theorem X9_no_new_ball_near_the_valid_ones `{Collaborators} (mbt : MBT) (i : nat) (p : vec3) :
  new_valid_balls_mask mbt !! i = Some true → pos mbt !! i = Some p →
  Forall (λ c, far_from (Np.compress (new_valid_balls_mask mbt) (pos mbt))
                 (inject_Z (ballspacing (par mbt) + 1)) c = false)
         (candidates mbt) →
  populate_emergence mbt = Done mbt.
Proof.
  intros Hv Hp Hnear. unfold populate_emergence. fold (candidates mbt).
  destruct (mapM_distance_min2 (Np.compress (new_valid_balls_mask mbt) (pos mbt))
              (candidates mbt)) as [dmin Hd].
  { eapply compress_nonempty; eassumption. }
  rewrite Hd. cbn [or_raise mbind outcome_bind].
  rewrite (far_mask_candidates _ _ _ _ Hd).
  rewrite (count_true_all_false (λ c, far_from _ _ c) _ Hnear).
  reflexivity.
Qed.

Lemma X9_no_new_ball_near_the_valid_ones_witness :
  populate_emergence Demo.emerged = Done Demo.emerged.
Proof.
  assert (candidates (H := Demo.collaborators) Demo.emerged = [(2, 2)]) as Hc
    by (vm_compute; reflexivity).
  apply (X9_no_new_ball_near_the_valid_ones (H := Demo.collaborators) Demo.emerged 0
           (2, 2, -100)%Q).
  - vm_compute. reflexivity.
  - vm_compute. reflexivity.
  - rewrite Hc. repeat constructor.
Defined.

(** X10.  With no valid ball and at least one candidate,
    [populate_emergence] raises ValueError: the minimum of the distances is
    taken over an empty axis. *)
Theorem X10_emergence_needs_a_valid_ball `{Collaborators} (mbt : MBT) :
  Np.count_true (new_valid_balls_mask mbt) = 0%nat →
  candidates mbt ≠ [] →
  populate_emergence mbt = Raised ValueError.
Proof.
  intros Hno Hcand. unfold populate_emergence. fold (candidates mbt).
  rewrite (count_true_zero_compress _ _ Hno).
  destruct (candidates mbt) as [|c l]; [congruence|]. reflexivity.
Qed.

Lemma X10_emergence_needs_a_valid_ball_witness :
  populate_emergence Scenes.none_valid = Raised ValueError.
Proof.
  apply (X10_emergence_needs_a_valid_ball (H := Demo.collaborators) Scenes.none_valid).
  - vm_compute. reflexivity.
  - vm_compute. discriminate.
Defined.

(** ** MBT.track_all_frames *)





(** X12.  The history is the record of the states at the ends of the
    frames: once frame [n] is processed, the entries [n] of [ballpos],
    [balls_age_t] and [valid_balls_mask_t] are the positions, ages and
    validity mask the tracker had at the end of frame [n], and no later
    frame rewrites them. *)
Theorem X12_history_is_the_state_at_the_end_of_the_frame `{Collaborators} (a : Args)
    (m0 mn mk : MBT) (n k : nat) :
  MBT_init a = Done m0 →
  (n < k)%nat → (n < a_nt a)%nat →
  run_frames (S n) m0 = Done mn →
  run_frames k m0 = Done mk →
  ballpos mk !! n = Some (pos mn) ∧
  balls_age_t mk !! n = Some (balls_age mn) ∧
  valid_balls_mask_t mk !! n = Some (new_valid_balls_mask mn).
Proof.
  intros Hinit Hnk Hnt Hn Hk.
  destruct (init_Done _ _ Hinit) as (Hsh & _ & _ & Hnt0 & _).
  destruct (run_frames_persist (S n) k n m0 mn mk ltac:(lia) Hn Hk) as (-> & -> & ->).
  apply run_frames_S in Hn as (m & Hm & Hf).
  destruct (run_frames_history _ _ _ Hm) as (_ & Hl1 & Hl2 & Hl3 & _).
  destruct (track_frame_end _ _ _ Hf) as (_ & _ & _ & _ & _ & _ & _ & _ & _ & _ & -> & -> & -> & _).
  rewrite !list_lookup_insert_eq; [tauto| | |].
  - rewrite Hl3, (sh_valid_t _ Hsh), Hnt0. exact Hnt.
  - rewrite Hl2, (sh_age_t _ Hsh), Hnt0. exact Hnt.
  - rewrite Hl1, (sh_ballpos _ Hsh), Hnt0. exact Hnt.
Qed.

Lemma X12_history_is_the_state_at_the_end_of_the_frame_witness :
  ballpos Demo.crowded2 !! 0%nat = Some (pos Scenes.crowded_frame0) ∧
  balls_age_t Demo.crowded2 !! 0%nat = Some (balls_age Scenes.crowded_frame0) ∧
  valid_balls_mask_t Demo.crowded2 !! 0%nat
    = Some (new_valid_balls_mask Scenes.crowded_frame0).
Proof.
  apply (X12_history_is_the_state_at_the_end_of_the_frame (H := Demo.collaborators)
           Demo.crowded_args Demo.crowded Scenes.crowded_frame0 Demo.crowded2 0 2).
  - vm_compute. reflexivity.
  - lia.
  - vm_compute. lia.
  - vm_compute. reflexivity.
  - vm_compute. reflexivity.
Defined.

(** ** label_from_pos *)

Lemma int32_small (v : Z) : - 2 ^ 31 ≤ v < 2 ^ 31 → int32 v = v.
Proof.
  intros Hv. unfold int32, Np.int32_of_word.
  destruct (decide (0 ≤ v)) as [H0|H0].
  - rewrite Z.mod_small by lia. destruct (Z.ltb_spec v (2 ^ 31)); lia.
  - replace (v mod 2 ^ 32) with (v + 2 ^ 32).
    + destruct (Z.ltb_spec (v + 2 ^ 32) (2 ^ 31)); lia.
    + apply Z.mod_unique with (-1); lia.
Qed.

Lemma lookup2_set_entry (r c : nat) (v : Z) (a : list (list Z)) (r' c' : nat) :
  lookup2 (set_entry r c v a) r' c' =
    if decide (r = r' ∧ c = c') then (λ _, v) <$> lookup2 a r' c' else lookup2 a r' c'.
Proof.
  unfold lookup2, set_entry. rewrite list_lookup_alter.
  destruct (decide (r = r')) as [->|Hr].
  - destruct (a !! r') as [row|]; simpl.
    + rewrite list_lookup_insert.
      destruct (decide (c = c')) as [->|Hc].
      * destruct (decide (c' < length row)%nat) as [Hlt|Hge].
        -- rewrite decide_True by tauto. rewrite decide_True by tauto.
           destruct (lookup_lt_is_Some_2 row c' Hlt) as [w ->]. reflexivity.
        -- rewrite decide_False by tauto. rewrite decide_True by tauto.
           rewrite lookup_ge_None_2 by lia. reflexivity.
      * rewrite decide_False by tauto. rewrite decide_False by tauto. reflexivity.
    + destruct (decide _); reflexivity.
  - rewrite decide_False by tauto. reflexivity.
Qed.

Lemma paint_shape (a : list (list Z)) (T : list (nat * nat * Z)) (d0 d1 : nat) :
  length a = d0 → Forall (λ row, length row = d1) a →
  length (paint a T) = d0 ∧ Forall (λ row, length row = d1) (paint a T).
Proof.
  unfold paint. revert a. induction T as [|t T IH]; intros a Hl Hall; [tauto|].
  simpl. apply IH.
  - unfold set_entry. rewrite length_alter. exact Hl.
  - unfold set_entry. apply Forall_alter; [exact Hall|].
    intros row _ Hrow. rewrite length_insert. exact Hrow.
Qed.

Lemma paint_origin (a : list (list Z)) (T : list (nat * nat * Z)) (r c : nat) (v : Z) :
  lookup2 (paint a T) r c = Some v →
  lookup2 a r c = Some v ∨ ((r, c, v) ∈ T ∧ is_Some (lookup2 a r c)).
Proof.
  unfold paint. revert v.
  induction T as [|t T IH] using rev_ind; intros v; [left; assumption|].
  rewrite foldl_snoc, lookup2_set_entry.
  destruct (decide _) as [[Hr Hc]|Hne].
  - destruct (lookup2 (foldl _ a T) r c) as [w|] eqn:Hw; [|discriminate].
    simpl. intros [= <-]. right. split.
    + apply elem_of_app. right. apply list_elem_of_singleton.
      destruct t as [[tr tc] tv]. simpl in *. subst. reflexivity.
    + destruct (IH w eq_refl) as [Ha|[_ Ha]]; eauto.
  - intros Hv. destruct (IH v Hv) as [Ha|[Hin Ha]]; [left; exact Ha|right].
    split; [|exact Ha]. apply elem_of_app. left. exact Hin.
Qed.

Lemma paint_last (a : list (list Z)) (T1 T2 : list (nat * nat * Z)) (r c : nat) (v : Z) :
  is_Some (lookup2 a r c) →
  Forall (λ t, ¬ (t.1.1 = r ∧ t.1.2 = c)) T2 →
  lookup2 (paint a (T1 ++ (r, c, v) :: T2)) r c = Some v.
Proof.
  intros Ha. unfold paint. induction T2 as [|t T2 IH] using rev_ind; intros Hno.
  - rewrite foldl_snoc, lookup2_set_entry. simpl.
    rewrite decide_True by tauto.
    assert (is_Some (lookup2 (paint a T1) r c)) as [w Hw].
    { clear -Ha. unfold paint. induction T1 as [|t T1 IH] using rev_ind; [exact Ha|].
      rewrite foldl_snoc, lookup2_set_entry. destruct IH as [w Hw].
      destruct (decide _); rewrite Hw; simpl; eauto. }
    unfold paint in Hw. rewrite Hw. reflexivity.
  - apply Forall_app in Hno as [Hno Ht]. apply Forall_inv in Ht.
    rewrite app_comm_cons, app_assoc, foldl_snoc, lookup2_set_entry.
    rewrite decide_False by exact Ht.
    apply IH. exact Hno.
Qed.

Lemma compress_lookups_from {A} (m : list bool) (a pre : list A) :
  length a = length m →
  Forall2 (λ i v, (pre ++ a) !! i = Some v) (Np.nonzero_from (length pre) m) (Np.compress m a).
Proof.
  revert a pre. induction m as [|b m IH]; intros a pre Hlen.
  - destruct a; [constructor|discriminate].
  - destruct a as [|w a]; [discriminate|]. injection Hlen as Hlen.
    specialize (IH a (pre ++ [w]) Hlen).
    rewrite length_app, Nat.add_1_r, <- app_assoc in IH. simpl in IH.
    simpl. destruct b; [|exact IH].
    constructor; [|exact IH].
    rewrite lookup_app_r by lia. rewrite Nat.sub_diag. reflexivity.
Qed.

Lemma compress_lookups {A} (m : list bool) (a : list A) :
  length a = length m →
  Forall2 (λ i v, a !! i = Some v) (Np.nonzero m) (Np.compress m a).
Proof. intros Hlen. exact (compress_lookups_from m a [] Hlen). Qed.

Lemma label_from_pos_Done (x y : list Z) (dims : nat * nat) (m : list (list Z)) :
  label_from_pos x y dims = Done m →
  length y = length x ∧
  ∃ T, m = paint (replicate dims.1 (replicate dims.2 0)) T ∧
       Forall2 (marker_of x y dims) (Np.nonzero ((λ v, 0 <? v) <$> x)) T.
Proof.
  unfold label_from_pos. destruct (decide _) as [Hlen|]; [|discriminate].
  intros Hm. apply bind_Done in Hm as (rows & Hrows%or_raise_Done & Hm).
  apply bind_Done in Hm as (cols & Hcols%or_raise_Done & [= <-]).
  split; [exact Hlen|]. eexists. split; [reflexivity|].
  set (mask := (λ v, 0 <? v) <$> x) in *.
  set (labels := (λ i : nat, int32 (Z.of_nat i + 1)) <$> seq 0 (length x)) in *.
  assert (Hlm : length x = length mask) by (unfold mask; rewrite length_fmap; reflexivity).
  pose proof (compress_lookups mask x Hlm) as Hx.
  pose proof (compress_lookups mask y ltac:(lia)) as Hy.
  pose proof (compress_lookups mask labels
                ltac:(unfold labels; rewrite length_fmap, length_seq; exact Hlm)) as Hl.
  apply mapM_Some in Hrows, Hcols.
  apply Forall2_same_length_lookup. split.
  - rewrite !length_zip.
    apply Forall2_length in Hx, Hy, Hl, Hrows, Hcols. lia.
  - intros k i t Hi Ht.
    destruct t as [[r c] l].
    apply lookup_zip_with_Some in Ht as ([r' c'] & l' & [= -> -> ->] & Hrc & Hlk).
    apply lookup_zip_with_Some in Hrc as (r'' & c'' & [= -> ->] & Hr & Hc).
    destruct (Forall2_lookup_l _ _ _ _ _ Hx Hi) as (xi & Hxi & Hxi').
    destruct (Forall2_lookup_l _ _ _ _ _ Hy Hi) as (yi & Hyi & Hyi').
    destruct (Forall2_lookup_l _ _ _ _ _ Hl Hi) as (li & Hli & Hli').
    pose proof (Forall2_lookup_lr _ _ _ _ _ _ Hrows Hyi Hr) as Hrow.
    pose proof (Forall2_lookup_lr _ _ _ _ _ _ Hcols Hxi Hc) as Hcol.
    simpl in Hrow, Hcol.
    exists xi, yi. simpl.
    assert (mask !! i = Some true) as Hmi.
    { apply elem_of_nonzero, list_elem_of_lookup. eauto. }
    unfold mask in Hmi. rewrite list_lookup_fmap, Hxi' in Hmi. simpl in Hmi.
    injection Hmi as Hmi. apply Z.ltb_lt in Hmi.
    repeat split; try assumption.
    rewrite Hlk in Hli. injection Hli as ->.
    unfold labels in Hli'. rewrite list_lookup_fmap in Hli'.
    rewrite lookup_seq_lt in Hli' by (apply lookup_lt_Some in Hxi'; exact Hxi').
    simpl in Hli'. congruence.
Qed.

Lemma axis_index_Some (d : nat) (i : Z) (n : nat) :
  axis_index d i = Some n →
  (n < d)%nat ∧ - Z.of_nat d ≤ i < Z.of_nat d ∧ (0 ≤ i → n = Z.to_nat i).
Proof.
  unfold axis_index.
  destruct ((0 <=? i) && (i <? Z.of_nat d)) eqn:H1.
  - apply andb_prop in H1 as [Ha%Z.leb_le Hb%Z.ltb_lt]. intros [= <-]. lia.
  - destruct ((- Z.of_nat d <=? i) && (i <? 0)) eqn:H2; [|discriminate].
    apply andb_prop in H2 as [Ha%Z.leb_le Hb%Z.ltb_lt]. intros [= <-]. lia.
Qed.

Lemma axis_index_is_Some (d : nat) (i : Z) :
  is_Some (axis_index d i) ↔ - Z.of_nat d ≤ i < Z.of_nat d.
Proof.
  split.
  - intros [n Hn]. apply axis_index_Some in Hn. tauto.
  - intros Hi. unfold axis_index.
    destruct ((0 <=? i) && (i <? Z.of_nat d)) eqn:H1; [eauto|].
    destruct ((- Z.of_nat d <=? i) && (i <? 0)) eqn:H2; [eauto|].
    apply andb_false_iff in H1, H2.
    rewrite Z.leb_gt, Z.ltb_ge in H1, H2. lia.
Qed.

Lemma mapM_compress_is_Some {A B} (f : A → option B) (mask : list bool) (a : list A) :
  is_Some (mapM f (Np.compress mask a)) ↔
  ∀ k v, mask !! k = Some true → a !! k = Some v → is_Some (f v).
Proof.
  rewrite mapM_is_Some, Forall_forall. split.
  - intros Hall k v Hk Hv. apply (Hall v). apply elem_of_compress. eauto.
  - intros Hall v (k & Hk & Hv)%elem_of_compress. eapply Hall; eassumption.
Qed.

(** X13.  [label_from_pos] succeeds exactly when the two coordinate arrays
    have the same length and every ball with [x > 0] has its pixel in the
    map ([x] below the number of columns, [y] from minus the number of rows,
    a negative [y] counting from the last row, to below it); otherwise it
    raises IndexError.  The balls with [x <= 0] are not looked at. *)
Theorem X13_markers_must_fit_the_map (x y : list Z) (dims : nat * nat) :
  (markers_fit x y dims → ∃ m, label_from_pos x y dims = Done m) ∧
  (¬ markers_fit x y dims → label_from_pos x y dims = Raised IndexError).
Proof.
  assert (Hrows : length y = length x →
            (is_Some (mapM (axis_index dims.1) (Np.compress ((λ v, 0 <? v) <$> x) y)) ↔
             ∀ k xi yi, x !! k = Some xi → y !! k = Some yi → 0 < xi →
                        - Z.of_nat dims.1 ≤ yi < Z.of_nat dims.1)).
  { intros Hlen. rewrite mapM_compress_is_Some. split.
    - intros Hall k xi yi Hx Hy Hpos. apply axis_index_is_Some, (Hall k); [|exact Hy].
      rewrite list_lookup_fmap, Hx. simpl. f_equal. apply Z.ltb_lt. exact Hpos.
    - intros Hall k yi Hm Hy. rewrite list_lookup_fmap in Hm.
      destruct (x !! k) as [xi|] eqn:Hx; [|discriminate]. simpl in Hm.
      injection Hm as Hm%Z.ltb_lt. apply axis_index_is_Some. eapply Hall; eassumption. }
  assert (Hcols :
            (is_Some (mapM (axis_index dims.2) (Np.compress ((λ v, 0 <? v) <$> x) x)) ↔
             ∀ k xi, x !! k = Some xi → 0 < xi → xi < Z.of_nat dims.2)).
  { rewrite mapM_compress_is_Some. split.
    - intros Hall k xi Hx Hpos.
      assert (is_Some (axis_index dims.2 xi)) as Hs.
      { apply (Hall k); [|exact Hx].
        rewrite list_lookup_fmap, Hx. simpl. f_equal. apply Z.ltb_lt. exact Hpos. }
      apply axis_index_is_Some in Hs. lia.
    - intros Hall k xi Hm Hx. rewrite list_lookup_fmap, Hx in Hm. simpl in Hm.
      injection Hm as Hm%Z.ltb_lt. apply axis_index_is_Some.
      specialize (Hall k xi Hx Hm). lia. }
  unfold markers_fit. split.
  - intros Hfit. pose proof (Forall2_length _ _ _ Hfit) as Hlen.
    unfold label_from_pos. rewrite decide_True by lia.
    destruct (proj2 (Hrows ltac:(lia))) as [rows ->].
    { intros k xi yi Hx Hy Hpos.
      apply (Forall2_lookup_lr _ _ _ _ _ _ Hfit Hx Hy Hpos). }
    destruct (proj2 Hcols) as [cols ->].
    { intros k xi Hx Hpos.
      destruct (Forall2_lookup_l _ _ _ _ _ Hfit Hx) as (yi & _ & Hb). apply (Hb Hpos). }
    cbn [or_raise mbind outcome_bind]. eauto.
  - intros Hnot. unfold label_from_pos.
    destruct (decide (length y = length x)) as [Hlen|]; [|reflexivity].
    destruct (mapM (axis_index dims.1) _) as [rows|] eqn:Hr; [|reflexivity].
    destruct (mapM (axis_index dims.2) _) as [cols|] eqn:Hc; [|reflexivity].
    exfalso. apply Hnot. apply Forall2_same_length_lookup. split; [lia|].
    intros k xi yi Hx Hy Hpos. split.
    + apply (proj1 Hcols ltac:(eauto) k xi Hx Hpos).
    + apply (proj1 (Hrows Hlen) ltac:(eauto) k xi yi Hx Hy Hpos).
Qed.

Lemma lookup2_replicate {A} (d0 d1 r c : nat) (v w : A) :
  lookup2 (replicate d0 (replicate d1 v)) r c = Some w → w = v.
Proof.
  unfold lookup2. intros Hl.
  destruct (replicate d0 _ !! r) as [row|] eqn:Hrow; [|discriminate]. simpl in Hl.
  apply lookup_replicate in Hrow as [-> _]. apply lookup_replicate in Hl as [-> _].
  reflexivity.
Qed.

Lemma lookup2_replicate_lt {A} (d0 d1 r c : nat) (v : A) :
  (r < d0)%nat → (c < d1)%nat → lookup2 (replicate d0 (replicate d1 v)) r c = Some v.
Proof.
  intros Hr Hc. unfold lookup2. rewrite lookup_replicate_2 by exact Hr. simpl.
  apply lookup_replicate_2. exact Hc.
Qed.

(** X14.  The label map has the shape asked for, and every nonzero entry
    is the label [i + 1] of a ball [i] with [x > 0] lying on that pixel.
    So a flagged ball ([x = -1]) is never a marker, and neither is a ball
    on the first column ([x = 0]): the first column of the map is all
    zero.  For fewer than [2^31] balls (the labels are [int32]). *)
Theorem X14_labels_are_the_markers (x y : list Z) (dims : nat * nat)
    (m : list (list Z)) :
  Z.of_nat (length x) < 2 ^ 31 →
  label_from_pos x y dims = Done m →
  length m = dims.1 ∧ Forall (λ row, length row = dims.2) m ∧
  (∀ r c v, lookup2 m r c = Some v → v ≠ 0 →
     ∃ i xi yi, v = Z.of_nat i + 1 ∧ x !! i = Some xi ∧ y !! i = Some yi ∧
                0 < xi ∧ xi = Z.of_nat c ∧ axis_index dims.1 yi = Some r) ∧
  (∀ r v, lookup2 m r 0 = Some v → v = 0).
Proof.
  intros Hsize (Hlen & T & -> & HT)%label_from_pos_Done.
  destruct (paint_shape (replicate dims.1 (replicate dims.2 0)) T dims.1 dims.2)
    as [Hs0 Hs1].
  { apply length_replicate. }
  { apply Forall_replicate. apply length_replicate. }
  split; [exact Hs0|]. split; [exact Hs1|].
  assert (Hmark : ∀ r c v, lookup2 (paint (replicate dims.1 (replicate dims.2 0)) T) r c
                           = Some v → v ≠ 0 →
     ∃ i xi yi, v = Z.of_nat i + 1 ∧ x !! i = Some xi ∧ y !! i = Some yi ∧
                0 < xi ∧ xi = Z.of_nat c ∧ axis_index dims.1 yi = Some r).
  { intros r c v Hv Hne.
    apply paint_origin in Hv as [Hv|[Hin _]].
    { apply lookup2_replicate in Hv. contradiction. }
    apply list_elem_of_lookup in Hin as [k Hk].
    destruct (Forall2_lookup_r _ _ _ _ _ HT Hk) as (i & Hi & xi & yi & Hx & Hy & Hpos & Hr & Hc & Hl).
    simpl in Hr, Hc, Hl. exists i, xi, yi.
    apply axis_index_Some in Hc as (_ & _ & Hc).
    pose proof (lookup_lt_Some _ _ _ Hx) as Hlt.
    rewrite int32_small in Hl by lia.
    repeat split; try assumption. rewrite (Hc ltac:(lia)). lia. }
  split; [exact Hmark|].
  intros r v Hv. destruct (decide (v = 0)) as [|Hne]; [assumption|].
  destruct (Hmark r 0%nat v Hv Hne) as (i & xi & yi & _ & _ & _ & Hpos & Hc & _). lia.
Qed.

Lemma X14_labels_are_the_markers_witness :
  length Scenes.marker_map = (3, 4)%nat.1 ∧
  Forall (λ row, length row = (3, 4)%nat.2) Scenes.marker_map ∧
  (∀ r c v, lookup2 Scenes.marker_map r c = Some v → v ≠ 0 →
     ∃ i xi yi, v = Z.of_nat i + 1 ∧ Scenes.marker_x !! i = Some xi ∧
                Scenes.marker_y !! i = Some yi ∧
                0 < xi ∧ xi = Z.of_nat c ∧ axis_index (3, 4)%nat.1 yi = Some r) ∧
  (∀ r v, lookup2 Scenes.marker_map r 0 = Some v → v = 0).
Proof.
  apply (X14_labels_are_the_markers Scenes.marker_x Scenes.marker_y (3, 4)%nat
           Scenes.marker_map).
  - vm_compute. reflexivity.
  - vm_compute. reflexivity.
Defined.

(** X15.  From a ball to its label and back: the pixel of a ball [i] with
    [x > 0] holds the label [i + 1], provided no ball of a higher index
    with [x > 0] lies on the same pixel (of two markers on one pixel the
    one of the higher index stays). *)
Theorem X15_a_marker_is_found_at_its_pixel (x y : list Z) (dims : nat * nat) (m : list (list Z))
    (i : nat) (xi yi : Z) :
  Z.of_nat (length x) < 2 ^ 31 →
  label_from_pos x y dims = Done m →
  x !! i = Some xi → y !! i = Some yi → 0 < xi →
  (∀ j xj yj, (i < j)%nat → x !! j = Some xj → y !! j = Some yj → 0 < xj →
              ¬ (xj = xi ∧ axis_index dims.1 yj = axis_index dims.1 yi)) →
  ∃ r, axis_index dims.1 yi = Some r ∧
       lookup2 m r (Z.to_nat xi) = Some (Z.of_nat i + 1).
Proof.
  intros Hsize (Hlen & T & -> & HT)%label_from_pos_Done Hx Hy Hpos Hlast.
  set (mask := (λ v, 0 <? v) <$> x) in *.
  assert (i ∈ Np.nonzero mask) as Hin.
  { apply elem_of_nonzero. unfold mask. rewrite list_lookup_fmap, Hx. simpl.
    f_equal. apply Z.ltb_lt. exact Hpos. }
  apply list_elem_of_lookup in Hin as [k Hk].
  destruct (Forall2_lookup_l _ _ _ _ _ HT Hk) as ([[r c] l] & Ht & xi' & yi' & Hx' & Hy' & _ & Hr & Hc & Hl).
  simpl in Hr, Hc, Hl. rewrite Hx in Hx'. rewrite Hy in Hy'.
  injection Hx' as <-. injection Hy' as <-.
  exists r. split; [exact Hr|].
  pose proof (axis_index_Some _ _ _ Hr) as (Hr' & _ & _).
  pose proof (axis_index_Some _ _ _ Hc) as (Hc' & _ & Hc'').
  specialize (Hc'' ltac:(lia)). subst c.
  pose proof (lookup_lt_Some _ _ _ Hx) as Hlt.
  rewrite int32_small in Hl by lia. subst l.
  rewrite <- (take_drop_middle _ _ _ Ht).
  apply paint_last.
  - rewrite lookup2_replicate_lt by assumption. eauto.
  - apply Forall_forall. intros t' Hin' [Ht1 Ht2].
    apply list_elem_of_lookup in Hin' as [k' Hk'].
    rewrite lookup_drop in Hk'.
    destruct (Forall2_lookup_r _ _ _ _ _ HT Hk') as (j & Hj & xj & yj & Hxj & Hyj & Hposj & Hrj & Hcj & _).
    assert (i < j)%nat as Hij.
    { eapply (StronglySorted_lookup lt (Np.nonzero mask) k (S k + k'));
        [apply nonzero_sorted | lia | exact Hk | exact Hj]. }
    apply (Hlast j xj yj Hij Hxj Hyj Hposj). split.
    + rewrite Ht2 in Hcj. apply axis_index_Some in Hcj as (_ & _ & Hcj).
      specialize (Hcj ltac:(lia)). lia.
    + rewrite Hrj, Ht1. symmetry. exact Hr.
Qed.

Lemma X15_a_marker_is_found_at_its_pixel_witness :
  ∃ r, axis_index (3, 4)%nat.1 1 = Some r ∧
       lookup2 Scenes.marker_map r (Z.to_nat 2) = Some (Z.of_nat 3 + 1).
Proof.
  apply (X15_a_marker_is_found_at_its_pixel Scenes.marker_x Scenes.marker_y (3, 4)%nat
           Scenes.marker_map 3 2 1).
  - vm_compute. reflexivity.
  - vm_compute. reflexivity.
  - reflexivity.
  - reflexivity.
  - lia.
  - intros j xj yj Hj Hx Hy _ _.
    apply lookup_lt_Some in Hx. simpl in Hx. lia.
Defined.


(** ** merge_watershed *)

Lemma lookup2_zip_with {A B C} (f : A → B → C) (a : list (list A)) (b : list (list B))
    (r c : nat) (w : C) :
  lookup2 (zip_with (zip_with f) a b) r c = Some w ↔
  ∃ u v, w = f u v ∧ lookup2 a r c = Some u ∧ lookup2 b r c = Some v.
Proof.
  unfold lookup2. split.
  - intros Hw.
    destruct (zip_with (zip_with f) a b !! r) as [row|] eqn:Hrow; [|discriminate].
    simpl in Hw.
    apply lookup_zip_with_Some in Hrow as (ra & rb & -> & Ha & Hb).
    apply lookup_zip_with_Some in Hw as (u & v & -> & Hu & Hv).
    exists u, v. rewrite Ha, Hb. simpl. tauto.
  - intros (u & v & -> & Hu & Hv).
    destruct (a !! r) as [ra|] eqn:Ha; [|discriminate].
    destruct (b !! r) as [rb|] eqn:Hb; [|discriminate].
    simpl in Hu, Hv.
    assert (zip_with (zip_with f) a b !! r = Some (zip_with f ra rb)) as ->.
    { apply lookup_zip_with_Some. eauto. }
    simpl. apply lookup_zip_with_Some. eauto.
Qed.

Lemma lookup2_Forall {A} (P : A → Prop) (a : list (list A)) (r c : nat) (v : A) :
  Forall (Forall P) a → lookup2 a r c = Some v → P v.
Proof.
  unfold lookup2. intros Hall Hv.
  destruct (a !! r) as [row|] eqn:Hrow; [|discriminate]. simpl in Hv.
  eapply Forall_lookup_1; [|exact Hv]. eapply Forall_lookup_1; [exact Hall|exact Hrow].
Qed.

(** X16.  [merge_watershed] keeps the two polarities apart.  When the
    labels of the positive flux are below [nballs_p] (ball numbers, or -1
    for the background) and no label overflows 32 bits, a merged label
    below [nballs_p] is the label of the positive flux, on a pixel where
    the negative flux has none, and a merged label above [nballs_p] is
    [nballs_p + l + 1] for the label [l] of the negative flux, which
    overrides the positive one; no pixel gets the label [nballs_p].
    Likewise a border of the negative flux is -1 whether or not the pixel
    is a border of the positive flux, a border of the positive flux only
    is 1, and any other pixel is 0. *)
Theorem X16_merged_labels_keep_the_polarities_apart (labels_p : list (list Z))
    (borders_p : list (list bool)) (nballs_p : Z) (labels_n : list (list Z))
    (borders_n : list (list bool)) (ws : list (list Z)) (borders : list (list Z)) :
  0 ≤ nballs_p →
  Forall (Forall (λ l, l < nballs_p)) labels_p →
  Forall (Forall (λ l, nballs_p + l + 1 < 2 ^ 31)) labels_n →
  merge_watershed labels_p borders_p nballs_p labels_n borders_n = Done (ws, borders) →
  (∀ r c w, lookup2 ws r c = Some w →
     ∃ lp ln, lookup2 labels_p r c = Some lp ∧ lookup2 labels_n r c = Some ln ∧
       ((ln < 0 ∧ w = lp ∧ w < nballs_p) ∨
        (0 ≤ ln ∧ w = nballs_p + ln + 1 ∧ nballs_p < w))) ∧
  (∀ r c v, lookup2 borders r c = Some v →
     ∃ bp bn, lookup2 borders_p r c = Some bp ∧ lookup2 borders_n r c = Some bn ∧
       ((bn = true ∧ v = -1) ∨ (bn = false ∧ bp = true ∧ v = 1) ∨
        (bn = false ∧ bp = false ∧ v = 0))).
Proof.
  intros Hn Hp Hover. unfold merge_watershed.
  destruct (decide _) as [_|]; [|discriminate].
  destruct (decide _) as [_|]; [|discriminate].
  intros [= <- <-]. split.
  - intros r c w (ln & lp & -> & Hln & Hlp)%lookup2_zip_with.
    exists lp, ln. split; [exact Hlp|]. split; [exact Hln|].
    pose proof (lookup2_Forall _ _ _ _ _ Hp Hlp) as Hlp'.
    pose proof (lookup2_Forall _ _ _ _ _ Hover Hln) as Hln'. simpl in Hlp', Hln'.
    destruct (Z.leb_spec 0 ln) as [H0|H0].
    + right. rewrite int32_small by lia. lia.
    + left. lia.
  - intros r c v (bn & bp & -> & Hbn & Hbp)%lookup2_zip_with.
    exists bp, bn. split; [exact Hbp|]. split; [exact Hbn|].
    destruct bn, bp; tauto.
Qed.

Lemma X16_merged_labels_keep_the_polarities_apart_witness :
  (∀ r c w, lookup2 [[0; -1; 3]; [1; 4; 3]] r c = Some w →
     ∃ lp ln, lookup2 Scenes.labels_p r c = Some lp ∧ lookup2 Scenes.labels_n r c = Some ln ∧
       ((ln < 0 ∧ w = lp ∧ w < 2) ∨ (0 ≤ ln ∧ w = 2 + ln + 1 ∧ 2 < w))) ∧
  (∀ r c v, lookup2 [[1; 0; -1]; [1; -1; -1]] r c = Some v →
     ∃ bp bn, lookup2 Scenes.borders_p r c = Some bp ∧
              lookup2 Scenes.borders_n r c = Some bn ∧
       ((bn = true ∧ v = -1) ∨ (bn = false ∧ bp = true ∧ v = 1) ∨
        (bn = false ∧ bp = false ∧ v = 0))).
Proof.
  apply (X16_merged_labels_keep_the_polarities_apart Scenes.labels_p Scenes.borders_p 2
           Scenes.labels_n Scenes.borders_n).
  - lia.
  - repeat constructor.
  - repeat constructor.
  - vm_compute. reflexivity.
Defined.

(** ** marker_watershed *)

(** X17.  With [invert] set (the default) the watershed is run on an image
    that is zero everywhere: [wdata -= wdata].  The values of the data then
    enter the result only through the threshold mask: two frames of the
    same shape whose pixels are beyond the threshold at the same places
    give the same labels, markers and borders.  [watershed] is assumed to
    read its image and mask at the pixels of the image only. *)
Theorem X17_inverted_watershed_sees_only_the_mask `{Segmentation} (data1 data2 : ndarray2)
    (x y : list Z) (threshold : Q) (polarity : Z) :
  watershed_reads_pixels →
  shape0 data1 = shape0 data2 → shape1 data1 = shape1 data2 →
  (∀ r c, 0 ≤ r < shape0 data1 → 0 ≤ c < shape1 data1 →
          mask_ws data1 threshold polarity r c = mask_ws data2 threshold polarity r c) →
  marker_watershed data1 x y threshold polarity true
  = marker_watershed data2 x y threshold polarity true.
Proof.
  intros Hext Hs0 Hs1 Hmask. unfold marker_watershed. rewrite <- Hs0, <- Hs1.
  destruct (label_from_pos x y _) as [markers| |]; [|reflexivity|reflexivity].
  cbn [mbind outcome_bind].
  rewrite (Hext (zip_array Qminus (map_array Qabs data1) (map_array Qabs data1))
                (zip_array Qminus (map_array Qabs data2) (map_array Qabs data2))
                markers (mask_ws data1 threshold polarity) (mask_ws data2 threshold polarity));
    [reflexivity | exact Hs0 | exact Hs1 |].
  intros r c Hr Hc. split; [|apply Hmask; assumption].
  simpl. unfold Qminus. rewrite !Qplus_opp_r. reflexivity.
Qed.

Lemma demo_watershed_reads_pixels : @watershed_reads_pixels Scenes.segmentation.
Proof.
  intros a b markers m1 m2 Hs0 Hs1 Hpix. simpl. unfold Scenes.flat_watershed.
  apply imap_ext. intros r row _. apply imap_ext. intros c l _.
  rewrite <- Hs0, <- Hs1.
  destruct (Z.ltb_spec (Z.of_nat r) (shape0 a)) as [Hr|Hr]; [|reflexivity].
  destruct (Z.ltb_spec (Z.of_nat c) (shape1 a)) as [Hc|Hc]; [|reflexivity].
  destruct (Hpix (Z.of_nat r) (Z.of_nat c) ltac:(lia) ltac:(lia)) as [He Hm].
  rewrite Hm. simpl. destruct (m2 _ _); [|reflexivity]. simpl.
  assert (Qle_bool 0 (entry a (Z.of_nat r) (Z.of_nat c))
          = Qle_bool 0 (entry b (Z.of_nat r) (Z.of_nat c))) as ->; [|reflexivity].
  apply eq_true_iff_eq. rewrite !Qle_bool_iff, He. reflexivity.
Qed.

Lemma X17_inverted_watershed_sees_only_the_mask_witness :
  marker_watershed (H := Scenes.segmentation) (Demo.spots 3 4 50 [])
    Scenes.marker_x Scenes.marker_y 30 1 true
  = marker_watershed (H := Scenes.segmentation) (Demo.spots 3 4 80 [])
      Scenes.marker_x Scenes.marker_y 30 1 true.
Proof.
  apply (X17_inverted_watershed_sees_only_the_mask (H := Scenes.segmentation)).
  - exact demo_watershed_reads_pixels.
  - reflexivity.
  - reflexivity.
  - intros r c _ _. vm_compute. reflexivity.
Defined.

(** ** get_local_extrema_ar *)






(** On a frame with a spot of intensity 100 at (x, y) = (2, 2) and one of
    intensity 500 at (8, 9), and [threshold2 = 200], the first is in the
    weak group and the second in the strong one. *)
Example extrema_of_two_spots :
  get_local_extrema_ar (H := Demo.collaborators)
    (Demo.spots 12 12 0 [(2, 2, 100%Q); (9, 8, 500%Q)]) 1 4 (Level 30) 200 false
  = Done [(2, 2); (8, 9)].
Proof. vm_compute. reflexivity. Qed.

(** ** load_data *)

Lemma rfind_from_found (i : Z) (c : ascii) (s : list ascii) :
  0 ≤ rfind_from i c s →
  i ≤ rfind_from i c s ∧ s !! Z.to_nat (rfind_from i c s - i) = Some c.
Proof.
  revert i. induction s as [|a s IH]; intros i; simpl; [lia|].
  destruct (Z.ltb_spec (rfind_from (i + 1) c s) 0) as [Hneg|Hpos].
  - destruct (bool_decide (a = c)) eqn:Ha; [|lia].
    intros _. split; [lia|]. rewrite Z.sub_diag. simpl.
    apply bool_decide_eq_true_1 in Ha. congruence.
  - intros _. destruct (IH (i + 1) Hpos) as [Hle Hl]. split; [lia|].
    replace (Z.to_nat (rfind_from (i + 1) c s - i))
      with (S (Z.to_nat (rfind_from (i + 1) c s - (i + 1)))) by lia.
    exact Hl.
Qed.

Lemma rfind_from_lower (i : Z) (c : ascii) (s : list ascii) :
  0 ≤ i → -1 ≤ rfind_from i c s.
Proof.
  revert i. induction s as [|a s IH]; intros i Hi; simpl; [lia|].
  destruct (Z.ltb_spec (rfind_from (i + 1) c s) 0); [|apply IH; lia].
  destruct (bool_decide (a = c)); lia.
Qed.

(** The extension that [os.path.splitext] returns is empty or starts with
    a dot. *)
Lemma splitext_extension (p : list ascii) :
  (splitext p).2 = [] ∨ ∃ rest, (splitext p).2 = "."%char :: rest.
Proof.
  unfold splitext, rfind.
  destruct (_ && _) eqn:Hc; [|left; reflexivity].
  right. simpl. apply andb_prop in Hc as [Hlt%Z.ltb_lt _].
  pose proof (rfind_from_lower 0 "/"%char p ltac:(lia)) as Hsep.
  destruct (rfind_from_found 0 "."%char p ltac:(lia)) as [_ Hdot].
  rewrite Z.sub_0_r in Hdot.
  exists (drop (S (Z.to_nat (rfind_from 0 "."%char p))) p).
  apply drop_S. exact Hdot.
Qed.

(** X19.  [load_data] never reads a numpy archive: the test
    [ext in ('npz', 'npy')] compares against names without the dot, and
    the extension given by [os.path.splitext] is empty or starts with a
    dot.  Whatever the name of the first file, the frame is what
    [fitstools.fitsread] returns (cut to the region of interest when one is
    given); an empty list of files is IndexError. *)
Theorem X19_load_data_always_reads_fits `{Readers}
    (np_load : list ascii → io_error + ndarray2) (datafiles : list (list ascii)) (n : nat)
    (r : option roi) :
  load_data np_load datafiles n r =
    match datafiles !! 0%nat with
    | None => inl index_error
    | Some _ => crop r (fitsread datafiles n)
    end.
Proof.
  unfold load_data. destruct (datafiles !! 0%nat) as [p0|]; [|reflexivity].
  rewrite bool_decide_eq_false_2; [reflexivity|].
  intros Hin.
  destruct (splitext_extension p0) as [Hnil|[rest Hdot]].
  - rewrite Hnil in Hin. repeat (apply elem_of_cons in Hin as [Hin|Hin]; [discriminate|]).
    inversion Hin.
  - rewrite Hdot in Hin. repeat (apply elem_of_cons in Hin as [Hin|Hin]; [discriminate|]).
    inversion Hin.
Qed.

(** The path [a/b.npz] has the extension [.npz], with its dot. *)
Example extension_of_an_archive :
  splitext ["a"; "/"; "b"; "."; "n"; "p"; "z"]%char
  = (["a"; "/"; "b"]%char, ["."; "n"; "p"; "z"]%char) ∧
  splitext ["a"; "."; "d"; "/"; "."; "b"]%char = (["a"; "."; "d"; "/"; "."; "b"]%char, []).
Proof. split; vm_compute; reflexivity. Qed.
